(** * Connect 4: the decision engine of [connect4.py]

    A shallow embedding of the board helpers, the rules engine, the
    heuristic evaluator and the minimax search of [connect4.py], and the
    properties its specification states about them.

    Conventions.
    - The board is the 6 x 7 numpy integer array of the source, kept as a
      list of rows (row 0 is the bottom row) of integer cells.
    - Functions that only read a board take the board's contents.  Functions
      that write ([place_piece]) or copy ([simulate_drop]) work on a store of
      boards addressed by reference, so that aliasing between the caller's
      board and the boards of the search is visible.
    - Python exceptions are the [Raise] outcome of the store monad. *)

From Stdlib Require Import ZArith List Bool Lia Sorted.
From stdpp Require Import base option list list_numbers strings.
Import ListNotations.

(** ** Global configuration *)

Definition ROW_COUNT : nat := 6.
Definition COLUMN_COUNT : nat := 7.

Definition EMPTY : Z := 0.
Definition PLAYER : Z := 1.
Definition COMPUTER : Z := 2.

Definition AI_DEPTH : nat := 5.

(** ** The board *)

Abbreviation Board := (list (list Z)).

(** [board[r, c]] as numpy evaluates it for indices that are not negative:
    absent outside the array (where Python raises [IndexError]). *)
Definition getitem (board : Board) (r c : nat) : option Z :=
  row ← board !! r; row !! c.

(** The total reading used by the read-only functions below.  It agrees with
    [getitem] wherever the source can index (lemma [getitem_cell]). *)
Definition cell (board : Board) (r c : nat) : Z :=
  default EMPTY (getitem board r c).

(** The shape [np.zeros((ROW_COUNT, COLUMN_COUNT))] gives every board. *)
Definition wf_boardb (board : Board) : bool :=
  (length board =? ROW_COUNT)
  && forallb (λ row, length row =? COLUMN_COUNT) board.

Definition wf_board (board : Board) : Prop := wf_boardb board = true.

Definition create_board : Board :=
  replicate ROW_COUNT (replicate COLUMN_COUNT 0%Z).

(** numpy's index normalisation on an axis of length [n]: indices in
    [-n, n) are accepted, the negative ones counted from the end. *)
Definition np_index (n : nat) (i : Z) : option nat :=
  if (0 <=? i)%Z && (i <? Z.of_nat n)%Z then Some (Z.to_nat i)
  else if (- Z.of_nat n <=? i)%Z && (i <? 0)%Z then Some (Z.to_nat (i + Z.of_nat n))
  else None.

(** [board[row, column] = value] on the contents; [None] is [IndexError]. *)
Definition setitem (board : Board) (row : nat) (column : Z) (value : Z)
  : option Board :=
  cells ← board !! row;
  c ← np_index (length cells) column;
  Some (<[row := <[c := value]> cells]> board).

Definition check_available_row (board : Board) (column : Z) : option nat :=
  if (column <? 0)%Z || (column >=? Z.of_nat COLUMN_COUNT)%Z then None
  else find (λ r, (cell board r (Z.to_nat column) =? EMPTY)%Z) (seq 0 ROW_COUNT).

Definition valid_locations (board : Board) : list nat :=
  filter (λ c, is_Some (check_available_row board (Z.of_nat c)))
         (seq 0 COLUMN_COUNT).

(** [not (board == EMPTY).any()] *)
Definition board_full (board : Board) : bool :=
  negb (existsb (λ row, existsb (λ x, (x =? EMPTY)%Z) row) board).

(** [all(... for i in range(4))] *)
Definition all4 (p : nat → bool) : bool := forallb p (seq 0 4).

Definition check_win (board : Board) (piece_row piece_column : nat) : bool :=
  let piece := cell board piece_row piece_column in
  (* Horizontal 4 *)
  existsb (λ c, all4 (λ i, (cell board piece_row (c + i) =? piece)%Z))
          (seq 0 (COLUMN_COUNT - 3))
  (* Vertical 4 *)
  || existsb (λ r, all4 (λ i, (cell board (r + i) piece_column =? piece)%Z))
             (seq 0 (ROW_COUNT - 3))
  (* Diagonal down-right *)
  || existsb (λ r,
       existsb (λ c, all4 (λ i, (cell board (r + i) (c + i) =? piece)%Z))
               (seq 0 (COLUMN_COUNT - 3)))
       (seq 0 (ROW_COUNT - 3))
  (* Diagonal up-right *)
  || existsb (λ r,
       existsb (λ c, all4 (λ i, (cell board (r - i) (c + i) =? piece)%Z))
               (seq 0 (COLUMN_COUNT - 3)))
       (seq 3 (ROW_COUNT - 3)).

Definition check_any_win (board : Board) (player_value : Z) : bool :=
  existsb (λ r,
    existsb (λ c, (cell board r c =? player_value)%Z && check_win board r c)
            (seq 0 COLUMN_COUNT))
    (seq 0 ROW_COUNT).

(** [(game_over, winner)], the winner [None] for a draw or a running game. *)
Definition is_terminal (board : Board) : bool * option Z :=
  if check_any_win board PLAYER then (true, Some PLAYER)
  else if check_any_win board COMPUTER then (true, Some COMPUTER)
  else if board_full board then (true, None)
  else (false, None).

(** ** Lines of four, stated on the grid

    The geometric notions the specification speaks about, independent of the
    loops of [check_win]. *)

Inductive axis := Horizontal | Vertical | DiagonalDownRight | DiagonalUpRight.

Global Instance axis_eq_dec : EqDecision axis.
Proof. solve_decision. Defined.

(** A window is an axis and the cell it starts from. *)
Definition window : Type := axis * (nat * nat).

(** The [i]-th cell of a window. *)
Definition window_cell (w : window) (i : nat) : nat * nat :=
  match w with
  | (Horizontal, (r, c)) => (r, c + i)
  | (Vertical, (r, c)) => (r + i, c)
  | (DiagonalDownRight, (r, c)) => (r + i, c + i)
  | (DiagonalUpRight, (r, c)) => (r - i, c + i)
  end.

Definition window_cells (w : window) : list (nat * nat) :=
  map (window_cell w) (seq 0 4).

(** A window fits when its four cells are cells of the grid. *)
Definition fits (w : window) : bool :=
  match w with
  | (Horizontal, (r, c)) => (r <? ROW_COUNT) && (c + 3 <? COLUMN_COUNT)
  | (Vertical, (r, c)) => (r + 3 <? ROW_COUNT) && (c <? COLUMN_COUNT)
  | (DiagonalDownRight, (r, c)) => (r + 3 <? ROW_COUNT) && (c + 3 <? COLUMN_COUNT)
  | (DiagonalUpRight, (r, c)) =>
      (3 <=? r) && (r <? ROW_COUNT) && (c + 3 <? COLUMN_COUNT)
  end.

Definition grid_cells : list (nat * nat) :=
  r ← seq 0 ROW_COUNT; c ← seq 0 COLUMN_COUNT; [(r, c)].

Definition all_windows : list window :=
  filter (λ w, fits w = true)
    (a ← [Horizontal; Vertical; DiagonalDownRight; DiagonalUpRight];
     p ← grid_cells; [(a, p)]).

(** The values a board holds along a window. *)
Definition window_values (board : Board) (w : window) : list Z :=
  map (λ p, cell board p.1 p.2) (window_cells w).

Definition filled_with (board : Board) (v : Z) (w : window) : bool :=
  forallb (λ x, (x =? v)%Z) (window_values board w).

(** Some window of the grid holds four pieces of [player_value]. *)
Definition has_four (board : Board) (player_value : Z) : bool :=
  existsb (filled_with board player_value) all_windows.

(** Some window of the grid that contains [(r, c)] holds four copies of the
    piece at [(r, c)]: a run of at least four through the cell. *)
Definition run_through (board : Board) (r c : nat) : bool :=
  existsb (λ w, bool_decide ((r, c) ∈ window_cells w)
                && filled_with board (cell board r c) w)
          all_windows.

(** No cell of the grid is empty. *)
Definition grid_full (board : Board) : bool :=
  forallb (λ p, negb (cell board p.1 p.2 =? EMPTY)%Z) grid_cells.

(** No piece floats: a non-empty cell never sits directly above an empty
    cell of its column. *)
Definition no_floating (board : Board) : Prop :=
  ∀ r c, r + 1 < ROW_COUNT → c < COLUMN_COUNT →
    cell board (r + 1) c ≠ EMPTY → cell board r c ≠ EMPTY.

(** [r] is the lowest empty row of column [c]. *)
Definition lowest_empty (board : Board) (c r : nat) : Prop :=
  r < ROW_COUNT ∧ cell board r c = EMPTY ∧
  ∀ r', r' < r → cell board r' c ≠ EMPTY.

(** ** Heuristic evaluation *)

(** [window.count(x)] *)
Definition count (window : list Z) (x : Z) : nat :=
  length (filter (λ y, y = x) window).

Definition peek_score (window : list Z) (player_value : Z) : Z :=
  let opp := if (player_value =? COMPUTER)%Z then PLAYER else COMPUTER in
  let score := 0%Z in
  let score :=
    if count window player_value =? 4 then (score + 100000)%Z
    else if (count window player_value =? 3) && (count window EMPTY =? 1)
         then (score + 100)%Z
    else if (count window player_value =? 2) && (count window EMPTY =? 2)
         then (score + 10)%Z
    else score in
  let score :=
    if (count window opp =? 3) && (count window EMPTY =? 1)
    then (score - 120)%Z  (* prefer blocking threats *)
    else if (count window opp =? 2) && (count window EMPTY =? 2)
         then (score - 15)%Z
    else score in
  score.

(** [board[r, :]] and [board[:, c]] as lists, and the slice [l[i:j]]. *)
Definition row_of (board : Board) (r : nat) : list Z := default [] (board !! r).
Definition column_of (board : Board) (c : nat) : list Z :=
  (λ cells, default EMPTY (cells !! c)) <$> board.
Definition slice (l : list Z) (i j : nat) : list Z := take (j - i) (drop i l).

(** A [for] loop that accumulates into [score]. *)
Definition for_each {A} (l : list A) (body : A → Z → Z) (score : Z) : Z :=
  fold_left (λ score x, body x score) l score.

Definition position_score (board : Board) (player_value : Z) : Z :=
  let score := 0%Z in
  (* Center preference *)
  let center_col := column_of board (COLUMN_COUNT / 2) in
  let score := (score + 10 * Z.of_nat (count center_col player_value))%Z in
  (* Horizontal windows *)
  let score :=
    for_each (seq 0 ROW_COUNT) (λ r score,
      let row_arr := row_of board r in
      for_each (seq 0 (COLUMN_COUNT - 3)) (λ c score,
        (score + peek_score (slice row_arr c (c + 4)) player_value)%Z) score)
      score in
  (* Vertical windows *)
  let score :=
    for_each (seq 0 COLUMN_COUNT) (λ c score,
      let col_arr := column_of board c in
      for_each (seq 0 (ROW_COUNT - 3)) (λ r score,
        (score + peek_score (slice col_arr r (r + 4)) player_value)%Z) score)
      score in
  (* Diagonal down-right *)
  let score :=
    for_each (seq 0 (ROW_COUNT - 3)) (λ r score,
      for_each (seq 0 (COLUMN_COUNT - 3)) (λ c score,
        let window := map (λ i, cell board (r + i) (c + i)) (seq 0 4) in
        (score + peek_score window player_value)%Z) score)
      score in
  (* Diagonal up-right *)
  let score :=
    for_each (seq 0 (ROW_COUNT - 3)) (λ r score,
      for_each (seq 0 (COLUMN_COUNT - 3)) (λ c score,
        let window := map (λ i, cell board (r + 3 - i) (c + i)) (seq 0 4) in
        (score + peek_score window player_value)%Z) score)
      score in
  score.

(** The evaluation as the specification words it: one score per window
    composition, the first matching line of the table. *)
Definition opponent_of (side : Z) : Z :=
  if (side =? PLAYER)%Z then COMPUTER else PLAYER.

Definition window_score (values : list Z) (side : Z) : Z :=
  let own := count values side in
  let theirs := count values (opponent_of side) in
  let free := count values EMPTY in
  if own =? 4 then 100000%Z
  else if (own =? 3) && (free =? 1) then 100%Z
  else if (own =? 2) && (free =? 2) then 10%Z
  else if (theirs =? 3) && (free =? 1) then (-120)%Z
  else if (theirs =? 2) && (free =? 2) then (-15)%Z
  else 0%Z.

Definition sumZ (l : list Z) : Z := foldr Z.add 0%Z l.

Definition middle_column : nat := 3.

Definition heuristic (board : Board) (side : Z) : Z :=
  (10 * Z.of_nat (count (map (λ r, cell board r middle_column) (seq 0 ROW_COUNT)) side)
   + sumZ (map (λ w, window_score (window_values board w) side) all_windows))%Z.

(** ** AI utilities *)

(** The [while] loop of [ordered_columns]; [fuel] bounds its iterations. *)
Fixpoint ordered_columns_loop (fuel : nat) (center offset : Z) (order : list nat)
  : list nat :=
  match fuel with
  | 0 => order
  | S fuel =>
      if length order <? COLUMN_COUNT then
        let order :=
          if (center - offset >=? 0)%Z
          then order ++ [Z.to_nat (center - offset)] else order in
        let order :=
          if (center + offset <? Z.of_nat COLUMN_COUNT)%Z
          then order ++ [Z.to_nat (center + offset)] else order in
        ordered_columns_loop fuel center (offset + 1)%Z order
      else order
  end.

Definition ordered_columns : list nat :=
  let center := COLUMN_COUNT / 2 in
  ordered_columns_loop COLUMN_COUNT (Z.of_nat center) 1%Z [center].

(** ** Scores: the floats of the search

    [minimax] returns [math.inf], [-math.inf], the integer [0] or
    [float(position_score ...)].  The heuristic is an integer far below
    [2^53] (lemma [position_score_float_exact]), so its conversion is exact,
    and the search only compares scores
    and takes maxima and minima. *)
Inductive Score := NegInf | Fin (z : Z) | PosInf.

Definition score_ltb (a b : Score) : bool :=
  match a, b with
  | NegInf, NegInf => false
  | NegInf, _ => true
  | Fin x, Fin y => (x <? y)%Z
  | Fin _, PosInf => true
  | Fin _, NegInf => false
  | PosInf, _ => false
  end.

Definition score_leb (a b : Score) : bool := negb (score_ltb b a).
Definition score_max (a b : Score) : Score := if score_ltb a b then b else a.
Definition score_min (a b : Score) : Score := if score_ltb b a then b else a.

(** ** The store of boards and the effects of the search *)

Inductive exn := IndexError | TypeError.

(** Boards live in a store and are passed by reference; [draws] counts the
    calls made to the random number generator. *)
Definition loc : Type := nat.
Record world := World { heap : list Board; draws : nat }.

Inductive outcome (A : Type) :=
| Ok (a : A) (w : world)
| Raise (e : exn).
Global Arguments Ok {A} a w.
Global Arguments Raise {A} e.

Definition M (A : Type) : Type := world → outcome A.

Global Instance M_ret : MRet M := λ A a w, Ok a w.
Global Instance M_bind : MBind M := λ A B k m w,
  match m w with
  | Ok a w' => k a w'
  | Raise e => Raise e
  end.

Definition raise {A} (e : exn) : M A := λ _, Raise e.

(** Reading the contents behind a reference. *)
Definition deref (l : loc) : M Board := λ w,
  match heap w !! l with
  | Some b => Ok b w
  | None => Raise TypeError
  end.

(** Overwriting the contents behind a reference: mutation in place. *)
Definition store (l : loc) (b : Board) : M unit := λ w,
  if l <? length (heap w)
  then Ok () {| heap := <[l := b]> (heap w); draws := draws w |}
  else Raise TypeError.

(** [board.copy()]: a fresh reference holding the same contents. *)
Definition alloc (b : Board) : M loc := λ w,
  Ok (length (heap w)) {| heap := heap w ++ [b]; draws := draws w |}.
Definition copy (l : loc) : M loc := b ← deref l; alloc b.

Definition place_piece (board : loc) (column : Z) (row : option nat)
    (player_value : Z) : M bool :=
  match row with
  | None => mret false
  | Some row =>
      b ← deref board;
      match setitem b row column player_value with
      | Some b' => _ ← store board b'; mret true
      | None => raise IndexError
      end
  end.

(** The two lines every move handler of the game loops runs:
    [row = check_available_row(board, col)] and then
    [place_piece(board, col, row, player)], whose result says whether the
    drop was accepted. *)
Definition attempt_drop (board : loc) (col : Z) (player : Z) : M bool :=
  b ← deref board;
  let row := check_available_row b col in
  place_piece board col row player.

(** A sequence of attempted drops on the live board. *)
Fixpoint play (board : loc) (moves : list (Z * Z)) : M unit :=
  match moves with
  | [] => mret ()
  | (col, player) :: moves => _ ← attempt_drop board col player; play board moves
  end.

(** Returns [(tmp_board, row)], here [Some (tmp, r)], or [(None, None)],
    here [None], if the column is full. *)
Definition simulate_drop (board : loc) (col : Z) (player_value : Z)
  : M (option (loc * nat)) :=
  b ← deref board;
  match check_available_row b col with
  | None => mret None
  | Some r =>
      tmp ← copy board;
      _ ← place_piece tmp col (Some r) player_value;
      mret (Some (tmp, r))
  end.

Fixpoint winning_moves_loop (board : loc) (player_value : Z) (cols : list nat)
    (wins : list nat) : M (list nat) :=
  match cols with
  | [] => mret wins
  | c :: cols =>
      res ← simulate_drop board (Z.of_nat c) player_value;
      match res with
      | Some (tmp, r) =>
          t ← deref tmp;
          if check_win t r c
          then winning_moves_loop board player_value cols (wins ++ [c])
          else winning_moves_loop board player_value cols wins
      | None => winning_moves_loop board player_value cols wins
      end
  end.

Definition winning_moves (board : loc) (player_value : Z) : M (list nat) :=
  b ← deref board;
  winning_moves_loop board player_value (valid_locations b) [].

(** The score [minimax] returns without searching, given [is_terminal]'s
    answer. *)
Definition static_value (board : Board) : Score :=
  let '(game_over, winner) := is_terminal board in
  if game_over then
    match winner with
    | Some w =>
        if (w =? COMPUTER)%Z then PosInf
        else if (w =? PLAYER)%Z then NegInf
        else Fin 0
    | None => Fin 0  (* draw *)
    end
  else Fin (position_score board COMPUTER).

(** The early shortcut: the first column of [order] whose drop wins at once. *)
Fixpoint immediate_win (board : loc) (player_value : Z) (order : list nat)
  : M (option nat) :=
  match order with
  | [] => mret None
  | c :: order =>
      res ← simulate_drop board (Z.of_nat c) player_value;
      match res with
      | Some (tmp, r) =>
          t ← deref tmp;
          if check_win t r c then mret (Some c)
          else immediate_win board player_value order
      | None => immediate_win board player_value order
      end
  end.

Section Search.

(** The random number generator: [entropy n] is its [n]-th output. *)
Variable entropy : nat → nat.

(** [random.choice(seq)]; [IndexError] on an empty sequence. *)
Definition random_choice (l : list nat) : M nat := λ w,
  match l !! (entropy (draws w) `mod` length l) with
  | Some c => Ok c {| heap := heap w; draws := S (draws w) |}
  | None => Raise IndexError
  end.

(** The loop of the maximizing branch over the remaining columns; [rec] is
    [minimax] one ply deeper. *)
Fixpoint max_loop (rec : loc → Score → Score → M (Score * option nat))
    (board : loc) (order : list nat) (value : Score) (best_col : option nat)
    (alpha beta : Score) : M (Score * option nat) :=
  match order with
  | [] => mret (value, best_col)
  | c :: order =>
      res ← simulate_drop board (Z.of_nat c) COMPUTER;
      match res with
      | None => raise TypeError
      | Some (tmp, _) =>
          '(new_score, _) ← rec tmp alpha beta;
          let '(value, best_col) :=
            if score_ltb value new_score then (new_score, Some c)
            else (value, best_col) in
          let alpha := score_max alpha value in
          if score_leb beta alpha then mret (value, best_col)
          else max_loop rec board order value best_col alpha beta
      end
  end.

Fixpoint min_loop (rec : loc → Score → Score → M (Score * option nat))
    (board : loc) (order : list nat) (value : Score) (best_col : option nat)
    (alpha beta : Score) : M (Score * option nat) :=
  match order with
  | [] => mret (value, best_col)
  | c :: order =>
      res ← simulate_drop board (Z.of_nat c) PLAYER;
      match res with
      | None => raise TypeError
      | Some (tmp, _) =>
          '(new_score, _) ← rec tmp alpha beta;
          let '(value, best_col) :=
            if score_ltb new_score value then (new_score, Some c)
            else (value, best_col) in
          let beta := score_min beta value in
          if score_leb beta alpha then mret (value, best_col)
          else min_loop rec board order value best_col alpha beta
      end
  end.

(** [if best_col is None: best_col = random.choice(valid)] *)
Definition or_random (valid : list nat) (best_col : option nat) : M nat :=
  match best_col with
  | Some c => mret c
  | None => random_choice valid
  end.

(** [depth] is a natural number: the game calls [minimax] with [AI_DEPTH],
    and every recursive call passes [depth - 1] after the test
    [depth == 0] has failed. *)
Fixpoint minimax (depth : nat) (board : loc) (alpha beta : Score)
    (maximizing : bool) : M (Score * option nat) :=
  b ← deref board;
  match depth with
  | 0 => mret (static_value b, None)
  | S depth' =>
      if (is_terminal b).1 then mret (static_value b, None)
      else
        let valid := valid_locations b in
        let order := filter (λ c, c ∈ valid) ordered_columns in
        if maximizing then
          shortcut ← immediate_win board COMPUTER order;
          match shortcut with
          | Some c => mret (PosInf, Some c)
          | None =>
              '(value, best_col) ←
                max_loop (λ tmp alpha beta, minimax depth' tmp alpha beta false)
                         board order NegInf None alpha beta;
              best_col ← or_random valid best_col;
              mret (value, Some best_col)
          end
        else
          shortcut ← immediate_win board PLAYER order;
          match shortcut with
          | Some c => mret (NegInf, Some c)
          | None =>
              '(value, best_col) ←
                min_loop (λ tmp alpha beta, minimax depth' tmp alpha beta true)
                         board order PosInf None alpha beta;
              best_col ← or_random valid best_col;
              mret (value, Some best_col)
          end
  end.

Definition ai_best_move (board : loc) : M nat :=
  (* 1) Win now *)
  wins ← winning_moves board COMPUTER;
  match wins with
  | c :: _ => mret c
  | [] =>
      (* 2) Block opponent win *)
      opp_wins ← winning_moves board PLAYER;
      match opp_wins with
      | c :: _ => mret c
      | [] =>
          (* 3) Otherwise search *)
          '(_, col) ← minimax AI_DEPTH board NegInf PosInf true;
          match col with
          | Some c => mret c
          | None => b ← deref board; random_choice (valid_locations b)
          end
      end
  end.

End Search.

(** ** The search on board contents

    What [minimax] computes, as a function of the contents of the board it
    is given: the same branches and loops with the store taken away.  The
    column is [best_col] before the random fallback. *)

(** The contents of the copy [simulate_drop] makes, and the landing row. *)
Definition dropped (b : Board) (c : nat) (player_value : Z)
  : option (Board * nat) :=
  r ← check_available_row b (Z.of_nat c);
  t ← setitem b r (Z.of_nat c) player_value;
  Some (t, r).

(** Dropping [player_value] into column [c] wins at once. *)
Definition wins_at (b : Board) (player_value : Z) (c : nat) : bool :=
  match dropped b c player_value with
  | Some (t, r) => check_win t r c
  | None => false
  end.

Definition search_order (b : Board) : list nat :=
  filter (λ c, c ∈ valid_locations b) ordered_columns.

Fixpoint max_scan (f : Board → Score → Score → Score) (b : Board)
    (order : list nat) (value : Score) (best_col : option nat)
    (alpha beta : Score) : Score * option nat :=
  match order with
  | [] => (value, best_col)
  | c :: order =>
      match dropped b c COMPUTER with
      | None => (value, best_col)
      | Some (t, _) =>
          let new_score := f t alpha beta in
          let '(value, best_col) :=
            if score_ltb value new_score then (new_score, Some c)
            else (value, best_col) in
          let alpha := score_max alpha value in
          if score_leb beta alpha then (value, best_col)
          else max_scan f b order value best_col alpha beta
      end
  end.

Fixpoint min_scan (f : Board → Score → Score → Score) (b : Board)
    (order : list nat) (value : Score) (best_col : option nat)
    (alpha beta : Score) : Score * option nat :=
  match order with
  | [] => (value, best_col)
  | c :: order =>
      match dropped b c PLAYER with
      | None => (value, best_col)
      | Some (t, _) =>
          let new_score := f t alpha beta in
          let '(value, best_col) :=
            if score_ltb new_score value then (new_score, Some c)
            else (value, best_col) in
          let beta := score_min beta value in
          if score_leb beta alpha then (value, best_col)
          else min_scan f b order value best_col alpha beta
      end
  end.

Fixpoint search (depth : nat) (b : Board) (alpha beta : Score)
    (maximizing : bool) : Score * option nat :=
  match depth with
  | 0 => (static_value b, None)
  | S depth' =>
      if (is_terminal b).1 then (static_value b, None)
      else if maximizing then
        match find (wins_at b COMPUTER) (search_order b) with
        | Some c => (PosInf, Some c)
        | None =>
            max_scan (λ t alpha beta, (search depth' t alpha beta false).1)
                     b (search_order b) NegInf None alpha beta
        end
      else
        match find (wins_at b PLAYER) (search_order b) with
        | Some c => (NegInf, Some c)
        | None =>
            min_scan (λ t alpha beta, (search depth' t alpha beta true).1)
                     b (search_order b) PosInf None alpha beta
        end
  end.

(** [minimax] stops at once on this board: depth used up or game over. *)
Definition is_leaf (depth : nat) (b : Board) : bool :=
  (depth =? 0) || (is_terminal b).1.

(** ** The reference: minimax without pruning

    The plain game-tree value the specification compares the search with:
    the static value at a leaf, otherwise the maximum (COMPUTER to move) or
    the minimum (PLAYER to move) of the values of the boards one legal drop
    away.  No window, no shortcut, no move ordering. *)

Definition side_to_move (maximizing : bool) : Z :=
  if maximizing then COMPUTER else PLAYER.

Definition children (b : Board) (player_value : Z) : list Board :=
  omap (λ c, fst <$> dropped b c player_value) (valid_locations b).

Definition maximum (l : list Score) : Score := foldr score_max NegInf l.
Definition minimum (l : list Score) : Score := foldr score_min PosInf l.

Fixpoint plain_minimax (depth : nat) (b : Board) (maximizing : bool) : Score :=
  match depth with
  | 0 => static_value b
  | S depth' =>
      if (is_terminal b).1 then static_value b
      else if maximizing then
        maximum (map (λ t, plain_minimax depth' t false) (children b COMPUTER))
      else
        minimum (map (λ t, plain_minimax depth' t true) (children b PLAYER))
  end.

(** ** Notions used by the statements

    [seen_from r c w]: the window [w] is one [check_win] looks at when it is
    called on the cell [(r, c)]. *)
Definition seen_from (r c : nat) (w : window) : Prop :=
  match w with
  | (Horizontal, (r0, _)) => r0 = r
  | (Vertical, (_, c0)) => c0 = c
  | _ => True
  end.

(** What one attempted drop does to the live board. *)
Definition drop_effect (b b' : Board) (col player : Z) (accepted : bool) : Prop :=
  if accepted then
    ∃ r, (0 ≤ col < Z.of_nat COLUMN_COUNT)%Z ∧
      lowest_empty b (Z.to_nat col) r ∧
      ∀ r' c', cell b' r' c' =
               if decide (r' = r ∧ c' = Z.to_nat col) then player
               else cell b r' c'
  else b' = b.

(** The windows in the order the four loops of [position_score] visit
    them. *)
Definition scanned_windows : list window :=
  flat_map (λ r, map (λ c, (Horizontal, (r, c))) (seq 0 (COLUMN_COUNT - 3)))
           (seq 0 ROW_COUNT)
  ++ flat_map (λ c, map (λ r, (Vertical, (r, c))) (seq 0 (ROW_COUNT - 3)))
              (seq 0 COLUMN_COUNT)
  ++ flat_map (λ r, map (λ c, (DiagonalDownRight, (r, c))) (seq 0 (COLUMN_COUNT - 3)))
              (seq 0 (ROW_COUNT - 3))
  ++ flat_map (λ r, map (λ c, (DiagonalUpRight, (r + 3, c))) (seq 0 (COLUMN_COUNT - 3)))
              (seq 0 (ROW_COUNT - 3)).

(** The order on scores. *)
Definition slt (a b : Score) : Prop :=
  match a, b with
  | NegInf, NegInf => False
  | NegInf, _ => True
  | Fin x, Fin y => (x < y)%Z
  | Fin _, PosInf => True
  | Fin _, NegInf => False
  | PosInf, _ => False
  end.

Definition sle (a b : Score) : Prop :=
  match a, b with
  | NegInf, _ => True
  | Fin _, NegInf => False
  | Fin x, Fin y => (x ≤ y)%Z
  | Fin _, PosInf => True
  | PosInf, PosInf => True
  | PosInf, _ => False
  end.

(** The guarantee of a search with window [(alpha, beta)]: the returned
    score [r] is the true value [v] inside the window, an upper bound of it
    at or below [alpha], and a lower bound of it at or above [beta]. *)
Definition within (alpha beta r v : Score) : Prop :=
  (sle r alpha → sle v r) ∧
  (slt alpha r → slt r beta → sle v r ∧ sle r v) ∧
  (sle beta r → sle r v).

(** The boards one drop of [side] away, along a list of columns. *)
Definition boards_after (b : Board) (side : Z) (cs : list nat) : list Board :=
  omap (λ c, fst <$> dropped b c side) cs.

(** What the loops need of the recursive call: it returns the score [f]
    computes from the contents, and only adds boards to the store. *)
Definition computes (rec : loc → Score → Score → M (Score * option nat))
    (f : Board → Score → Score → Score) : Prop :=
  ∀ t tmp alpha beta w, wf_board t → heap w !! tmp = Some t →
    ∃ col w', rec tmp alpha beta w = Ok (f t alpha beta, col) w'
              ∧ heap w `prefix_of` heap w'.

(** The column [minimax] returns, against the column the search keeps:
    none at a leaf; otherwise a legal column, the kept one if there is one. *)
Definition column_spec (d : nat) (b : Board) (kept col : option nat) : Prop :=
  if is_leaf d b then col = None
  else ∃ c, col = Some c ∧ c ∈ valid_locations b ∧ (kept = Some c ∨ kept = None).

(** Dropping [side] into column [c] ends the game with [side] the winner. *)
Definition wins_immediately (b : Board) (side : Z) (c : nat) : Prop :=
  ∃ t r, dropped b c side = Some (t, r) ∧ is_terminal t = (true, Some side).

(** ** Concrete boards, bottom row first *)

(** PLAYER holds the diagonal from (0,0) to (3,3) and a lone piece at
    (0,6). *)
Definition distant_diagonal_board : Board :=
  [ [1; 2; 2; 2; 0; 0; 1];
    [0; 1; 2; 1; 0; 0; 0];
    [0; 0; 1; 2; 0; 0; 0];
    [0; 0; 0; 1; 0; 0; 0];
    [0; 0; 0; 0; 0; 0; 0];
    [0; 0; 0; 0; 0; 0; 0] ]%Z.

(** PLAYER fills the bottom of column 0 and COMPUTER the bottom of
    column 1, four pieces each. *)
Definition double_win_board : Board :=
  [ [1; 2; 0; 0; 0; 0; 0];
    [1; 2; 0; 0; 0; 0; 0];
    [1; 2; 0; 0; 0; 0; 0];
    [1; 2; 0; 0; 0; 0; 0];
    [0; 0; 0; 0; 0; 0; 0];
    [0; 0; 0; 0; 0; 0; 0] ]%Z.

(** A board whose column 0 is full. *)
Definition full_column_board : Board :=
  [ [1; 0; 0; 0; 0; 0; 0];
    [2; 0; 0; 0; 0; 0; 0];
    [1; 0; 0; 0; 0; 0; 0];
    [2; 0; 0; 0; 0; 0; 0];
    [1; 0; 0; 0; 0; 0; 0];
    [2; 0; 0; 0; 0; 0; 0] ]%Z.

(** COMPUTER holds (0,0), (0,1), (0,2) and wins at column 3; PLAYER holds
    the bottom three cells of column 6 and wins at column 6. *)
Definition threat_board : Board :=
  [ [2; 2; 2; 0; 0; 0; 1];
    [0; 0; 0; 0; 0; 0; 1];
    [0; 0; 0; 0; 0; 0; 1];
    [0; 0; 0; 0; 0; 0; 0];
    [0; 0; 0; 0; 0; 0; 0];
    [0; 0; 0; 0; 0; 0; 0] ]%Z.

(** [threat_board] after COMPUTER's drop in column 3. *)
Definition threat_board_won : Board :=
  [ [2; 2; 2; 2; 0; 0; 1];
    [0; 0; 0; 0; 0; 0; 1];
    [0; 0; 0; 0; 0; 0; 1];
    [0; 0; 0; 0; 0; 0; 0];
    [0; 0; 0; 0; 0; 0; 0];
    [0; 0; 0; 0; 0; 0; 0] ]%Z.

(** * The game around the engine *)

(** ** Pixels, rendering and input *)

Definition SQUARESIZE : Z := 100.
Definition WIDTH : Z := SQUARESIZE * Z.of_nat COLUMN_COUNT.
Definition HEIGHT : Z := SQUARESIZE * (Z.of_nat ROW_COUNT + 2).

Definition BLUE : Z * Z * Z := (0, 0, 255)%Z.
Definition BLACK : Z * Z * Z := (0, 0, 0)%Z.
Definition RED : Z * Z * Z := (255, 0, 0)%Z.
Definition YELLOW : Z * Z * Z := (255, 255, 0)%Z.

(** [x // SQUARESIZE]: Python's floor division. *)
Definition col_from_mouse (x : Z) : Z := (x / SQUARESIZE)%Z.

(** The calls [draw_board] makes on the screen, in order:
    [pygame.draw.rect(screen, color, (x, y, w, h))] and
    [pygame.draw.circle(screen, color, (cx, cy), radius)]. *)
Inductive draw_call :=
| DrawRect (color : Z * Z * Z) (rect : Z * Z * Z * Z)
| DrawCircle (color : Z * Z * Z) (center : Z * Z) (radius : Z).

Definition draw_board (board : Board) : list draw_call :=
  (* Grid and empty holes *)
  (c ← seq 0 COLUMN_COUNT; r ← seq 0 ROW_COUNT;
   [ DrawRect BLUE (Z.of_nat c * SQUARESIZE, (Z.of_nat r + 1) * SQUARESIZE,
                    SQUARESIZE, SQUARESIZE);
     DrawCircle BLACK (Z.of_nat c * SQUARESIZE + SQUARESIZE / 2,
                       (Z.of_nat r + 1) * SQUARESIZE + SQUARESIZE / 2)
                (SQUARESIZE / 2 - 5) ])%Z
  (* Discs (flip row) *)
  ++ (c ← seq 0 COLUMN_COUNT; r ← seq 0 ROW_COUNT;
      let display_r := (Z.of_nat ROW_COUNT - 1 - Z.of_nat r)%Z in
      if (cell board r c =? PLAYER)%Z then
        [ DrawCircle RED (Z.of_nat c * SQUARESIZE + SQUARESIZE / 2,
                          (display_r + 1) * SQUARESIZE + SQUARESIZE / 2)
                     (SQUARESIZE / 2 - 5) ]%Z
      else if (cell board r c =? COMPUTER)%Z then
        [ DrawCircle YELLOW (Z.of_nat c * SQUARESIZE + SQUARESIZE / 2,
                             (display_r + 1) * SQUARESIZE + SQUARESIZE / 2)
                     (SQUARESIZE / 2 - 5) ]%Z
      else []).

(** ** The game loops

    The part of [two_player] and [play_computer] that decides the game: the
    [while winner is None and not draw] loop.  The calls that only draw or
    wait are left out.  What the user does is an input: one [frame] for each
    turn of a polling loop, holding what [pygame.mouse.get_pos()] (where the
    loop asks) and [pygame.event.get()] answer in that turn. *)

Inductive event :=
| QUIT
| MOUSEBUTTONDOWN (pos : Z * Z)
| OTHER_EVENT.

Record frame := Frame { get_pos : Z * Z; get : list event }.

(** The local variables [turn], [winner] and [draw]. *)
Record game := Game { turn : nat; winner : option Z; draw : bool }.

(** How the loop stops: [return None] on [QUIT], or the loop left with its
    variables, each with the frames not yet read; or, in the model only, the
    frames used up while the loop still runs. *)
Inductive loop_result :=
| Quit (rest : list frame)
| Finished (g : game) (rest : list frame)
| Waiting (g : game)
| OutOfFuel.

(** [PLAYER if turn % 2 == 0 else COMPUTER] *)
Definition player_of (turn : nat) : Z :=
  if (turn `mod` 2 =? 0) then PLAYER else COMPUTER.

(** [next((r for r in range(ROW_COUNT - 1, -1, -1)
          if board[r, col] == player), 0)] *)
Definition check_row (board : Board) (col : nat) (player : Z) : nat :=
  default 0 (find (λ r, (cell board r col =? player)%Z) (rev (seq 0 ROW_COUNT))).

(** The body of [if place_piece(board, col, row, player):]. *)
Definition after_drop (board : loc) (col : nat) (player : Z) (g : game) : M game :=
  b ← deref board;
  if check_win b (check_row b col player) col
  then mret {| turn := turn g; winner := Some player; draw := draw g |}
  else
    let '(game_over, _) := is_terminal b in
    mret {| turn := S (turn g); winner := winner g;
            draw := game_over && bool_decide (winner g = None) |}.

(** The handler of a [MOUSEBUTTONDOWN] event. *)
Definition handle_click (board : loc) (player : Z) (pos : Z * Z) (g : game)
  : M game :=
  let col := col_from_mouse pos.1 in
  if (0 <=? col)%Z && (col <? Z.of_nat COLUMN_COUNT)%Z then
    b ← deref board;
    let row := check_available_row b col in
    place_piece board col row player ≫= λ placed : bool,
      if placed then after_drop board (Z.to_nat col) player g else mret g
  else mret g.

(** [for event in pygame.event.get(): ...]; [None] is [return None]. *)
Fixpoint handle_events (board : loc) (player : Z) (events : list event)
    (g : game) : M (option game) :=
  match events with
  | [] => mret (Some g)
  | QUIT :: _ => mret None
  | MOUSEBUTTONDOWN pos :: events =>
      handle_click board player pos g ≫= handle_events board player events
  | OTHER_EVENT :: events => handle_events board player events g
  end.

Fixpoint two_player_loop (frames : list frame) (board : loc) (g : game)
  : M loop_result :=
  if bool_decide (winner g = None) && negb (draw g) then
    match frames with
    | [] => mret (Waiting g)
    | fr :: frames =>
        let player := player_of (turn g) in
        r ← handle_events board player (get fr) g;
        match r with
        | None => mret (Quit frames)
        | Some g => two_player_loop frames board g
        end
    end
  else mret (Finished g frames).

(** [two_player] up to the end of its loop; the board it created is returned
    with the result. *)
Definition two_player_game (frames : list frame) : M (loc * loop_result) :=
  board ← alloc create_board;
  r ← two_player_loop frames board {| turn := 0; winner := None; draw := false |};
  mret (board, r).

Section Computer.

Variable entropy : nat → nat.

(** [random.randint(a, b)], for [a <= b]. *)
Definition random_randint (a b : nat) : M nat := λ w,
  Ok (a + entropy (draws w) `mod` (b - a + 1))
     {| heap := heap w; draws := S (draws w) |}.

(** The computer's branch of the loop of [play_computer]. *)
Definition computer_turn (board : loc) (player : Z) (g : game) : M game :=
  col ← ai_best_move entropy board;
  b ← deref board;
  let row := check_available_row b (Z.of_nat col) in
  place_piece board (Z.of_nat col) row player ≫= λ placed : bool,
    if placed then after_drop board col player g else mret g.

(** The loop of [play_computer]; [fuel] bounds the turns of the loop. *)
Fixpoint play_computer_loop (fuel : nat) (frames : list frame)
    (board : loc) (g : game) : M loop_result :=
  match fuel with
  | 0 => mret OutOfFuel
  | S fuel =>
      if bool_decide (winner g = None) && negb (draw g) then
        let player := player_of (turn g) in
        if (player =? PLAYER)%Z then
          match frames with
          | [] => mret (Waiting g)
          | fr :: frames =>
              r ← handle_events board player (get fr) g;
              match r with
              | None => mret (Quit frames)
              | Some g => play_computer_loop fuel frames board g
              end
          end
        else
          g ← computer_turn board player g;
          play_computer_loop fuel frames board g
      else mret (Finished g frames)
  end.

(** [play_computer] up to the end of its loop. *)
Definition play_computer_game (fuel : nat) (frames : list frame)
  : M (loc * loop_result) :=
  board ← alloc create_board;
  turn ← random_randint 0 1;  (* 0 -> PLAYER first, 1 -> COMPUTER first *)
  r ← play_computer_loop fuel frames board
        {| turn := turn; winner := None; draw := false |};
  mret (board, r).

End Computer.

(** The distance of a column from the centre column. *)
Definition centre_distance (c : nat) : nat :=
  let centre := COLUMN_COUNT / 2 in
  if c <? centre then centre - c else c - centre.

(** The board holds [board'] after some drops of [player] into empty
    cells. *)
Definition only_added (player : Z) (b b' : Board) : Prop :=
  ∀ r c, cell b' r c = cell b r c ∨ (cell b r c = EMPTY ∧ cell b' r c = player).

(** The result of a game loop agrees with the board it leaves: while the
    loop runs no side has won and a cell is free; when it has finished,
    [is_terminal] reports the announced winner, or a draw exactly when
    [draw] is set. *)
Definition result_agrees (b : Board) (r : loop_result) : Prop :=
  match r with
  | Quit _ => True
  | OutOfFuel => False
  | Waiting g => winner g = None ∧ draw g = false ∧ is_terminal b = (false, None)
  | Finished g _ =>
      is_terminal b = (true, winner g) ∧
      (draw g = true ↔ winner g = None) ∧
      (∀ p, winner g = Some p → p = PLAYER ∨ p = COMPUTER)
  end.

(** The variables [after_drop] leaves, given the contents [t] of the board
    after the drop. *)
Definition after_state (t : Board) (col : nat) (player : Z) (g : game) : game :=
  if check_win t (check_row t col player) col
  then {| turn := turn g; winner := Some player; draw := draw g |}
  else {| turn := S (turn g); winner := winner g;
          draw := (is_terminal t).1 && bool_decide (winner g = None) |}.

(** What holds of the live board and the variables of a game loop at every
    turn of the loop. *)
Definition loop_inv (b : Board) (g : game) : Prop :=
  wf_board b ∧ no_floating b ∧
  match winner g with
  | None => is_terminal b = (draw g, None)
  | Some p =>
      (p = PLAYER ∨ p = COMPUTER) ∧ draw g = false ∧
      is_terminal b = (true, Some p)
  end.

(** The same while one batch of events is handled for [player]: a winner can
    only be [player]. *)
Definition batch_inv (player : Z) (b : Board) (g : game) : Prop :=
  loop_inv b g ∧ ∀ p, winner g = Some p → p = player.

(** The store [w'] is the store [w] with the board behind [l] now holding
    [b'], and possibly more boards after it. *)
Definition store_after (l : loc) (b' : Board) (w w' : world) : Prop :=
  <[l := b']> (heap w) `prefix_of` heap w'.

(** The loop goes on: [winner is None and not draw]. *)
Definition running (g : game) : bool :=
  bool_decide (winner g = None) && negb (draw g).

(** ** Menu, rematch prompt and the application loop

    A function that polls for input either returns, leaving the frames it
    has not read, or, in the model only, is still polling when the frames
    are used up, or has used up the fuel of [play_computer_loop]. *)

Inductive returned (A : Type) :=
| Returned (a : A) (rest : list frame)
| Pending
| Exhausted.
Arguments Returned {A} a rest.
Arguments Pending {A}.
Arguments Exhausted {A}.

(** The three tests on the mouse position in [main_menu]. *)
Definition menu_item (mx my : Z) : option Z :=
  if (100 <=? mx)%Z && (mx <=? 600)%Z && (200 <=? my)%Z && (my <=? 300)%Z
  then Some 0%Z
  else if (100 <=? mx)%Z && (mx <=? 675)%Z && (400 <=? my)%Z && (my <=? 500)%Z
  then Some 1%Z
  else if (100 <=? mx)%Z && (mx <=? 250)%Z && (600 <=? my)%Z && (my <=? 700)%Z
  then Some 2%Z
  else None.

(** [for event in pygame.event.get(): ...] of [main_menu]; [mx, my] is the
    mouse position read before the events. *)
Fixpoint menu_events (mx my : Z) (events : list event) : option Z :=
  match events with
  | [] => None
  | QUIT :: _ => Some 2%Z
  | MOUSEBUTTONDOWN _ :: events =>
      match menu_item mx my with
      | Some choice => Some choice
      | None => menu_events mx my events
      end
  | OTHER_EVENT :: events => menu_events mx my events
  end.

Fixpoint main_menu (frames : list frame) : returned Z :=
  match frames with
  | [] => Pending
  | fr :: frames =>
      let '(mx, my) := get_pos fr in
      match menu_events mx my (get fr) with
      | Some choice => Returned choice frames
      | None => main_menu frames
      end
  end.

(** [pygame.Rect], with [right], [bottom] and [collidepoint]: a point on the
    right or the bottom edge is outside. *)
Record Rect := { left : Z; top : Z; width : Z; height : Z }.

Definition right (r : Rect) : Z := left r + width r.
Definition bottom (r : Rect) : Z := top r + height r.

Definition collidepoint (r : Rect) (x y : Z) : bool :=
  (left r <=? x)%Z && (x <? right r)%Z && (top r <=? y)%Z && (y <? bottom r)%Z.

(** [surf.get_rect()] for a surface of the given size, and
    [rect.topleft = p]. *)
Definition get_rect (size : Z * Z) : Rect :=
  {| left := 0; top := 0; width := size.1; height := size.2 |}.

Definition set_topleft (r : Rect) (p : Z * Z) : Rect :=
  {| left := p.1; top := p.2; width := width r; height := height r |}.

(** A game mode and the [mode_tag] its function passes to [rematch]. *)
Inductive mode := TwoPlayer | PlayComputer.

Definition mode_tag (m : mode) : string :=
  match m with TwoPlayer => "2p" | PlayComputer => "ai" end.

(** [if choice == 0: two_player(screen) else: play_computer(screen)] *)
Definition chosen_mode (choice : Z) : mode :=
  if (choice =? 0)%Z then TwoPlayer else PlayComputer.

(** What [play_game] has seen so far: the calls that returned, with what they
    returned. *)
Inductive visit :=
| MenuReturned (choice : Z)
| GameReturned (m : mode) (next_state : option string).

(** How [play_game] stops: the loop is left ([break]), or, in the model only,
    a call is still polling or out of fuel. *)
Inductive app_end :=
| Exit (rest : list frame)
| AppPending
| AppExhausted.

Section Flow.

Variable entropy : nat → nat.

(** The sizes of the rendered texts "Rematch?", "Yes" and "No", which the
    font decides. *)
Variables prompt_size yes_size no_size : Z * Z.

Definition padding_x : Z := 20.
Definition padding_y : Z := 10.
Definition rematch_y : Z := HEIGHT - SQUARESIZE + padding_y.

Definition prompt_rect : Rect :=
  set_topleft (get_rect prompt_size) (padding_x, rematch_y).
Definition yes_rect : Rect :=
  set_topleft (get_rect yes_size) (right prompt_rect + 30, rematch_y)%Z.
Definition no_rect : Rect :=
  set_topleft (get_rect no_size) (right yes_rect + 40, rematch_y)%Z.

(** [for event in pygame.event.get(): ...] of [rematch]. *)
Fixpoint rematch_events (mode_tag : string) (events : list event)
  : option string :=
  match events with
  | [] => None
  | QUIT :: _ => None
  | MOUSEBUTTONDOWN (ex, ey) :: events =>
      if collidepoint yes_rect ex ey then Some mode_tag
      else if collidepoint no_rect ex ey then Some "menu"
      else rematch_events mode_tag events
  | OTHER_EVENT :: events => rematch_events mode_tag events
  end.

(** One call of [rematch]; the mouse position it reads only colours the
    texts. *)
Definition rematch (mode_tag : string) (fr : frame) : option string :=
  rematch_events mode_tag (get fr).

(** [while True: res = rematch(screen, mode_tag=...); ...] at the end of
    [two_player] and [play_computer]. *)
Fixpoint rematch_loop (tag : string) (frames : list frame)
  : returned (option string) :=
  match frames with
  | [] => Pending
  | fr :: frames =>
      match rematch tag fr with
      | None => rematch_loop tag frames
      | Some res =>
          if String.eqb res tag then Returned (Some tag) frames
          else if String.eqb res "menu"
          then Returned (Some "menu"%string) frames
          else rematch_loop tag frames
      end
  end.

(** What follows the loop of a game mode. *)
Definition after_loop (tag : string) (r : loop_result)
  : returned (option string) :=
  match r with
  | Quit rest => Returned None rest
  | Finished _ rest => rematch_loop tag rest
  | Waiting _ => Pending
  | OutOfFuel => Exhausted
  end.

Definition two_player (frames : list frame) : M (returned (option string)) :=
  '(_, r) ← two_player_game frames;
  mret (after_loop "2p" r).

Definition play_computer (fuel : nat) (frames : list frame)
  : M (returned (option string)) :=
  '(_, r) ← play_computer_game entropy fuel frames;
  mret (after_loop "ai" r).

Definition run_mode (fuel : nat) (m : mode) (frames : list frame)
  : M (returned (option string)) :=
  match m with
  | TwoPlayer => two_player frames
  | PlayComputer => play_computer fuel frames
  end.

(** The rest of the run [m], after the visits [log]. *)
Definition after_visits (log : list visit) (m : M (list visit * app_end))
  : M (list visit * app_end) :=
  r ← m; mret (log ++ r.1, r.2).

(** The loop of [play_game]; [fuel] bounds its turns and those of each
    [play_computer]. *)
Fixpoint play_game (fuel : nat) (frames : list frame)
  : M (list visit * app_end) :=
  match fuel with
  | 0 => mret ([], AppExhausted)
  | S fuel =>
      match main_menu frames with
      | Pending => mret ([], AppPending)
      | Exhausted => mret ([], AppExhausted)
      | Returned choice frames =>
          if (choice =? 2)%Z then mret ([MenuReturned choice], Exit frames)
          else
            let m := chosen_mode choice in
            r ← run_mode fuel m frames;
            match r with
            | Pending => mret ([MenuReturned choice], AppPending)
            | Exhausted => mret ([MenuReturned choice], AppExhausted)
            | Returned None frames =>
                mret ([MenuReturned choice; GameReturned m None], Exit frames)
            | Returned (Some next_state) frames =>
                let log :=
                  [MenuReturned choice; GameReturned m (Some next_state)] in
                if String.eqb next_state "menu" then
                  after_visits log (play_game fuel frames)
                else if String.eqb next_state "2p" || String.eqb next_state "ai"
                then
                  let m2 := if String.eqb next_state "2p"
                            then TwoPlayer else PlayComputer in
                  r2 ← run_mode fuel m2 frames;
                  match r2 with
                  | Pending => mret (log, AppPending)
                  | Exhausted => mret (log, AppExhausted)
                  | Returned next_state frames =>
                      after_visits (log ++ [GameReturned m2 next_state])
                        (play_game fuel frames)
                  end
                else after_visits log (play_game fuel frames)
            end
      end
  end.

End Flow.

(** ** Notions used by the statements about the application loop *)

(** Events that leave [main_menu] polling, for the mouse position [mouse]
    read before them: no [QUIT], and no click unless the mouse is over none
    of the menu items. *)
Definition undecided (mouse : Z * Z) (events : list event) : Prop :=
  (QUIT ∉ events) ∧
  ((∀ pos, MOUSEBUTTONDOWN pos ∉ events) ∨ menu_item mouse.1 mouse.2 = None).

(** A frame with a click that [rematch] takes for "Yes" or for "No". *)
Definition answers (prompt_size yes_size no_size : Z * Z) (fr : frame) : Prop :=
  ∃ pos, MOUSEBUTTONDOWN pos ∈ get fr ∧
    (collidepoint (yes_rect prompt_size yes_size) pos.1 pos.2 = true ∨
     collidepoint (no_rect prompt_size yes_size no_size) pos.1 pos.2 = true).

(** What a game loop that stopped with [r] has read of [frames]. *)
Definition consumed (frames : list frame) (r : loop_result) : Prop :=
  match r with
  | Quit rest => ∃ pre fr, frames = pre ++ fr :: rest ∧ QUIT ∈ get fr
  | Finished _ rest => rest `suffix_of` frames
  | Waiting _ | OutOfFuel => True
  end.

(** What a game mode returns: [None] after a [QUIT] event, or its own tag or
    "menu" after it has read at least one frame. *)
Definition mode_returns (m : mode) (frames : list frame)
    (r : returned (option string)) : Prop :=
  match r with
  | Returned None rest => ∃ pre fr, frames = pre ++ fr :: rest ∧ QUIT ∈ get fr
  | Returned (Some s) rest =>
      (s = mode_tag m ∨ s = "menu"%string) ∧
      ∃ pre, frames = pre ++ rest ∧ pre ≠ []
  | Pending => True
  | Exhausted => False
  end.

(** The runs of [play_game], as the visits made and how the run stops.  From
    the menu, "Exit" leaves the loop; a game that returns [None] leaves the
    loop; a game that returns "menu" is followed by the menu; a game that
    returns its own tag is followed by one more game of the same mode, and
    then by the menu whatever that game returned. *)
Inductive flow : list visit → app_end → Prop :=
| flow_in_menu : flow [] AppPending
| flow_exit rest : flow [MenuReturned 2] (Exit rest)
| flow_in_game choice :
    choice = 0%Z ∨ choice = 1%Z → flow [MenuReturned choice] AppPending
| flow_quit choice m rest :
    choice = 0%Z ∨ choice = 1%Z → m = chosen_mode choice →
    flow [MenuReturned choice; GameReturned m None] (Exit rest)
| flow_to_menu choice m log e :
    choice = 0%Z ∨ choice = 1%Z → m = chosen_mode choice →
    flow log e →
    flow (MenuReturned choice :: GameReturned m (Some "menu"%string) :: log) e
| flow_in_rematch choice m :
    choice = 0%Z ∨ choice = 1%Z → m = chosen_mode choice →
    flow [MenuReturned choice; GameReturned m (Some (mode_tag m))] AppPending
| flow_rematch choice m next_state log e :
    choice = 0%Z ∨ choice = 1%Z → m = chosen_mode choice →
    next_state = None ∨ next_state = Some (mode_tag m) ∨
    next_state = Some "menu"%string →
    flow log e →
    flow (MenuReturned choice :: GameReturned m (Some (mode_tag m))
          :: GameReturned m next_state :: log) e.

(** * Properties *)

Example all_windows_count : length all_windows = 69.
Proof. reflexivity. Qed.

(** ** Bounded quantifiers of the loops *)

Lemma all4_true (p : nat → bool) :
  all4 p = true ↔ ∀ i, i < 4 → p i = true.
Proof.
  unfold all4. rewrite forallb_forall. split.
  - intros H i Hi. apply H, in_seq. lia.
  - intros H i Hi. apply in_seq in Hi. apply H. lia.
Qed.

Lemma existsb_seq (p : nat → bool) (a n : nat) :
  existsb p (seq a n) = true ↔ ∃ i, a ≤ i < a + n ∧ p i = true.
Proof.
  rewrite existsb_exists. split.
  - intros (i & Hi & Hp). apply in_seq in Hi. eauto.
  - intros (i & Hi & Hp). exists i. split; [apply in_seq; lia | done].
Qed.

Lemma existsb_seq_false (p : nat → bool) (a n : nat) :
  existsb p (seq a n) = false ↔ ∀ i, a ≤ i < a + n → p i = false.
Proof.
  rewrite <- not_true_iff_false, existsb_seq. split.
  - intros H i Hi. apply not_true_iff_false. intros Hp. apply H. eauto.
  - intros H (i & Hi & Hp). rewrite (H i Hi) in Hp. discriminate.
Qed.

(** ** Windows of the grid *)

Lemma elem_of_grid_cells (r c : nat) :
  (r, c) ∈ grid_cells ↔ r < ROW_COUNT ∧ c < COLUMN_COUNT.
Proof.
  unfold grid_cells. rewrite list_elem_of_bind. split.
  - intros (r' & Hin & Hr). apply list_elem_of_bind in Hin as (c' & Hin & Hc).
    apply list_elem_of_singleton in Hin. inversion Hin; subst.
    apply elem_of_seq in Hr, Hc. lia.
  - intros [Hr Hc]. exists r. split; [|apply elem_of_seq; lia].
    apply list_elem_of_bind. exists c. split; [|apply elem_of_seq; lia].
    by apply list_elem_of_singleton.
Qed.

Lemma fits_in_grid (a : axis) (r c : nat) :
  fits (a, (r, c)) = true → r < ROW_COUNT ∧ c < COLUMN_COUNT.
Proof.
  unfold fits, ROW_COUNT, COLUMN_COUNT.
  destruct a; rewrite ?andb_true_iff, ?Nat.ltb_lt, ?Nat.leb_le; lia.
Qed.

Lemma elem_of_all_windows (w : window) : w ∈ all_windows ↔ fits w = true.
Proof.
  unfold all_windows. rewrite list_elem_of_filter. split; [tauto|].
  intros Hfit. split; [done|]. destruct w as [a [r c]].
  apply list_elem_of_bind. exists a. split.
  - apply list_elem_of_bind. exists (r, c). split.
    + by apply list_elem_of_singleton.
    + apply elem_of_grid_cells. by eapply fits_in_grid.
  - destruct a; repeat constructor.
Qed.

Lemma filled_with_true (b : Board) (v : Z) (w : window) :
  filled_with b v w = true ↔
  ∀ i, i < 4 → cell b (window_cell w i).1 (window_cell w i).2 = v.
Proof.
  unfold filled_with, window_values, window_cells. simpl.
  rewrite !andb_true_iff, !Z.eqb_eq. split.
  - intros (H0 & H1 & H2 & H3 & _) i Hi.
    destruct i as [|[|[|[|]]]]; try lia; assumption.
  - intros H. repeat split; apply H; lia.
Qed.

Lemma has_four_true (b : Board) (v : Z) :
  has_four b v = true ↔ ∃ w, fits w = true ∧ filled_with b v w = true.
Proof.
  unfold has_four. rewrite existsb_exists. split.
  - intros (w & Hin & Hw). exists w. split; [|done].
    by apply elem_of_all_windows, list_elem_of_In.
  - intros (w & Hfit & Hw). exists w. split; [|done].
    by apply list_elem_of_In, elem_of_all_windows.
Qed.

(** ** What [check_win] looks at

    Horizontal windows are looked for in the row of the piece and vertical
    ones in its column; diagonal windows are looked for on the whole
    board. *)

Lemma check_win_true (b : Board) (r c : nat) :
  r < ROW_COUNT → c < COLUMN_COUNT →
  check_win b r c = true ↔
  ∃ w, fits w = true ∧ seen_from r c w ∧ filled_with b (cell b r c) w = true.
Proof.
  intros Hr Hc. unfold check_win. cbn zeta.
  rewrite !orb_true_iff, !existsb_seq. split.
  - intros [[[(c0 & Hc0 & H) | (r0 & Hr0 & H)] | (r0 & Hr0 & H)] | (r0 & Hr0 & H)].
    + exists (Horizontal, (r, c0)). rewrite all4_true in H.
      split; [|split; [done|]].
      * unfold fits, ROW_COUNT, COLUMN_COUNT in *.
        apply andb_true_iff. rewrite !Nat.ltb_lt. simpl in Hc0. lia.
      * apply filled_with_true. intros i Hi. simpl. apply Z.eqb_eq. by apply H.
    + exists (Vertical, (r0, c)). rewrite all4_true in H.
      split; [|split; [done|]].
      * unfold fits, ROW_COUNT, COLUMN_COUNT in *.
        apply andb_true_iff. rewrite !Nat.ltb_lt. simpl in Hr0. lia.
      * apply filled_with_true. intros i Hi. simpl. apply Z.eqb_eq. by apply H.
    + apply existsb_seq in H as (c0 & Hc0 & H).
      exists (DiagonalDownRight, (r0, c0)). rewrite all4_true in H.
      split; [|split; [done|]].
      * unfold fits, ROW_COUNT, COLUMN_COUNT in *.
        apply andb_true_iff. rewrite !Nat.ltb_lt. simpl in Hr0, Hc0. lia.
      * apply filled_with_true. intros i Hi. simpl. apply Z.eqb_eq. by apply H.
    + apply existsb_seq in H as (c0 & Hc0 & H).
      exists (DiagonalUpRight, (r0, c0)). rewrite all4_true in H.
      split; [|split; [done|]].
      * unfold fits, ROW_COUNT, COLUMN_COUNT in *.
        rewrite !andb_true_iff, !Nat.ltb_lt, Nat.leb_le. simpl in Hr0, Hc0. lia.
      * apply filled_with_true. intros i Hi. simpl. apply Z.eqb_eq. by apply H.
  - intros ([a [r0 c0]] & Hfit & Hseen & Hfill).
    rewrite filled_with_true in Hfill.
    unfold fits, ROW_COUNT, COLUMN_COUNT in Hfit. destruct a; simpl in Hseen.
    + subst r0. left; left; left. exists c0.
      apply andb_true_iff in Hfit as [_ Hfit]. apply Nat.ltb_lt in Hfit.
      split; [simpl; lia|]. apply all4_true. intros i Hi.
      apply Z.eqb_eq. apply (Hfill i Hi).
    + subst c0. left; left; right. exists r0.
      apply andb_true_iff in Hfit as [Hfit _]. apply Nat.ltb_lt in Hfit.
      split; [simpl; lia|]. apply all4_true. intros i Hi.
      apply Z.eqb_eq. apply (Hfill i Hi).
    + left; right. exists r0.
      apply andb_true_iff in Hfit as [Hf1 Hf2]. apply Nat.ltb_lt in Hf1, Hf2.
      split; [simpl; lia|]. apply existsb_seq. exists c0.
      split; [simpl; lia|]. apply all4_true. intros i Hi.
      apply Z.eqb_eq. apply (Hfill i Hi).
    + right. exists r0.
      rewrite !andb_true_iff, !Nat.ltb_lt, Nat.leb_le in Hfit.
      split; [simpl; lia|]. apply existsb_seq. exists c0.
      split; [simpl; lia|]. apply all4_true. intros i Hi.
      apply Z.eqb_eq. apply (Hfill i Hi).
Qed.

(** A run of four through the cell is always reported. *)
Lemma run_through_check_win (b : Board) (r c : nat) :
  r < ROW_COUNT → c < COLUMN_COUNT →
  run_through b r c = true → check_win b r c = true.
Proof.
  intros Hr Hc Hrun. apply check_win_true; [done..|].
  unfold run_through in Hrun. apply existsb_exists in Hrun as (w & Hin & Hw).
  apply andb_true_iff in Hw as [Hmem Hfill].
  apply bool_decide_eq_true in Hmem.
  exists w. split; [by apply elem_of_all_windows, list_elem_of_In|].
  split; [|done].
  unfold window_cells in Hmem. apply list_elem_of_In, in_map_iff in Hmem.
  destruct Hmem as (i & Heq & _).
  destruct w as [[] [r0 c0]]; simpl in *; try done; inversion Heq; lia.
Qed.

(** ** Reading well-formed boards *)

Lemma wf_board_shape (b : Board) :
  wf_board b ↔
  length b = ROW_COUNT ∧ ∀ cells, cells ∈ b → length cells = COLUMN_COUNT.
Proof.
  unfold wf_board, wf_boardb.
  rewrite andb_true_iff, Nat.eqb_eq, forallb_forall.
  split; intros [Hlen Hrows]; (split; [done|]); intros cells Hin.
  - apply Nat.eqb_eq, Hrows. by apply list_elem_of_In.
  - apply Nat.eqb_eq, Hrows. by apply list_elem_of_In.
Qed.

Lemma wf_board_lookup (b : Board) (r c : nat) :
  wf_board b → r < ROW_COUNT → c < COLUMN_COUNT →
  ∃ cells, b !! r = Some cells ∧ length cells = COLUMN_COUNT
           ∧ cells !! c = Some (cell b r c).
Proof.
  intros [Hlen Hrows]%wf_board_shape Hr Hc.
  destruct (lookup_lt_is_Some_2 b r) as [cells Hcells]; [lia|].
  assert (length cells = COLUMN_COUNT) as Hl
    by (apply Hrows; by eapply list_elem_of_lookup_2).
  destruct (lookup_lt_is_Some_2 cells c) as [x Hx]; [lia|].
  exists cells. repeat split; try done.
  unfold cell, getitem. rewrite Hcells. simpl. by rewrite Hx.
Qed.

(** On a board of the right shape every read of the grid succeeds, and
    [cell] is what it reads. *)
Lemma getitem_cell (b : Board) (r c : nat) :
  wf_board b → r < ROW_COUNT → c < COLUMN_COUNT →
  getitem b r c = Some (cell b r c).
Proof.
  intros Hwf Hr Hc.
  destruct (wf_board_lookup b r c Hwf Hr Hc) as (cells & Hcells & _ & Hx).
  unfold getitem. rewrite Hcells. simpl. done.
Qed.

Lemma board_full_grid (b : Board) :
  wf_board b → board_full b = grid_full b.
Proof.
  intros Hwf. apply eq_true_iff_eq. unfold board_full, grid_full.
  rewrite negb_true_iff, forallb_forall, <- not_true_iff_false, existsb_exists.
  split.
  - intros Hno [r c] Hin. simpl.
    apply list_elem_of_In, elem_of_grid_cells in Hin as [Hr Hc].
    destruct (wf_board_lookup b r c Hwf Hr Hc) as (cells & Hcells & _ & Hx).
    apply negb_true_iff, not_true_iff_false. intros Heq. apply Hno.
    exists cells. split; [eapply list_elem_of_In, list_elem_of_lookup_2; done|].
    apply existsb_exists. exists (cell b r c).
    split; [eapply list_elem_of_In, list_elem_of_lookup_2; done | done].
  - intros Hall (cells & Hin & Hex).
    apply existsb_exists in Hex as (x & Hx & Hzero).
    apply list_elem_of_In, list_elem_of_lookup_1 in Hin as [r Hr].
    apply list_elem_of_In, list_elem_of_lookup_1 in Hx as [c Hc].
    apply wf_board_shape in Hwf as [Hlen Hrows].
    assert (r < ROW_COUNT) by (rewrite <- Hlen; by eapply lookup_lt_Some).
    assert (c < COLUMN_COUNT).
    { rewrite <- (Hrows cells); [by eapply lookup_lt_Some|].
      by eapply list_elem_of_lookup_2. }
    assert (In (r, c) grid_cells) as Hgrid
      by by apply list_elem_of_In, elem_of_grid_cells.
    specialize (Hall (r, c) Hgrid). simpl in Hall.
    assert (cell b r c = x) as Hcell.
    { unfold cell, getitem. rewrite Hr. simpl. by rewrite Hc. }
    rewrite Hcell, Hzero in Hall. discriminate Hall.
Qed.

(** ** Terminal detection *)

Lemma window_cell_start (a : axis) (r c : nat) :
  window_cell (a, (r, c)) 0 = (r, c).
Proof. destruct a; simpl; f_equal; lia. Qed.

(** [check_any_win] finds exactly the windows of four of a side. *)
Lemma check_any_win_has_four (b : Board) (v : Z) :
  check_any_win b v = has_four b v.
Proof.
  apply eq_true_iff_eq. unfold check_any_win.
  rewrite has_four_true, existsb_seq. split.
  - intros (r & Hr & H). apply existsb_seq in H as (c & Hc & H).
    apply andb_true_iff in H as [Hv Hwin]. apply Z.eqb_eq in Hv.
    apply check_win_true in Hwin as (w & Hfit & _ & Hfill); [|lia..].
    exists w. by rewrite <- Hv.
  - intros ([a [r c]] & Hfit & Hfill).
    destruct (fits_in_grid a r c Hfit) as [Hr Hc].
    assert (cell b r c = v) as Hv.
    { rewrite filled_with_true in Hfill. specialize (Hfill 0).
      rewrite window_cell_start in Hfill. apply Hfill. lia. }
    exists r. split; [lia|]. apply existsb_seq. exists c. split; [lia|].
    apply andb_true_iff. split; [by apply Z.eqb_eq|].
    apply check_win_true; [done..|]. exists (a, (r, c)).
    rewrite Hv. repeat split; try done. by destruct a.
Qed.

(** The outcome [is_terminal] reports, by cases on the board. *)
Lemma is_terminal_cases (b : Board) :
  wf_board b →
  is_terminal b =
    if has_four b PLAYER then (true, Some PLAYER)
    else if has_four b COMPUTER then (true, Some COMPUTER)
    else if grid_full b then (true, None)
    else (false, None).
Proof.
  intros Hwf. unfold is_terminal.
  by rewrite !check_any_win_has_four, board_full_grid.
Qed.

(** C1 (the code departs from the claim): on [distant_diagonal_board] the
    cell (0,6) holds a PLAYER piece that lies on no run of four, yet
    [check_win] answers true there, because its diagonal loops never look at
    the cell they were given. *)
Theorem check_win_distant_diagonal :
  wf_board distant_diagonal_board ∧
  cell distant_diagonal_board 0 6 = PLAYER ∧
  run_through distant_diagonal_board 0 6 = false ∧
  check_win distant_diagonal_board 0 6 = true.
Proof. repeat split; vm_compute; reflexivity. Qed.

(** C2, as the claim states it, fails on [double_win_board]: COMPUTER has
    four in a row there, and [is_terminal] reports PLAYER. *)
Lemma is_terminal_double_win :
  wf_board double_win_board ∧
  has_four double_win_board COMPUTER = true ∧
  is_terminal double_win_board = (true, Some PLAYER) ∧
  ¬ (is_terminal double_win_board = (true, Some COMPUTER)
     ↔ has_four double_win_board COMPUTER = true).
Proof.
  assert (is_terminal double_win_board = (true, Some PLAYER)) as Hterm
    by (vm_compute; reflexivity).
  assert (has_four double_win_board COMPUTER = true) as Hfour
    by (vm_compute; reflexivity).
  repeat split; try done.
  intros [_ H]. specialize (H Hfour). rewrite Hterm in H. discriminate H.
Qed.

(** C2 (amended): [is_terminal] reports a PLAYER win iff PLAYER has a window
    of four; a COMPUTER win iff COMPUTER has one and PLAYER has none; a draw
    iff the grid is full and neither side has one; and a running game
    otherwise. *)
Theorem is_terminal_outcomes (b : Board) :
  wf_board b →
  (is_terminal b = (true, Some PLAYER) ↔ has_four b PLAYER = true) ∧
  (is_terminal b = (true, Some COMPUTER) ↔
     has_four b COMPUTER = true ∧ has_four b PLAYER = false) ∧
  (is_terminal b = (true, None) ↔
     grid_full b = true ∧ has_four b PLAYER = false
     ∧ has_four b COMPUTER = false) ∧
  (is_terminal b = (false, None) ↔
     grid_full b = false ∧ has_four b PLAYER = false
     ∧ has_four b COMPUTER = false).
Proof.
  intros Hwf. rewrite (is_terminal_cases b Hwf).
  destruct (has_four b PLAYER), (has_four b COMPUTER), (grid_full b);
    repeat split; try done; intros H; try discriminate H;
    destruct H as (? & ?); try discriminate; destruct_and?; discriminate.
Qed.

Lemma is_terminal_outcomes_witness :
  wf_board double_win_board ∧
  (is_terminal double_win_board = (true, Some PLAYER)
   ↔ has_four double_win_board PLAYER = true).
Proof.
  split; [reflexivity|].
  apply (is_terminal_outcomes double_win_board). reflexivity.
Defined.

(** ** Landing rows *)

Lemma find_seq_Some (p : nat → bool) (a n r : nat) :
  find p (seq a n) = Some r ↔
  a ≤ r < a + n ∧ p r = true ∧ ∀ r', a ≤ r' < r → p r' = false.
Proof.
  revert a. induction n as [|n IH]; intros a; simpl.
  - split; [done | lia].
  - destruct (p a) eqn:Hp.
    + split.
      * intros [= <-]. repeat split; [lia..|done|lia].
      * intros (Hr & Hpr & Hlow). f_equal.
        destruct (decide (a = r)) as [|Hne]; [done|].
        rewrite Hlow in Hp; [done | lia].
    + rewrite IH. split.
      * intros (Hr & Hpr & Hlow). repeat split; [lia..|done|].
        intros r' Hr'. destruct (decide (r' = a)) as [->|]; [done|].
        apply Hlow. lia.
      * intros (Hr & Hpr & Hlow).
        assert (a ≠ r) by (intros ->; congruence).
        repeat split; [lia..|done|]. intros r' Hr'. apply Hlow. lia.
Qed.

Lemma find_seq_None (p : nat → bool) (a n : nat) :
  find p (seq a n) = None ↔ ∀ r, a ≤ r < a + n → p r = false.
Proof.
  split.
  - intros H r Hr. apply (find_none _ _ H), in_seq. lia.
  - intros H. destruct (find p (seq a n)) as [r|] eqn:Hfind; [|done].
    apply find_seq_Some in Hfind as (Hr & Hp & _). rewrite H in Hp; [done|lia].
Qed.

(** [check_available_row] answers the lowest empty row of a column of the
    grid. *)
Lemma check_available_row_Some (b : Board) (column : Z) (r : nat) :
  check_available_row b column = Some r ↔
  (0 ≤ column < Z.of_nat COLUMN_COUNT)%Z ∧ lowest_empty b (Z.to_nat column) r.
Proof.
  unfold check_available_row, lowest_empty.
  destruct (column <? 0)%Z eqn:Hneg; cbn [orb].
  { apply Z.ltb_lt in Hneg. split; [done | lia]. }
  destruct (column >=? Z.of_nat COLUMN_COUNT)%Z eqn:Hbig; cbn [orb].
  { rewrite Z.geb_le in Hbig. split; [done | lia]. }
  apply Z.ltb_ge in Hneg. rewrite Z.geb_leb in Hbig. apply Z.leb_gt in Hbig.
  rewrite find_seq_Some. split.
  - intros (Hr & Hp & Hlow). apply Z.eqb_eq in Hp.
    repeat split; [lia..|done|]. intros r' Hr'.
    apply Z.eqb_neq, Hlow. lia.
  - intros (_ & Hr & Hp & Hlow). repeat split; [lia..| by apply Z.eqb_eq |].
    intros r' Hr'. apply Z.eqb_neq, Hlow. lia.
Qed.

Lemma check_available_row_None (b : Board) (column : Z) :
  check_available_row b column = None ↔
  (column < 0)%Z ∨ (Z.of_nat COLUMN_COUNT ≤ column)%Z ∨
  ∀ r, r < ROW_COUNT → cell b r (Z.to_nat column) ≠ EMPTY.
Proof.
  unfold check_available_row.
  destruct (column <? 0)%Z eqn:Hneg; cbn [orb].
  { apply Z.ltb_lt in Hneg. tauto. }
  destruct (column >=? Z.of_nat COLUMN_COUNT)%Z eqn:Hbig; cbn [orb].
  { rewrite Z.geb_le in Hbig. tauto. }
  apply Z.ltb_ge in Hneg. rewrite Z.geb_leb in Hbig. apply Z.leb_gt in Hbig.
  rewrite find_seq_None. split.
  - intros H. right; right. intros r Hr. apply Z.eqb_neq, H. lia.
  - intros [?|[?|H]]; [lia..|]. intros r Hr. apply Z.eqb_neq, H. lia.
Qed.

(** ** Writing a cell *)

Lemma np_index_in_range (n : nat) (i : Z) :
  (0 ≤ i < Z.of_nat n)%Z → np_index n i = Some (Z.to_nat i).
Proof.
  intros Hi. unfold np_index.
  destruct (Z.leb_spec 0 i), (Z.ltb_spec i (Z.of_nat n)); simpl; done || lia.
Qed.

Lemma setitem_Some (b : Board) (r : nat) (column v : Z) :
  wf_board b → r < ROW_COUNT → (0 ≤ column < Z.of_nat COLUMN_COUNT)%Z →
  ∃ b', setitem b r column v = Some b' ∧ wf_board b' ∧
    ∀ r' c', cell b' r' c' =
             if decide (r' = r ∧ c' = Z.to_nat column) then v else cell b r' c'.
Proof.
  intros Hwf Hr Hc.
  destruct (wf_board_lookup b r (Z.to_nat column) Hwf Hr) as (cells & Hcells & Hlen & _);
    [lia|].
  exists (<[r := <[Z.to_nat column := v]> cells]> b). split; [|split].
  - unfold setitem. rewrite Hcells. simpl.
    rewrite np_index_in_range by (rewrite Hlen; lia). done.
  - apply wf_board_shape in Hwf as [Hrows Hall]. apply wf_board_shape.
    split; [by rewrite length_insert|]. intros cells' Hin.
    apply list_elem_of_lookup_1 in Hin as [j Hj].
    apply list_lookup_insert_Some in Hj as [(_ & <- & _) | (_ & Hj)].
    + by rewrite length_insert.
    + apply Hall. by eapply list_elem_of_lookup_2.
  - intros r' c'. unfold cell, getitem.
    destruct (decide (r' = r)) as [->|Hne].
    + rewrite list_lookup_insert_eq by (by eapply lookup_lt_Some).
      rewrite Hcells. simpl.
      destruct (decide (c' = Z.to_nat column)) as [->|Hne].
      * rewrite list_lookup_insert_eq by (rewrite Hlen; lia).
        rewrite decide_True; done.
      * rewrite list_lookup_insert_ne by done.
        rewrite decide_False; [done | tauto].
    + rewrite list_lookup_insert_ne by done.
      rewrite decide_False; [done | tauto].
Qed.

(** ** Accepted and rejected drops *)

Lemma attempt_drop_rejected (w : world) (board : loc) (b : Board)
    (col player : Z) :
  heap w !! board = Some b → check_available_row b col = None →
  attempt_drop board col player w = Ok false w.
Proof.
  intros Hb Hrow.
  unfold attempt_drop, deref, mbind, M_bind. by rewrite Hb, Hrow.
Qed.

Lemma attempt_drop_accepted (w : world) (board : loc) (b : Board)
    (col player : Z) (r : nat) :
  heap w !! board = Some b → wf_board b →
  check_available_row b col = Some r →
  ∃ b', setitem b r col player = Some b' ∧
    attempt_drop board col player w =
      Ok true {| heap := <[board := b']> (heap w); draws := draws w |}.
Proof.
  intros Hb Hwf Hrow.
  pose proof Hrow as Hlow. apply check_available_row_Some in Hlow as [Hc [Hr _]].
  destruct (setitem_Some b r col player Hwf Hr Hc) as (b' & Hset & _).
  exists b'. split; [done|].
  unfold attempt_drop, place_piece, deref, store, mbind, M_bind, mret, M_ret.
  rewrite Hb, Hrow, Hb, Hset.
  apply lookup_lt_Some in Hb. apply Nat.ltb_lt in Hb. by rewrite Hb.
Qed.

(** C9: a column choice that is out of range or names a full column is
    rejected without an exception: [check_available_row] answers [None],
    [place_piece] answers [False], and the board and everything else in the
    store stay as they were. *)
Theorem rejected_drop_is_noop (w : world) (board : loc) (b : Board)
    (col player : Z) :
  heap w !! board = Some b →
  ((col < 0)%Z ∨ (Z.of_nat COLUMN_COUNT ≤ col)%Z ∨
   ∀ r, r < ROW_COUNT → cell b r (Z.to_nat col) ≠ EMPTY) →
  check_available_row b col = None ∧
  place_piece board col (check_available_row b col) player w = Ok false w ∧
  attempt_drop board col player w = Ok false w.
Proof.
  intros Hb Hbad. apply check_available_row_None in Hbad.
  split; [done|]. split; [by rewrite Hbad|].
  by eapply attempt_drop_rejected.
Qed.

Lemma rejected_drop_is_noop_witness :
  attempt_drop 0 0 PLAYER (World [full_column_board] 0)
  = Ok false (World [full_column_board] 0)
  ∧ attempt_drop 0 (-1) PLAYER (World [full_column_board] 0)
  = Ok false (World [full_column_board] 0).
Proof.
  split.
  - apply (rejected_drop_is_noop (World [full_column_board] 0) 0
             full_column_board 0 PLAYER); [reflexivity|].
    right; right. intros r Hr.
    destruct r as [|[|[|[|[|[|r]]]]]]; vm_compute; [discriminate..|].
    vm_compute in Hr. lia.
  - apply (rejected_drop_is_noop (World [full_column_board] 0) 0
             full_column_board (-1) PLAYER); [reflexivity|].
    left. lia.
Defined.

(** ** Gravity *)

Lemma wf_create_board : wf_board create_board.
Proof. reflexivity. Qed.

Lemma cell_create_board (r c : nat) : cell create_board r c = EMPTY.
Proof.
  unfold cell, getitem, create_board.
  destruct (decide (r < ROW_COUNT)) as [Hr|Hr].
  - rewrite lookup_replicate_2 by done. cbn [mbind option_bind].
    destruct (decide (c < COLUMN_COUNT)) as [Hc|Hc].
    + by rewrite lookup_replicate_2.
    + by rewrite (proj1 (lookup_replicate_None _ _ _)) by lia.
  - by rewrite (proj1 (lookup_replicate_None _ _ _)) by lia.
Qed.

Lemma no_floating_create_board : no_floating create_board.
Proof. intros r c _ _ H. by rewrite cell_create_board in H. Qed.

Lemma drop_keeps_no_floating (b b' : Board) (c r : nat) (v : Z) :
  no_floating b → lowest_empty b c r →
  (∀ r' c', cell b' r' c' = if decide (r' = r ∧ c' = c) then v else cell b r' c') →
  no_floating b'.
Proof.
  intros Hgrav (Hr & Hempty & Hbelow) Hcells r1 c1 Hr1 Hc1.
  rewrite !Hcells.
  destruct (decide (r1 + 1 = r ∧ c1 = c)) as [[<- ->]|Hne1].
  - intros _. rewrite decide_False by lia. apply Hbelow. lia.
  - destruct (decide (r1 = r ∧ c1 = c)) as [[-> ->]|Hne2].
    + intros Habove. exfalso. by apply (Hgrav r c Hr1 Hc1).
    + by apply Hgrav.
Qed.

Lemma attempt_drop_step (b : Board) (col player : Z) (n : nat) :
  wf_board b → no_floating b →
  ∃ b' accepted,
    attempt_drop 0 col player (World [b] n) = Ok accepted (World [b'] n) ∧
    wf_board b' ∧ no_floating b' ∧ drop_effect b b' col player accepted.
Proof.
  intros Hwf Hgrav.
  destruct (check_available_row b col) as [r|] eqn:Hrow.
  - destruct (attempt_drop_accepted (World [b] n) 0 b col player r)
      as (b' & Hset & Hrun); [done..|].
    pose proof Hrow as Hlow.
    apply check_available_row_Some in Hlow as [Hc Hlow].
    destruct (setitem_Some b r col player Hwf (proj1 Hlow) Hc)
      as (b'' & Hset' & Hwf' & Hcells).
    rewrite Hset in Hset'. injection Hset' as <-.
    exists b', true. repeat split; try done.
    + by eapply drop_keeps_no_floating.
    + exists r. done.
  - exists b, false. repeat split; try done.
    by apply (attempt_drop_rejected (World [b] n) 0 b).
Qed.

Lemma play_run (moves : list (Z * Z)) (b : Board) (n : nat) :
  wf_board b → no_floating b →
  ∃ b', play 0 moves (World [b] n) = Ok () (World [b'] n) ∧
        wf_board b' ∧ no_floating b'.
Proof.
  revert b. induction moves as [|[col player] moves IH]; intros b Hwf Hgrav.
  - by exists b.
  - destruct (attempt_drop_step b col player n Hwf Hgrav)
      as (b1 & acc & Hrun & Hwf1 & Hgrav1 & _).
    destruct (IH b1 Hwf1 Hgrav1) as (b' & Hplay & Hwf' & Hgrav').
    exists b'. repeat split; try done.
    simpl. unfold mbind, M_bind. by rewrite Hrun.
Qed.

Lemma play_app (board : loc) (moves moves' : list (Z * Z)) (w : world) :
  play board (moves ++ moves') w
  = match play board moves w with
    | Ok _ w' => play board moves' w'
    | Raise e => Raise e
    end.
Proof.
  revert w. induction moves as [|[col player] moves IH]; intros w; [done|].
  cbn [app play]. unfold mbind, M_bind.
  destruct (attempt_drop board col player w) as [acc w1|e]; [apply IH | done].
Qed.

(** A drop is accepted exactly when its column is in range and has an empty
    cell. *)
Lemma attempt_drop_legal (b b' : Board) (col player : Z) (n : nat)
    (accepted : bool) :
  wf_board b →
  attempt_drop 0 col player (World [b] n) = Ok accepted (World [b'] n) →
  accepted = true ↔
  (0 ≤ col < Z.of_nat COLUMN_COUNT)%Z ∧
  ∃ r, r < ROW_COUNT ∧ cell b r (Z.to_nat col) = EMPTY.
Proof.
  intros Hwf Hrun.
  destruct (check_available_row b col) as [r|] eqn:Hrow.
  - destruct (attempt_drop_accepted (World [b] n) 0 b col player r)
      as (b1 & _ & Hrun1); [done..|].
    rewrite Hrun1 in Hrun. injection Hrun as <- _.
    apply check_available_row_Some in Hrow as [Hc (Hr & Hempty & _)].
    split; [|done]. intros _. split; [done|]. by exists r.
  - rewrite (attempt_drop_rejected (World [b] n) 0 b col player) in Hrun
      by done.
    injection Hrun as <- _. split; [done|]. intros (Hc & r & Hr & Hempty).
    apply check_available_row_None in Hrow as [?|[?|Hfull]]; [lia..|].
    by destruct (Hfull r Hr).
Qed.

(** C7: after any sequence of attempted drops on an empty board no piece
    floats.  One more drop, the last of the longer sequence, is accepted
    exactly when its column is in range and has an empty cell; an accepted
    drop puts its piece in the lowest empty row of its column and changes no
    other cell, a rejected one changes nothing, and either way no piece
    floats. *)
Theorem drops_obey_gravity (moves : list (Z * Z)) (col player : Z) (n : nat) :
  ∃ b b' accepted,
    play 0 moves (World [create_board] n) = Ok () (World [b] n) ∧
    attempt_drop 0 col player (World [b] n) = Ok accepted (World [b'] n) ∧
    play 0 (moves ++ [(col, player)]) (World [create_board] n)
    = Ok () (World [b'] n) ∧
    no_floating b ∧ no_floating b' ∧
    (accepted = true ↔
     (0 ≤ col < Z.of_nat COLUMN_COUNT)%Z ∧
     ∃ r, r < ROW_COUNT ∧ cell b r (Z.to_nat col) = EMPTY) ∧
    drop_effect b b' col player accepted.
Proof.
  destruct (play_run moves create_board n wf_create_board no_floating_create_board)
    as (b & Hplay & Hwf & Hgrav).
  destruct (attempt_drop_step b col player n Hwf Hgrav)
    as (b' & acc & Hrun & _ & Hgrav' & Heffect).
  exists b, b', acc. split; [done|]. split; [done|].
  split.
  { rewrite play_app, Hplay. cbn [play]. unfold mbind, M_bind. by rewrite Hrun. }
  split; [done|]. split; [done|].
  split; [by eapply attempt_drop_legal | done].
Qed.

Lemma drops_obey_gravity_witness :
  ∃ b b',
    play 0 [(3, PLAYER)]%Z (World [create_board] 0) = Ok () (World [b] 0) ∧
    attempt_drop 0 3 COMPUTER (World [b] 0) = Ok true (World [b'] 0) ∧
    cell b 0 3 = PLAYER ∧ cell b 1 3 = EMPTY ∧
    cell b' 0 3 = PLAYER ∧ cell b' 1 3 = COMPUTER ∧
    no_floating b'.
Proof.
  destruct (drops_obey_gravity [(3, PLAYER)]%Z 3 COMPUTER 0)
    as (b & b' & accepted & Hplay & Hrun & _ & _ & Hgrav' & Hacc & Heffect).
  exists b, b'. split; [exact Hplay|].
  vm_compute in Hplay. injection Hplay as <-.
  assert (accepted = true) as ->.
  { apply Hacc. split; [done|]. exists 1. split; [unfold ROW_COUNT; lia | done]. }
  split; [exact Hrun|].
  vm_compute in Hrun. injection Hrun as <-.
  repeat split; try reflexivity. exact Hgrav'.
Defined.

(** ** The heuristic *)

Lemma count_cons (a : Z) (l : list Z) (x : Z) :
  count (a :: l) x = (if decide (a = x) then 1 else 0) + count l x.
Proof. unfold count. rewrite filter_cons. by destruct (decide (a = x)). Qed.

Lemma count_three (l : list Z) (x y z : Z) :
  x ≠ y → x ≠ z → y ≠ z → count l x + count l y + count l z ≤ length l.
Proof.
  intros Hxy Hxz Hyz. induction l as [|a l IH]; [done|].
  rewrite !count_cons. simpl.
  destruct (decide (a = x)), (decide (a = y)), (decide (a = z));
    subst; try done; lia.
Qed.

(** On four cells the two chains of [peek_score] never both fire: it is the
    table of the specification. *)
Lemma peek_score_window_score (values : list Z) (side : Z) :
  length values = 4 → side = PLAYER ∨ side = COMPUTER →
  peek_score values side = window_score values side.
Proof.
  intros Hlen Hside.
  assert (count values side + count values (opponent_of side)
          + count values EMPTY ≤ 4) as Hsum.
  { rewrite <- Hlen. by destruct Hside as [-> | ->]; apply count_three. }
  unfold peek_score, window_score.
  assert ((if (side =? COMPUTER)%Z then PLAYER else COMPUTER) = opponent_of side)
    as -> by by destruct Hside as [-> | ->].
  generalize dependent (count values side). intros own.
  generalize dependent (count values (opponent_of side)). intros theirs.
  generalize dependent (count values EMPTY). intros free Hsum.
  destruct own as [|[|[|[|[|own]]]]]; [..|lia];
    destruct theirs as [|[|[|[|[|theirs]]]]]; try lia;
    destruct free as [|[|[|[|[|free]]]]]; try lia; reflexivity.
Qed.

Lemma for_each_add {A} (l : list A) (f : A → Z) (s : Z) :
  for_each l (λ x score, (score + f x)%Z) s = (s + sumZ (map f l))%Z.
Proof.
  unfold for_each. revert s. induction l as [|x l IH]; intros s; simpl.
  - lia.
  - rewrite IH. unfold sumZ. lia.
Qed.

Lemma for_each_ext {A} (l : list A) (body1 body2 : A → Z → Z) (s : Z) :
  (∀ x s', In x l → body1 x s' = body2 x s') →
  for_each l body1 s = for_each l body2 s.
Proof.
  unfold for_each. revert s. induction l as [|x l IH]; intros s H; simpl; [done|].
  rewrite H by (by left). apply IH. intros y s' Hy. apply H. by right.
Qed.

Lemma sumZ_app (l1 l2 : list Z) : sumZ (l1 ++ l2) = (sumZ l1 + sumZ l2)%Z.
Proof. unfold sumZ. induction l1 as [|x l1 IH]; simpl; lia. Qed.

Lemma sumZ_flat_map {A B} (g : B → Z) (h : A → list B) (l : list A) :
  sumZ (map (λ x, sumZ (map g (h x))) l) = sumZ (map g (flat_map h l)).
Proof.
  induction l as [|x l IH]; simpl; [done|].
  rewrite map_app, sumZ_app. unfold sumZ in *. simpl. lia.
Qed.

Lemma sumZ_Permutation {A} (g : A → Z) (l1 l2 : list A) :
  l1 ≡ₚ l2 → sumZ (map g l1) = sumZ (map g l2).
Proof. unfold sumZ. induction 1; simpl; lia. Qed.

(** A loop over [l1] around a loop over [l2] sums over the windows the two
    indices name. *)
Lemma nested_loops_sum {A B} (l1 : list A) (l2 : list B)
    (body : A → B → Z) (mk : A → B → window) (g : window → Z) (s : Z) :
  (∀ x y, In x l1 → In y l2 → body x y = g (mk x y)) →
  for_each l1 (λ x score,
    for_each l2 (λ y score, (score + body x y)%Z) score) s
  = (s + sumZ (map g (flat_map (λ x, map (mk x) l2) l1)))%Z.
Proof.
  intros Hbody.
  rewrite (for_each_ext l1 _ (λ x score, (score + sumZ (map g (map (mk x) l2)))%Z)).
  - by rewrite for_each_add, (sumZ_flat_map g (λ x, map (mk x) l2)).
  - intros x s' Hx. rewrite for_each_add. f_equal. rewrite map_map.
    f_equal. apply map_ext_in. intros y Hy. by apply Hbody.
Qed.

Lemma scanned_windows_all : scanned_windows ≡ₚ all_windows.
Proof.
  assert (bool_decide (scanned_windows ≡ₚ all_windows) = true) as H
    by (vm_compute; reflexivity).
  by apply bool_decide_eq_true in H.
Qed.

(** The heuristic stays far inside the range where an integer converts to a
    float without rounding. *)
Lemma peek_score_bounds (values : list Z) (side : Z) :
  (-120 ≤ peek_score values side ≤ 100000)%Z.
Proof. unfold peek_score. repeat case_match; lia. Qed.

Lemma for_each_bounds {A} (l : list A) (body : A → Z → Z) (lo hi s : Z) :
  (∀ x s', In x l → lo ≤ body x s' - s' ≤ hi)%Z →
  (Z.of_nat (length l) * lo ≤ for_each l body s - s
   ≤ Z.of_nat (length l) * hi)%Z.
Proof.
  unfold for_each. revert s. induction l as [|x l IH]; intros s Hbody.
  - simpl. lia.
  - cbn [fold_left length].
    specialize (IH (body x s) (λ y s' Hy, Hbody y s' (or_intror Hy))).
    specialize (Hbody x s (or_introl eq_refl)). lia.
Qed.

Lemma count_le_length (l : list Z) (x : Z) : count l x ≤ length l.
Proof. unfold count. apply length_filter. Qed.

Lemma position_score_float_exact (b : Board) (side : Z) :
  wf_board b → (- 2 ^ 53 < position_score b side < 2 ^ 53)%Z.
Proof.
  intros [Hlen _]%wf_board_shape. unfold position_score. cbn zeta.
  pose proof (count_le_length (column_of b (COLUMN_COUNT / 2)) side) as Hcount.
  unfold column_of in Hcount at 2. rewrite length_fmap, Hlen in Hcount.
  unfold ROW_COUNT in Hcount.
  set (s0 := (0 + 10 * Z.of_nat (count (column_of b (COLUMN_COUNT / 2)) side))%Z).
  assert (∀ (l1 l2 : list nat) (f : nat → nat → list Z) s,
            (Z.of_nat (length l1) * (Z.of_nat (length l2) * -120)
             ≤ for_each l1 (λ x score,
                 for_each l2 (λ y score,
                   (score + peek_score (f x y) side)%Z) score) s - s
             ≤ Z.of_nat (length l1) * (Z.of_nat (length l2) * 100000))%Z)
    as Hloops.
  { intros l1 l2 f s. apply for_each_bounds. intros x s' _.
    apply for_each_bounds. intros y s'' _.
    pose proof (peek_score_bounds (f x y) side). lia. }
  pose proof (Hloops (seq 0 ROW_COUNT) (seq 0 (COLUMN_COUNT - 3))
                (λ r c, slice (row_of b r) c (c + 4)) s0) as H1.
  set (s1 := for_each (seq 0 ROW_COUNT) _ s0) in *.
  pose proof (Hloops (seq 0 COLUMN_COUNT) (seq 0 (ROW_COUNT - 3))
                (λ c r, slice (column_of b c) r (r + 4)) s1) as H2.
  set (s2 := for_each (seq 0 COLUMN_COUNT) _ s1) in *.
  pose proof (Hloops (seq 0 (ROW_COUNT - 3)) (seq 0 (COLUMN_COUNT - 3))
                (λ r c, map (λ i, cell b (r + i) (c + i)) (seq 0 4)) s2) as H3.
  set (s3 := for_each (seq 0 (ROW_COUNT - 3)) _ s2) in *.
  pose proof (Hloops (seq 0 (ROW_COUNT - 3)) (seq 0 (COLUMN_COUNT - 3))
                (λ r c, map (λ i, cell b (r + 3 - i) (c + i)) (seq 0 4)) s3) as H4.
  rewrite !length_seq in *.
  change (Z.of_nat ROW_COUNT) with 6%Z in *.
  change (Z.of_nat COLUMN_COUNT) with 7%Z in *.
  change (Z.of_nat (ROW_COUNT - 3)) with 3%Z in *.
  change (Z.of_nat (COLUMN_COUNT - 3)) with 4%Z in *.
  change (2 ^ 53)%Z with 9007199254740992%Z.
  subst s0. lia.
Qed.

Lemma slice_four (l : list Z) (i : nat) :
  i + 4 ≤ length l →
  slice l i (i + 4) = map (λ k, default EMPTY (l !! (i + k))) (seq 0 4).
Proof.
  intros Hlen. unfold slice. replace (i + 4 - i) with 4 by lia.
  assert (∀ k, l !! (i + k) = drop i l !! k) as Hk
    by (intros; by rewrite lookup_drop).
  pose proof (length_drop l i) as Hd.
  destruct (drop i l) as [|a0 [|a1 [|a2 [|a3 rest]]]]; simpl in Hd; try lia.
  simpl. by rewrite !Hk.
Qed.

Lemma length_window_values (b : Board) (w : window) :
  length (window_values b w) = 4.
Proof. reflexivity. Qed.

Lemma horizontal_window (b : Board) (r c : nat) :
  wf_board b → r < ROW_COUNT → c + 3 < COLUMN_COUNT →
  slice (row_of b r) c (c + 4) = window_values b (Horizontal, (r, c)).
Proof.
  intros Hwf Hr Hc.
  destruct (wf_board_lookup b r c Hwf Hr) as (cells & Hcells & Hlen & _); [lia|].
  unfold row_of. rewrite Hcells. cbn [from_option id].
  rewrite slice_four by (rewrite Hlen; unfold COLUMN_COUNT in *; lia).
  unfold window_values, window_cells, cell, getitem. simpl.
  by rewrite Hcells.
Qed.

Lemma vertical_window (b : Board) (r c : nat) :
  wf_board b → r + 3 < ROW_COUNT →
  slice (column_of b c) r (r + 4) = window_values b (Vertical, (r, c)).
Proof.
  intros [Hlen _]%wf_board_shape Hr.
  rewrite slice_four
    by (unfold column_of; rewrite length_fmap, Hlen; unfold ROW_COUNT in *; lia).
  unfold window_values, window_cells, cell, getitem, column_of. simpl.
  rewrite !list_lookup_fmap.
  by destruct (b !! (r + 0)), (b !! (r + 1)), (b !! (r + 2)), (b !! (r + 3)).
Qed.

Lemma center_column (b : Board) :
  wf_board b →
  column_of b (COLUMN_COUNT / 2)
  = map (λ r, cell b r middle_column) (seq 0 ROW_COUNT).
Proof.
  intros [Hlen _]%wf_board_shape.
  destruct b as [|r0 [|r1 [|r2 [|r3 [|r4 [|r5 [|]]]]]]]; try discriminate Hlen.
  reflexivity.
Qed.

(** C6: the heuristic score of a board for a side is ten times the number
    of that side's pieces in the middle column plus, over every window of
    four cells of the grid along the four axes, +100000 for four own pieces,
    +100 for three own and one empty, +10 for two own and two empty, -120 for
    three of the opponent and one empty, -15 for two of the opponent and two
    empty, and 0 for any other window. *)
Theorem position_score_heuristic (b : Board) (side : Z) :
  wf_board b → side = PLAYER ∨ side = COMPUTER →
  position_score b side = heuristic b side.
Proof.
  intros Hwf Hside. unfold position_score, heuristic. cbn zeta.
  set (g := λ w, window_score (window_values b w) side).
  rewrite (nested_loops_sum (seq 0 ROW_COUNT) (seq 0 (COLUMN_COUNT - 3))
             (λ r c, peek_score (slice (row_of b r) c (c + 4)) side)
             (λ r c, (Horizontal, (r, c))) g).
  2:{ intros r c Hr%in_seq Hc%in_seq. simpl in Hc.
      rewrite horizontal_window by (done || unfold COLUMN_COUNT; lia).
      by apply peek_score_window_score. }
  rewrite (nested_loops_sum (seq 0 COLUMN_COUNT) (seq 0 (ROW_COUNT - 3))
             (λ c r, peek_score (slice (column_of b c) r (r + 4)) side)
             (λ c r, (Vertical, (r, c))) g).
  2:{ intros c r Hc%in_seq Hr%in_seq. simpl in Hr.
      rewrite vertical_window by (done || unfold ROW_COUNT; lia).
      by apply peek_score_window_score. }
  rewrite (nested_loops_sum (seq 0 (ROW_COUNT - 3)) (seq 0 (COLUMN_COUNT - 3))
             (λ r c, peek_score (map (λ i, cell b (r + i) (c + i)) (seq 0 4)) side)
             (λ r c, (DiagonalDownRight, (r, c))) g).
  2:{ intros r c _ _.
      by apply (peek_score_window_score (window_values b (DiagonalDownRight, (r, c)))). }
  rewrite (nested_loops_sum (seq 0 (ROW_COUNT - 3)) (seq 0 (COLUMN_COUNT - 3))
             (λ r c, peek_score (map (λ i, cell b (r + 3 - i) (c + i)) (seq 0 4)) side)
             (λ r c, (DiagonalUpRight, (r + 3, c))) g).
  2:{ intros r c _ _.
      by apply (peek_score_window_score (window_values b (DiagonalUpRight, (r + 3, c)))). }
  rewrite <- (sumZ_Permutation g _ _ scanned_windows_all).
  unfold scanned_windows. rewrite !map_app, !sumZ_app.
  rewrite (center_column b Hwf), Z.add_0_l, <- !Z.add_assoc. reflexivity.
Qed.

Lemma position_score_heuristic_witness :
  position_score distant_diagonal_board COMPUTER
  = heuristic distant_diagonal_board COMPUTER.
Proof.
  apply (position_score_heuristic distant_diagonal_board COMPUTER).
  - reflexivity.
  - right. reflexivity.
Defined.

(** ** The order on scores *)

(** Decides facts about the order on scores whose scores are variables. *)
Ltac score_solve :=
  intros;
  unfold within, score_leb, score_max, score_min in *;
  repeat match goal with s : Score |- _ => destruct s end;
  unfold slt, sle, score_ltb in *;
  intros;
  repeat (case_match; simplify_eq/=);
  repeat match goal with
    | H : (_ <? _)%Z = true |- _ => apply Z.ltb_lt in H
    | H : (_ <? _)%Z = false |- _ => apply Z.ltb_ge in H
    end;
  try discriminate; try lia; try (f_equal; lia); try tauto.

Lemma score_ltb_slt (a b : Score) : score_ltb a b = true ↔ slt a b.
Proof.
  destruct a, b; simpl; try tauto; try (split; [discriminate | done]).
  apply Z.ltb_lt.
Qed.

Lemma score_ltb_sle (a b : Score) : score_ltb a b = false ↔ sle b a.
Proof.
  destruct a, b; simpl; try tauto; try (split; [discriminate | done]).
  apply Z.ltb_ge.
Qed.

Lemma score_leb_slt (a b : Score) : score_leb a b = false ↔ slt b a.
Proof. unfold score_leb. rewrite negb_false_iff. apply score_ltb_slt. Qed.

Lemma score_leb_sle (a b : Score) : score_leb a b = true ↔ sle a b.
Proof. unfold score_leb. rewrite negb_true_iff. apply score_ltb_sle. Qed.

Lemma sle_refl (a : Score) : sle a a.
Proof. score_solve. Qed.

Lemma sle_trans (a b c : Score) : sle a b → sle b c → sle a c.
Proof. score_solve. Qed.

Lemma sle_antisym (a b : Score) : sle a b → sle b a → a = b.
Proof. score_solve. Qed.

Lemma sle_PosInf (a : Score) : sle PosInf a → a = PosInf.
Proof. score_solve. Qed.

Lemma sle_NegInf (a : Score) : sle a NegInf → a = NegInf.
Proof. score_solve. Qed.

Lemma score_max_assoc (a b c : Score) :
  score_max a (score_max b c) = score_max (score_max a b) c.
Proof. score_solve. Qed.

Lemma score_max_comm (a b : Score) : score_max a b = score_max b a.
Proof. score_solve. Qed.

Lemma score_min_assoc (a b c : Score) :
  score_min a (score_min b c) = score_min (score_min a b) c.
Proof. score_solve. Qed.

Lemma score_min_comm (a b : Score) : score_min a b = score_min b a.
Proof. score_solve. Qed.

Lemma within_exact (alpha beta v : Score) : within alpha beta v v.
Proof. score_solve. Qed.

Lemma within_full (r v : Score) : within NegInf PosInf r v → r = v.
Proof. score_solve. Qed.

Lemma sle_max_l (a b : Score) : sle a (score_max a b).
Proof. score_solve. Qed.

Lemma sle_max_r (a b : Score) : sle b (score_max a b).
Proof. score_solve. Qed.

Lemma sle_min_l (a b : Score) : sle (score_min a b) a.
Proof. score_solve. Qed.

Lemma sle_min_r (a b : Score) : sle (score_min a b) b.
Proof. score_solve. Qed.

Lemma score_max_NegInf_l (a : Score) : score_max NegInf a = a.
Proof. score_solve. Qed.

Lemma score_max_NegInf_r (a : Score) : score_max a NegInf = a.
Proof. score_solve. Qed.

Lemma score_min_PosInf_l (a : Score) : score_min PosInf a = a.
Proof. score_solve. Qed.

Lemma score_min_PosInf_r (a : Score) : score_min a PosInf = a.
Proof. score_solve. Qed.

(** ** Maxima and minima of lists of scores *)

Lemma maximum_Permutation (l1 l2 : list Score) :
  l1 ≡ₚ l2 → maximum l1 = maximum l2.
Proof.
  unfold maximum. induction 1 as [|x l1 l2 _ IH|x y l|l1 l2 l3 _ IH1 _ IH2]; simpl.
  - done.
  - by rewrite IH.
  - by rewrite !score_max_assoc, (score_max_comm y x).
  - by rewrite IH1.
Qed.

Lemma minimum_Permutation (l1 l2 : list Score) :
  l1 ≡ₚ l2 → minimum l1 = minimum l2.
Proof.
  unfold minimum. induction 1 as [|x l1 l2 _ IH|x y l|l1 l2 l3 _ IH1 _ IH2]; simpl.
  - done.
  - by rewrite IH.
  - by rewrite !score_min_assoc, (score_min_comm y x).
  - by rewrite IH1.
Qed.

Lemma maximum_upper (l : list Score) (x : Score) : x ∈ l → sle x (maximum l).
Proof.
  unfold maximum. induction 1 as [x l|x y l _ IH]; simpl.
  - apply sle_max_l.
  - eapply sle_trans; [exact IH | apply sle_max_r].
Qed.

Lemma minimum_lower (l : list Score) (x : Score) : x ∈ l → sle (minimum l) x.
Proof.
  unfold minimum. induction 1 as [x l|x y l _ IH]; simpl.
  - apply sle_min_l.
  - eapply sle_trans; [apply sle_min_r | exact IH].
Qed.

(** ** Legal columns and simulated drops *)

Lemma elem_of_valid_locations (b : Board) (c : nat) :
  c ∈ valid_locations b ↔ is_Some (check_available_row b (Z.of_nat c)).
Proof.
  unfold valid_locations. rewrite list_elem_of_filter, elem_of_seq.
  split; [tauto|]. intros [r Hr]. split; [by exists r|].
  apply check_available_row_Some in Hr as [Hc _]. unfold COLUMN_COUNT in *. lia.
Qed.

Lemma valid_locations_in_range (b : Board) (c : nat) :
  c ∈ valid_locations b → c < COLUMN_COUNT.
Proof.
  unfold valid_locations. rewrite list_elem_of_filter, elem_of_seq. lia.
Qed.

(** What the copy made by a simulated drop holds. *)
Lemma dropped_Some (b t : Board) (c r : nat) (v : Z) :
  wf_board b → dropped b c v = Some (t, r) →
  wf_board t ∧ c < COLUMN_COUNT ∧ lowest_empty b c r ∧
  ∀ r' c', cell t r' c' = if decide (r' = r ∧ c' = c) then v else cell b r' c'.
Proof.
  intros Hwf Hdrop. unfold dropped in Hdrop.
  destruct (check_available_row b (Z.of_nat c)) as [r0|] eqn:Hrow; [|done].
  simpl in Hdrop.
  apply check_available_row_Some in Hrow as [Hc Hlow].
  rewrite Nat2Z.id in Hlow.
  destruct (setitem_Some b r0 (Z.of_nat c) v Hwf (proj1 Hlow) Hc)
    as (t' & Hset & Hwf' & Hcells).
  rewrite Hset in Hdrop. simpl in Hdrop. injection Hdrop as <- <-.
  rewrite Nat2Z.id in Hcells. repeat split; try done; try apply Hlow. lia.
Qed.

Lemma valid_dropped (b : Board) (c : nat) (v : Z) :
  wf_board b → c ∈ valid_locations b → is_Some (dropped b c v).
Proof.
  intros Hwf [r Hr]%elem_of_valid_locations. unfold dropped. rewrite Hr. simpl.
  pose proof Hr as [Hc Hlow]%check_available_row_Some.
  destruct (setitem_Some b r (Z.of_nat c) v Hwf (proj1 Hlow) Hc) as (t & -> & _).
  by eexists.
Qed.

Lemma dropped_valid (b t : Board) (c r : nat) (v : Z) :
  dropped b c v = Some (t, r) → c ∈ valid_locations b.
Proof.
  intros Hdrop. apply elem_of_valid_locations. unfold dropped in Hdrop.
  destruct (check_available_row b (Z.of_nat c)); [by eexists | done].
Qed.

Lemma ordered_columns_eq : ordered_columns = [3; 2; 4; 1; 5; 0; 6].
Proof. reflexivity. Qed.

Lemma elem_of_search_order (b : Board) (c : nat) :
  c ∈ search_order b ↔ c ∈ valid_locations b.
Proof.
  unfold search_order. rewrite list_elem_of_filter. split; [tauto|].
  intros Hc. split; [done|]. apply valid_locations_in_range in Hc.
  rewrite ordered_columns_eq. unfold COLUMN_COUNT in Hc.
  rewrite list_elem_of_In. simpl. lia.
Qed.

Lemma search_order_Permutation (b : Board) :
  search_order b ≡ₚ valid_locations b.
Proof.
  unfold search_order, valid_locations.
  assert (ordered_columns ≡ₚ seq 0 COLUMN_COUNT) as ->.
  { assert (bool_decide (ordered_columns ≡ₚ seq 0 COLUMN_COUNT) = true) as H
      by (vm_compute; reflexivity).
    by apply bool_decide_eq_true in H. }
  erewrite list_filter_iff; [done|].
  intros c. apply elem_of_valid_locations.
Qed.

(** A board on which the game goes on has a legal column. *)
Lemma non_terminal_cases (b : Board) :
  wf_board b → (is_terminal b).1 = false →
  has_four b PLAYER = false ∧ has_four b COMPUTER = false ∧ grid_full b = false.
Proof.
  intros Hwf. rewrite (is_terminal_cases b Hwf).
  by destruct (has_four b PLAYER), (has_four b COMPUTER), (grid_full b).
Qed.

Lemma non_terminal_valid (b : Board) :
  wf_board b → (is_terminal b).1 = false → valid_locations b ≠ [].
Proof.
  intros Hwf Hrun.
  destruct (non_terminal_cases b Hwf Hrun) as (_ & _ & Hfull).
  unfold grid_full in Hfull.
  apply not_true_iff_false in Hfull.
  assert (∃ c, c ∈ valid_locations b) as [c Hc]; [|by destruct Hc].
  destruct (decide (Exists (λ c, c ∈ valid_locations b) (seq 0 COLUMN_COUNT)))
    as [Hex|Hnone].
  { apply Exists_exists in Hex as (c & _ & Hc). by exists c. }
  exfalso. apply Hfull, forallb_forall. intros [r c] Hin. simpl.
  apply list_elem_of_In, elem_of_grid_cells in Hin as [Hr Hc].
  apply negb_true_iff, Z.eqb_neq. intros Hempty. apply Hnone.
  apply Exists_exists. exists c. split; [apply elem_of_seq; lia|].
  apply elem_of_valid_locations.
  destruct (check_available_row b (Z.of_nat c)) as [r0|] eqn:Hrow; [by eexists|].
  apply check_available_row_None in Hrow as [?|[?|Hcol]];
    [lia | unfold COLUMN_COUNT in *; lia |].
  rewrite Nat2Z.id in Hcol. by destruct (Hcol r Hr).
Qed.

(** ** One turn of the loops of the search, on scores

    [value] is the best score so far, [m] the true best among the columns
    already searched, [new] the score returned for the next column and [vt]
    its true value. *)

Lemma max_step_continue (alpha beta value new vt m : Score) :
  within (score_max alpha value) beta new vt →
  sle m value → (slt alpha value → sle value m) →
  slt (score_max alpha value) beta →
  slt (score_max (score_max alpha value) (score_max value new)) beta →
  sle (score_max m vt) (score_max value new) ∧
  (slt alpha (score_max value new) → sle (score_max value new) (score_max m vt)) ∧
  slt (score_max alpha (score_max value new)) beta.
Proof. score_solve. Qed.

Lemma max_step_break (alpha beta value new vt total : Score) :
  within (score_max alpha value) beta new vt →
  slt (score_max alpha value) beta →
  sle beta (score_max (score_max alpha value) (score_max value new)) →
  sle vt total →
  within alpha beta (score_max value new) total.
Proof. score_solve. Qed.

Lemma max_alpha_update (alpha value new : Score) :
  score_max (score_max alpha value) (score_max value new)
  = score_max alpha (score_max value new).
Proof. score_solve. Qed.

Lemma max_base (alpha beta value m : Score) :
  sle m value → (slt alpha value → sle value m) →
  slt (score_max alpha value) beta →
  within alpha beta value (score_max m NegInf).
Proof. score_solve. Qed.

Lemma min_step_continue (alpha beta value new vt m : Score) :
  within alpha (score_min beta value) new vt →
  sle value m → (slt value beta → sle m value) →
  slt alpha (score_min beta value) →
  slt alpha (score_min (score_min beta value) (score_min value new)) →
  sle (score_min value new) (score_min m vt) ∧
  (slt (score_min value new) beta → sle (score_min m vt) (score_min value new)) ∧
  slt alpha (score_min beta (score_min value new)).
Proof. score_solve. Qed.

Lemma min_step_break (alpha beta value new vt total : Score) :
  within alpha (score_min beta value) new vt →
  slt alpha (score_min beta value) →
  sle (score_min (score_min beta value) (score_min value new)) alpha →
  sle total vt →
  within alpha beta (score_min value new) total.
Proof. score_solve. Qed.

Lemma min_beta_update (beta value new : Score) :
  score_min (score_min beta value) (score_min value new)
  = score_min beta (score_min value new).
Proof. score_solve. Qed.

Lemma min_base (alpha beta value m : Score) :
  sle value m → (slt value beta → sle m value) →
  slt alpha (score_min beta value) →
  within alpha beta value (score_min m PosInf).
Proof. score_solve. Qed.

(** With the full window the score of a column that improves on the best so
    far is its true value, and a column that does not improve on the worst
    score is truly worst. *)
Lemma max_improving_exact (value new vt : Score) :
  within value PosInf new vt → slt value new → vt = new.
Proof. score_solve. Qed.

Lemma max_worst_exact (new vt : Score) :
  within NegInf PosInf new vt → ¬ slt NegInf new → vt = NegInf ∧ new = NegInf.
Proof. score_solve. Qed.

Lemma min_improving_exact (value new vt : Score) :
  within NegInf value new vt → slt new value → vt = new.
Proof. score_solve. Qed.

Lemma min_worst_exact (new vt : Score) :
  within NegInf PosInf new vt → ¬ slt new PosInf → vt = PosInf ∧ new = PosInf.
Proof. score_solve. Qed.

Lemma score_max_absorb (value new : Score) :
  score_max value (score_max value new) = score_max value new.
Proof. score_solve. Qed.

Lemma score_min_absorb (value new : Score) :
  score_min value (score_min value new) = score_min value new.
Proof. score_solve. Qed.

Lemma score_max_ltb (value new : Score) :
  score_max value new = if score_ltb value new then new else value.
Proof. reflexivity. Qed.

Lemma score_min_ltb (value new : Score) :
  score_min value new = if score_ltb new value then new else value.
Proof. reflexivity. Qed.

(** ** Drops that win at once *)

Lemma has_four_before_drop (b t : Board) (c r : nat) (v side : Z) :
  (∀ r' c', cell t r' c' = if decide (r' = r ∧ c' = c) then side else cell b r' c') →
  v ≠ side → has_four t v = true → has_four b v = true.
Proof.
  intros Hcells Hne. rewrite !has_four_true. intros (w & Hfit & Hfill).
  exists w. split; [done|]. rewrite filled_with_true in *. intros i Hi.
  specialize (Hfill i Hi). rewrite Hcells in Hfill.
  by destruct (decide _).
Qed.

Lemma winning_drop_terminal (b t : Board) (c r : nat) (side : Z) :
  wf_board b → (is_terminal b).1 = false →
  side = PLAYER ∨ side = COMPUTER →
  dropped b c side = Some (t, r) → check_win t r c = true →
  is_terminal t = (true, Some side).
Proof.
  intros Hwf Hrun Hside Hdrop Hwin.
  destruct (dropped_Some b t c r side Hwf Hdrop) as (Hwft & Hc & Hlow & Hcells).
  destruct (non_terminal_cases b Hwf Hrun) as (HnoP & HnoC & _).
  assert (cell t r c = side) as Hcell
    by (rewrite Hcells, decide_True; done).
  assert (has_four t side = true) as Hfour.
  { apply has_four_true.
    apply check_win_true in Hwin as (w & Hfit & _ & Hfill); [|apply Hlow|done].
    exists w. by rewrite <- Hcell. }
  rewrite (is_terminal_cases t Hwft).
  destruct Hside as [-> | ->]; [by rewrite Hfour|].
  destruct (has_four t PLAYER) eqn:HP; [|by rewrite Hfour].
  apply (has_four_before_drop b t c r PLAYER COMPUTER Hcells) in HP; [|done].
  congruence.
Qed.

Lemma plain_minimax_terminal (d : nat) (b : Board) (m : bool) :
  (is_terminal b).1 = true → plain_minimax d b m = static_value b.
Proof. intros H. destruct d; simpl; [done|]. by rewrite H. Qed.

Lemma static_value_win (b : Board) (side : Z) :
  is_terminal b = (true, Some side) →
  static_value b = if (side =? COMPUTER)%Z then PosInf
                   else if (side =? PLAYER)%Z then NegInf else Fin 0.
Proof. intros H. unfold static_value. by rewrite H. Qed.

(** The true value of the board a winning drop leads to. *)
Lemma winning_drop_value (d : nat) (b t : Board) (c r : nat) (m : bool) :
  wf_board b → (is_terminal b).1 = false →
  dropped b c (side_to_move m) = Some (t, r) → check_win t r c = true →
  plain_minimax d t (negb m) = if m then PosInf else NegInf.
Proof.
  intros Hwf Hrun Hdrop Hwin.
  assert (is_terminal t = (true, Some (side_to_move m))) as Hterm.
  { eapply winning_drop_terminal; try done. destruct m; [by right | by left]. }
  rewrite plain_minimax_terminal by (by rewrite Hterm).
  rewrite (static_value_win t _ Hterm). by destruct m.
Qed.

Lemma plain_minimax_child (d : nat) (b t : Board) (c r : nat) (m : bool) :
  (is_terminal b).1 = false →
  dropped b c (side_to_move m) = Some (t, r) →
  if m then sle (plain_minimax d t false) (plain_minimax (S d) b true)
  else sle (plain_minimax (S d) b false) (plain_minimax d t true).
Proof.
  intros Hrun Hdrop. cbn [plain_minimax]. rewrite Hrun.
  assert (t ∈ children b (side_to_move m)) as Hin.
  { unfold children. apply list_elem_of_omap. exists c.
    split; [by eapply dropped_valid | by rewrite Hdrop]. }
  destruct m; simpl in *.
  - apply maximum_upper, list_elem_of_In.
    apply (in_map (λ t, plain_minimax d t false)). by apply list_elem_of_In.
  - apply minimum_lower, list_elem_of_In.
    apply (in_map (λ t, plain_minimax d t true)). by apply list_elem_of_In.
Qed.

(** ** The loops of the search against the true values *)

Lemma max_scan_cons f (b : Board) (c : nat) (cs : list nat)
    (value : Score) (best : option nat) (alpha beta : Score) (t : Board) (r : nat) :
  dropped b c COMPUTER = Some (t, r) →
  max_scan f b (c :: cs) value best alpha beta =
    if score_leb beta (score_max alpha (score_max value (f t alpha beta)))
    then (score_max value (f t alpha beta),
          if score_ltb value (f t alpha beta) then Some c else best)
    else max_scan f b cs (score_max value (f t alpha beta))
           (if score_ltb value (f t alpha beta) then Some c else best)
           (score_max alpha (score_max value (f t alpha beta))) beta.
Proof.
  intros H. cbn [max_scan]. rewrite H. cbv zeta.
  rewrite (score_max_ltb value).
  by destruct (score_ltb value (f t alpha beta)).
Qed.

Lemma min_scan_cons f (b : Board) (c : nat) (cs : list nat)
    (value : Score) (best : option nat) (alpha beta : Score) (t : Board) (r : nat) :
  dropped b c PLAYER = Some (t, r) →
  min_scan f b (c :: cs) value best alpha beta =
    if score_leb (score_min beta (score_min value (f t alpha beta))) alpha
    then (score_min value (f t alpha beta),
          if score_ltb (f t alpha beta) value then Some c else best)
    else min_scan f b cs (score_min value (f t alpha beta))
           (if score_ltb (f t alpha beta) value then Some c else best)
           alpha (score_min beta (score_min value (f t alpha beta))).
Proof.
  intros H. cbn [min_scan]. rewrite H. cbv zeta.
  rewrite (score_min_ltb value).
  by destruct (score_ltb (f t alpha beta) value).
Qed.

Lemma boards_after_cons (b t : Board) (side : Z) (c r : nat) (cs : list nat) :
  dropped b c side = Some (t, r) →
  boards_after b side (c :: cs) = t :: boards_after b side cs.
Proof. intros H. unfold boards_after. simpl. by rewrite H. Qed.

Lemma max_scan_within f (v : Board → Score) (b : Board) (alpha beta : Score) :
  (∀ c t r a, dropped b c COMPUTER = Some (t, r) → slt a beta →
              within a beta (f t a beta) (v t)) →
  ∀ cs value best m,
    Forall (λ c, is_Some (dropped b c COMPUTER)) cs →
    sle m value → (slt alpha value → sle value m) →
    slt (score_max alpha value) beta →
    within alpha beta
      (max_scan f b cs value best (score_max alpha value) beta).1
      (score_max m (maximum (map v (boards_after b COMPUTER cs)))).
Proof.
  intros Hf. induction cs as [|c cs IH]; intros value best m Hall H1 H2 H3.
  - simpl. by apply max_base.
  - inversion Hall as [|? ? [[t r] Hdrop] Hall']; subst.
    rewrite (max_scan_cons f b c cs value best _ beta t r Hdrop).
    rewrite (boards_after_cons b t COMPUTER c r cs Hdrop). simpl.
    pose proof (Hf c t r _ Hdrop H3) as Hw.
    destruct (score_leb beta _) eqn:Hbrk.
    + apply score_leb_sle in Hbrk. simpl.
      eapply max_step_break; try done.
      eapply sle_trans; [apply sle_max_l | apply sle_max_r].
    + apply score_leb_slt in Hbrk.
      destruct (max_step_continue _ _ _ _ _ _ Hw H1 H2 H3 Hbrk) as (H1' & H2' & H3').
      rewrite max_alpha_update, (score_max_assoc m (v t)). by apply IH.
Qed.

Lemma min_scan_within f (v : Board → Score) (b : Board) (alpha beta : Score) :
  (∀ c t r a, dropped b c PLAYER = Some (t, r) → slt alpha a →
              within alpha a (f t alpha a) (v t)) →
  ∀ cs value best m,
    Forall (λ c, is_Some (dropped b c PLAYER)) cs →
    sle value m → (slt value beta → sle m value) →
    slt alpha (score_min beta value) →
    within alpha beta
      (min_scan f b cs value best alpha (score_min beta value)).1
      (score_min m (minimum (map v (boards_after b PLAYER cs)))).
Proof.
  intros Hf. induction cs as [|c cs IH]; intros value best m Hall H1 H2 H3.
  - simpl. by apply min_base.
  - inversion Hall as [|? ? [[t r] Hdrop] Hall']; subst.
    rewrite (min_scan_cons f b c cs value best alpha _ t r Hdrop).
    rewrite (boards_after_cons b t PLAYER c r cs Hdrop). simpl.
    pose proof (Hf c t r _ Hdrop H3) as Hw.
    destruct (score_leb _ alpha) eqn:Hbrk.
    + apply score_leb_sle in Hbrk. simpl.
      eapply min_step_break; try done.
      eapply sle_trans; [apply sle_min_r | apply sle_min_l].
    + apply score_leb_slt in Hbrk.
      destruct (min_step_continue _ _ _ _ _ _ Hw H1 H2 H3 Hbrk) as (H1' & H2' & H3').
      rewrite min_beta_update, (score_min_assoc m (v t)). by apply IH.
Qed.

Lemma search_order_dropped (b : Board) (side : Z) :
  wf_board b →
  Forall (λ c, is_Some (dropped b c side)) (search_order b).
Proof.
  intros Hwf. apply Forall_forall. intros c Hc.
  by apply valid_dropped, elem_of_search_order.
Qed.

Lemma boards_after_search_order (b : Board) (side : Z) :
  boards_after b side (search_order b) ≡ₚ children b side.
Proof.
  unfold boards_after, children. by rewrite search_order_Permutation.
Qed.

Lemma find_wins_at (b : Board) (side : Z) (c : nat) :
  find (wins_at b side) (search_order b) = Some c →
  c ∈ valid_locations b ∧
  ∃ t r, dropped b c side = Some (t, r) ∧ check_win t r c = true.
Proof.
  intros [Hin Hwin]%find_some.
  split; [by apply elem_of_search_order, list_elem_of_In|].
  unfold wins_at in Hwin.
  destruct (dropped b c side) as [[t r]|]; [by exists t, r | done].
Qed.

(** The score of the search is within its window of the plain minimax
    value. *)
Lemma search_within (d : nat) :
  ∀ (b : Board) (alpha beta : Score) (m : bool),
    wf_board b → slt alpha beta →
    within alpha beta (search d b alpha beta m).1 (plain_minimax d b m).
Proof.
  induction d as [|d IH]; intros b alpha beta m Hwf Hab.
  - apply within_exact.
  - cbn [search plain_minimax].
    destruct (is_terminal b).1 eqn:Hrun; [apply within_exact|].
    destruct m.
    + destruct (find _ _) as [c|] eqn:Hfind.
      * apply find_wins_at in Hfind as (_ & t & r & Hdrop & Hwin).
        pose proof (plain_minimax_child d b t c r true Hrun Hdrop) as Hle.
        pose proof (winning_drop_value d b t c r true Hwf Hrun Hdrop Hwin) as Hv.
        cbn [negb] in Hv. rewrite Hv in Hle.
        cbn [plain_minimax] in Hle. rewrite Hrun in Hle.
        apply sle_PosInf in Hle. rewrite Hle. apply within_exact.
      * pose proof (max_scan_within
          (λ t a b', (search d t a b' false).1) (λ t, plain_minimax d t false)
          b alpha beta) as Hscan.
        specialize (Hscan (λ c t r a Hdrop Ha,
          IH t a beta false (proj1 (dropped_Some b t c r _ Hwf Hdrop)) Ha)).
        specialize (Hscan (search_order b) NegInf None NegInf
                      (search_order_dropped b COMPUTER Hwf)).
        rewrite score_max_NegInf_r, score_max_NegInf_l in Hscan.
        rewrite <- (maximum_Permutation _ _
          (Permutation_map _ (boards_after_search_order b COMPUTER))).
        apply Hscan; [done | by destruct alpha | done].
    + destruct (find _ _) as [c|] eqn:Hfind.
      * apply find_wins_at in Hfind as (_ & t & r & Hdrop & Hwin).
        pose proof (plain_minimax_child d b t c r false Hrun Hdrop) as Hle.
        pose proof (winning_drop_value d b t c r false Hwf Hrun Hdrop Hwin) as Hv.
        cbn [negb] in Hv. rewrite Hv in Hle.
        cbn [plain_minimax] in Hle. rewrite Hrun in Hle.
        apply sle_NegInf in Hle. rewrite Hle. apply within_exact.
      * pose proof (min_scan_within
          (λ t a b', (search d t a b' true).1) (λ t, plain_minimax d t true)
          b alpha beta) as Hscan.
        specialize (Hscan (λ c t r a Hdrop Ha,
          IH t alpha a true (proj1 (dropped_Some b t c r _ Hwf Hdrop)) Ha)).
        specialize (Hscan (search_order b) PosInf None PosInf
                      (search_order_dropped b PLAYER Hwf)).
        rewrite score_min_PosInf_r, score_min_PosInf_l in Hscan.
        rewrite <- (minimum_Permutation _ _
          (Permutation_map _ (boards_after_search_order b PLAYER))).
        apply Hscan; [done | by destruct beta | done].
Qed.

(** With the full window the score of the search is the plain minimax
    value. *)
Lemma search_full_window (d : nat) (b : Board) (m : bool) :
  wf_board b → (search d b NegInf PosInf m).1 = plain_minimax d b m.
Proof. intros Hwf. by apply within_full, search_within. Qed.

(** ** The column the loops keep *)

Lemma max_scan_best_Some f (b : Board) (cs : list nat) :
  ∀ value best alpha beta,
    is_Some best → is_Some (max_scan f b cs value best alpha beta).2.
Proof.
  induction cs as [|c cs IH]; intros value best alpha beta Hbest; [done|].
  cbn [max_scan]. destruct (dropped b c COMPUTER) as [[t r]|]; [|done].
  cbv zeta. destruct (score_ltb value _); destruct (score_leb beta _);
    try done; by apply IH.
Qed.

Lemma min_scan_best_Some f (b : Board) (cs : list nat) :
  ∀ value best alpha beta,
    is_Some best → is_Some (min_scan f b cs value best alpha beta).2.
Proof.
  induction cs as [|c cs IH]; intros value best alpha beta Hbest; [done|].
  cbn [min_scan]. destruct (dropped b c PLAYER) as [[t r]|]; [|done].
  cbv zeta. destruct (score_ltb _ value); destruct (score_leb _ alpha);
    try done; by apply IH.
Qed.

Lemma max_scan_best_elem f (b : Board) (cs : list nat) (c0 : nat) :
  ∀ value best alpha beta,
    (max_scan f b cs value best alpha beta).2 = Some c0 →
    c0 ∈ cs ∨ best = Some c0.
Proof.
  induction cs as [|c cs IH]; intros value best alpha beta; [by right|].
  cbn [max_scan]. destruct (dropped b c COMPUTER) as [[t r]|]; [|by right].
  cbv zeta. destruct (score_ltb value _); destruct (score_leb beta _); simpl.
  - intros [= <-]. left. by left.
  - intros [Hin|[= <-]]%IH; left; [by right | by left].
  - by right.
  - intros [Hin|Hb]%IH; [left; by right | by right].
Qed.

Lemma min_scan_best_elem f (b : Board) (cs : list nat) (c0 : nat) :
  ∀ value best alpha beta,
    (min_scan f b cs value best alpha beta).2 = Some c0 →
    c0 ∈ cs ∨ best = Some c0.
Proof.
  induction cs as [|c cs IH]; intros value best alpha beta; [by right|].
  cbn [min_scan]. destruct (dropped b c PLAYER) as [[t r]|]; [|by right].
  cbv zeta. destruct (score_ltb _ value); destruct (score_leb _ alpha); simpl.
  - intros [= <-]. left. by left.
  - intros [Hin|[= <-]]%IH; left; [by right | by left].
  - by right.
  - intros [Hin|Hb]%IH; [left; by right | by right].
Qed.

(** The column the search keeps is a legal one. *)
Lemma search_column_valid (d : nat) (b : Board) (alpha beta : Score)
    (m : bool) (c : nat) :
  (search d b alpha beta m).2 = Some c → c ∈ valid_locations b.
Proof.
  destruct d as [|d]; [done|]. cbn [search].
  destruct (is_terminal b).1; [done|].
  destruct m.
  - destruct (find _ _) as [c'|] eqn:Hfind.
    + intros [= <-]. by apply find_wins_at in Hfind as [? _].
    + intros [Hin|?]%max_scan_best_elem; [|done]. by apply elem_of_search_order.
  - destruct (find _ _) as [c'|] eqn:Hfind.
    + intros [= <-]. by apply find_wins_at in Hfind as [? _].
    + intros [Hin|?]%min_scan_best_elem; [|done]. by apply elem_of_search_order.
Qed.

Lemma search_leaf (d : nat) (b : Board) (alpha beta : Score) (m : bool) :
  is_leaf d b = true → search d b alpha beta m = (static_value b, None).
Proof.
  unfold is_leaf. destruct d as [|d]; [done|]. simpl.
  by intros ->.
Qed.

(** With the full window, the column the maximizing loop keeps has the
    returned score as its true value; if it keeps none, every column is
    truly worst. *)
Lemma max_scan_column f (v : Board → Score) (b : Board) :
  (∀ c t r a, dropped b c COMPUTER = Some (t, r) → slt a PosInf →
              within a PosInf (f t a PosInf) (v t)) →
  ∀ cs value best,
    Forall (λ c, is_Some (dropped b c COMPUTER)) cs →
    slt value PosInf →
    (∀ c, best = Some c → ∃ t r, dropped b c COMPUTER = Some (t, r) ∧ v t = value) →
    (best = None → value = NegInf) →
    (∀ c, (max_scan f b cs value best value PosInf).2 = Some c →
          ∃ t r, dropped b c COMPUTER = Some (t, r)
                 ∧ v t = (max_scan f b cs value best value PosInf).1) ∧
    ((max_scan f b cs value best value PosInf).2 = None →
     (max_scan f b cs value best value PosInf).1 = NegInf ∧
     ∀ c t r, c ∈ cs → dropped b c COMPUTER = Some (t, r) → v t = NegInf).
Proof.
  intros Hf. induction cs as [|c cs IH]; intros value best Hall Hlt Hbest Hnone.
  - simpl. split; [done|]. intros Hb. split; [by apply Hnone|].
    intros c t r Hin. by apply not_elem_of_nil in Hin.
  - inversion Hall as [|? ? [[t r] Hdrop] Hall']; subst.
    rewrite (max_scan_cons f b c cs value best value PosInf t r Hdrop).
    rewrite score_max_absorb.
    pose proof (Hf c t r value Hdrop Hlt) as Hw.
    set (new := f t value PosInf) in *.
    set (best' := if score_ltb value new then Some c else best).
    assert (∀ c0, best' = Some c0 →
              ∃ t0 r0, dropped b c0 COMPUTER = Some (t0, r0)
                       ∧ v t0 = score_max value new) as Hbest'.
    { intros c0. unfold best'. rewrite score_max_ltb.
      destruct (score_ltb value new) eqn:Hcmp; [|apply Hbest].
      intros [= <-]. exists t, r. split; [done|].
      eapply max_improving_exact; [exact Hw | by apply score_ltb_slt]. }
    assert (best' = None → score_max value new = NegInf ∧ v t = NegInf) as Hnone'.
    { unfold best'. rewrite score_max_ltb.
      destruct (score_ltb value new) eqn:Hcmp; [done|]. intros Hb.
      specialize (Hnone Hb). subst value.
      destruct (max_worst_exact new (v t) Hw) as [? ?]; [|done].
      rewrite <- score_ltb_slt. congruence. }
    destruct (score_leb PosInf (score_max value new)) eqn:Hbrk.
    + simpl. split; [exact Hbest'|]. intros Hb.
      destruct (Hnone' Hb) as [Hv _]. by rewrite Hv in Hbrk.
    + apply score_leb_slt in Hbrk.
      destruct (IH (score_max value new) best' Hall' Hbrk Hbest'
                  (λ Hb, proj1 (Hnone' Hb))) as [IH1 IH2].
      split; [exact IH1|]. intros Hfin. destruct (IH2 Hfin) as [Hres Hcs].
      split; [done|]. intros c0 t0 r0 Hin Hd0.
      apply elem_of_cons in Hin as [->|Hin]; [|by eapply Hcs].
      assert (best' = None) as Hb.
      { destruct best' as [c1|] eqn:Hb'; [|done].
        destruct (max_scan_best_Some f b cs (score_max value new) (Some c1)
                    (score_max value new) PosInf) as [c2 Hc2]; [done|].
        congruence. }
      destruct (Hnone' Hb) as [_ Hv]. congruence.
Qed.

Lemma min_scan_column f (v : Board → Score) (b : Board) :
  (∀ c t r a, dropped b c PLAYER = Some (t, r) → slt NegInf a →
              within NegInf a (f t NegInf a) (v t)) →
  ∀ cs value best,
    Forall (λ c, is_Some (dropped b c PLAYER)) cs →
    slt NegInf value →
    (∀ c, best = Some c → ∃ t r, dropped b c PLAYER = Some (t, r) ∧ v t = value) →
    (best = None → value = PosInf) →
    (∀ c, (min_scan f b cs value best NegInf value).2 = Some c →
          ∃ t r, dropped b c PLAYER = Some (t, r)
                 ∧ v t = (min_scan f b cs value best NegInf value).1) ∧
    ((min_scan f b cs value best NegInf value).2 = None →
     (min_scan f b cs value best NegInf value).1 = PosInf ∧
     ∀ c t r, c ∈ cs → dropped b c PLAYER = Some (t, r) → v t = PosInf).
Proof.
  intros Hf. induction cs as [|c cs IH]; intros value best Hall Hlt Hbest Hnone.
  - simpl. split; [done|]. intros Hb. split; [by apply Hnone|].
    intros c t r Hin. by apply not_elem_of_nil in Hin.
  - inversion Hall as [|? ? [[t r] Hdrop] Hall']; subst.
    rewrite (min_scan_cons f b c cs value best NegInf value t r Hdrop).
    rewrite score_min_absorb.
    pose proof (Hf c t r value Hdrop Hlt) as Hw.
    set (new := f t NegInf value) in *.
    set (best' := if score_ltb new value then Some c else best).
    assert (∀ c0, best' = Some c0 →
              ∃ t0 r0, dropped b c0 PLAYER = Some (t0, r0)
                       ∧ v t0 = score_min value new) as Hbest'.
    { intros c0. unfold best'. rewrite score_min_ltb.
      destruct (score_ltb new value) eqn:Hcmp; [|apply Hbest].
      intros [= <-]. exists t, r. split; [done|].
      eapply min_improving_exact; [exact Hw | by apply score_ltb_slt]. }
    assert (best' = None → score_min value new = PosInf ∧ v t = PosInf) as Hnone'.
    { unfold best'. rewrite score_min_ltb.
      destruct (score_ltb new value) eqn:Hcmp; [done|]. intros Hb.
      specialize (Hnone Hb). subst value.
      destruct (min_worst_exact new (v t) Hw) as [? ?]; [|done].
      rewrite <- score_ltb_slt. congruence. }
    destruct (score_leb (score_min value new) NegInf) eqn:Hbrk.
    + simpl. split; [exact Hbest'|]. intros Hb.
      destruct (Hnone' Hb) as [Hv _]. by rewrite Hv in Hbrk.
    + apply score_leb_slt in Hbrk.
      destruct (IH (score_min value new) best' Hall' Hbrk Hbest'
                  (λ Hb, proj1 (Hnone' Hb))) as [IH1 IH2].
      split; [exact IH1|]. intros Hfin. destruct (IH2 Hfin) as [Hres Hcs].
      split; [done|]. intros c0 t0 r0 Hin Hd0.
      apply elem_of_cons in Hin as [->|Hin]; [|by eapply Hcs].
      assert (best' = None) as Hb.
      { destruct best' as [c1|] eqn:Hb'; [|done].
        destruct (min_scan_best_Some f b cs (score_min value new) (Some c1)
                    NegInf (score_min value new)) as [c2 Hc2]; [done|].
        congruence. }
      destruct (Hnone' Hb) as [_ Hv]. congruence.
Qed.

(** With the full window, the column the search keeps leads to a board whose
    plain minimax value is the returned score; if it keeps none, so does
    every legal column. *)
Lemma search_full_column (d : nat) (b : Board) (m : bool) :
  wf_board b → (is_terminal b).1 = false →
  (∀ c, (search (S d) b NegInf PosInf m).2 = Some c →
        ∃ t r, dropped b c (side_to_move m) = Some (t, r) ∧
               plain_minimax d t (negb m) = (search (S d) b NegInf PosInf m).1) ∧
  ((search (S d) b NegInf PosInf m).2 = None →
   ∀ c, c ∈ valid_locations b →
        ∃ t r, dropped b c (side_to_move m) = Some (t, r) ∧
               plain_minimax d t (negb m) = (search (S d) b NegInf PosInf m).1).
Proof.
  intros Hwf Hrun. cbn [search]. rewrite Hrun. destruct m; cbn [negb side_to_move].
  - destruct (find _ _) as [c0|] eqn:Hfind.
    + split; [|done]. intros c [= <-].
      apply find_wins_at in Hfind as (_ & t & r & Hdrop & Hwin).
      exists t, r. split; [done|].
      apply (winning_drop_value d b t c0 r true Hwf Hrun Hdrop Hwin).
    + destruct (max_scan_column
        (λ t a b', (search d t a b' false).1) (λ t, plain_minimax d t false) b
        (λ c t r a Hdrop Ha,
           search_within d t a PosInf false
             (proj1 (dropped_Some b t c r _ Hwf Hdrop)) Ha)
        (search_order b) NegInf None (search_order_dropped b COMPUTER Hwf))
        as [H1 H2]; [done..|].
      split; [exact H1|]. intros Hfin c Hc.
      destruct (H2 Hfin) as [Hres Hall].
      destruct (valid_dropped b c COMPUTER Hwf Hc) as [[t r] Hdrop].
      exists t, r. split; [done|]. rewrite Hres.
      eapply Hall; [by apply elem_of_search_order | done].
  - destruct (find _ _) as [c0|] eqn:Hfind.
    + split; [|done]. intros c [= <-].
      apply find_wins_at in Hfind as (_ & t & r & Hdrop & Hwin).
      exists t, r. split; [done|].
      apply (winning_drop_value d b t c0 r false Hwf Hrun Hdrop Hwin).
    + destruct (min_scan_column
        (λ t a b', (search d t a b' true).1) (λ t, plain_minimax d t true) b
        (λ c t r a Hdrop Ha,
           search_within d t NegInf a true
             (proj1 (dropped_Some b t c r _ Hwf Hdrop)) Ha)
        (search_order b) PosInf None (search_order_dropped b PLAYER Hwf))
        as [H1 H2]; [done..|].
      split; [exact H1|]. intros Hfin c Hc.
      destruct (H2 Hfin) as [Hres Hall].
      destruct (valid_dropped b c PLAYER Hwf Hc) as [[t r] Hdrop].
      exists t, r. split; [done|]. rewrite Hres.
      eapply Hall; [by apply elem_of_search_order | done].
Qed.

(** ** Running the effects *)

Lemma bind_run {A B} (m : M A) (k : A → M B) (w : world) :
  (m ≫= k) w = match m w with Ok a w' => k a w' | Raise e => Raise e end.
Proof. reflexivity. Qed.

Lemma deref_run (l : loc) (b : Board) (w : world) :
  heap w !! l = Some b → deref l w = Ok b w.
Proof. intros H. unfold deref. by rewrite H. Qed.

Lemma place_piece_run (w : world) (board : loc) (b t : Board) (r : nat)
    (column side : Z) :
  heap w !! board = Some b → setitem b r column side = Some t →
  place_piece board column (Some r) side w
  = Ok true {| heap := <[board := t]> (heap w); draws := draws w |}.
Proof.
  intros Hb Hset. unfold place_piece.
  rewrite bind_run, (deref_run board b w Hb), Hset, bind_run. unfold store.
  apply lookup_lt_Some, Nat.ltb_lt in Hb. by rewrite Hb.
Qed.

(** A simulated drop adds one board to the store, the copy with the piece
    placed, and touches nothing else. *)
Lemma simulate_drop_run (w : world) (l : loc) (b : Board) (c : nat) (side : Z) :
  heap w !! l = Some b → wf_board b →
  simulate_drop l (Z.of_nat c) side w =
    match dropped b c side with
    | Some (t, r) =>
        Ok (Some (length (heap w), r))
           {| heap := heap w ++ [t]; draws := draws w |}
    | None => Ok None w
    end.
Proof.
  intros Hb Hwf. unfold simulate_drop, dropped.
  rewrite bind_run, (deref_run l b w Hb).
  destruct (check_available_row b (Z.of_nat c)) as [r|] eqn:Hrow; [|done].
  pose proof Hrow as [Hc Hlow]%check_available_row_Some.
  destruct (setitem_Some b r (Z.of_nat c) side Hwf (proj1 Hlow) Hc)
    as (t & Hset & _).
  cbn [mbind option_bind]. rewrite Hset. cbn [mbind option_bind].
  unfold copy. rewrite !bind_run, (deref_run l b w Hb). unfold alloc.
  cbn beta iota. rewrite bind_run.
  rewrite (place_piece_run _ (length (heap w)) b t r _ side);
    [|by apply list_lookup_middle | done].
  cbn [heap draws]. unfold mret, M_ret. do 3 f_equal.
  rewrite insert_app_r_alt by lia. by rewrite Nat.sub_diag.
Qed.

Lemma prefix_snoc (h : list Board) (t : Board) : h `prefix_of` h ++ [t].
Proof. by apply prefix_app_r. Qed.

Lemma immediate_win_run (l : loc) (b : Board) (side : Z) :
  wf_board b →
  ∀ order w, heap w !! l = Some b →
    ∃ w', immediate_win l side order w = Ok (find (wins_at b side) order) w'
          ∧ heap w `prefix_of` heap w' ∧ draws w' = draws w.
Proof.
  intros Hwf. induction order as [|c order IH]; intros w Hb.
  - by exists w.
  - cbn [immediate_win find]. rewrite bind_run, (simulate_drop_run w l b c side Hb Hwf).
    unfold wins_at at 1. destruct (dropped b c side) as [[t r]|] eqn:Hdrop.
    + rewrite bind_run. unfold deref. cbn [heap].
      rewrite list_lookup_middle by done.
      destruct (check_win t r c).
      * eexists. split; [done|]. split; [apply prefix_snoc | done].
      * set (w1 := {| heap := heap w ++ [t]; draws := draws w |}).
        destruct (IH w1) as (w' & Hrun & Hpre & Hdraws).
        { by apply lookup_app_l_Some. }
        exists w'. split; [done|]. split; [|done].
        etrans; [apply (prefix_snoc (heap w) t) | done].
    + by apply IH.
Qed.

Lemma winning_moves_loop_run (l : loc) (b : Board) (side : Z) :
  wf_board b →
  ∀ cols wins w, heap w !! l = Some b →
    ∃ w', winning_moves_loop l side cols wins w
          = Ok (wins ++ List.filter (wins_at b side) cols) w'
          ∧ heap w `prefix_of` heap w' ∧ draws w' = draws w.
Proof.
  intros Hwf. induction cols as [|c cols IH]; intros wins w Hb.
  - exists w. by rewrite app_nil_r.
  - cbn [winning_moves_loop List.filter].
    rewrite bind_run, (simulate_drop_run w l b c side Hb Hwf).
    unfold wins_at at 1. destruct (dropped b c side) as [[t r]|] eqn:Hdrop.
    + rewrite bind_run. unfold deref. cbn [heap].
      rewrite list_lookup_middle by done.
      set (w1 := {| heap := heap w ++ [t]; draws := draws w |}).
      assert (heap w1 !! l = Some b) as Hb1 by by apply lookup_app_l_Some.
      destruct (check_win t r c).
      * destruct (IH (wins ++ [c]) w1 Hb1) as (w' & Hrun & Hpre & Hdraws).
        exists w'. rewrite Hrun, <- app_assoc. split; [done|]. split; [|done].
        etrans; [apply (prefix_snoc (heap w) t) | done].
      * destruct (IH wins w1 Hb1) as (w' & Hrun & Hpre & Hdraws).
        exists w'. split; [done|]. split; [|done].
        etrans; [apply (prefix_snoc (heap w) t) | done].
    + by apply IH.
Qed.

Lemma winning_moves_run (l : loc) (b : Board) (side : Z) (w : world) :
  wf_board b → heap w !! l = Some b →
  ∃ w', winning_moves l side w
        = Ok (List.filter (wins_at b side) (valid_locations b)) w'
        ∧ heap w `prefix_of` heap w' ∧ draws w' = draws w.
Proof.
  intros Hwf Hb. unfold winning_moves. rewrite bind_run, (deref_run l b w Hb).
  by apply (winning_moves_loop_run l b side Hwf (valid_locations b) []).
Qed.

(** ** [minimax] against the search on contents *)

Section SearchRuns.

Variable entropy : nat → nat.

Lemma random_choice_run (valid : list nat) (w : world) :
  valid ≠ [] →
  ∃ c, random_choice entropy valid w
       = Ok c {| heap := heap w; draws := S (draws w) |} ∧ c ∈ valid.
Proof.
  intros Hne. unfold random_choice.
  destruct (lookup_lt_is_Some_2 valid (entropy (draws w) `mod` length valid))
    as [c Hc].
  { apply Nat.mod_upper_bound. by destruct valid. }
  exists c. rewrite Hc. split; [done|]. by eapply list_elem_of_lookup_2.
Qed.

Lemma max_loop_run rec f (l : loc) (b : Board) :
  wf_board b → computes rec f →
  ∀ order value best alpha beta w,
    heap w !! l = Some b →
    Forall (λ c, is_Some (dropped b c COMPUTER)) order →
    ∃ w', max_loop rec l order value best alpha beta w
          = Ok (max_scan f b order value best alpha beta) w'
          ∧ heap w `prefix_of` heap w'.
Proof.
  intros Hwf Hrec.
  induction order as [|c order IH]; intros value best alpha beta w Hb Hall.
  - by exists w.
  - inversion Hall as [|? ? [[t r] Hdrop] Hall']; subst.
    cbn [max_loop max_scan].
    rewrite bind_run, (simulate_drop_run w l b c COMPUTER Hb Hwf), Hdrop.
    set (w1 := {| heap := heap w ++ [t]; draws := draws w |}).
    destruct (Hrec t (length (heap w)) alpha beta w1) as (col & w2 & Hrun & Hpre).
    { by apply (dropped_Some b t c r COMPUTER). }
    { by apply list_lookup_middle. }
    rewrite bind_run, Hrun. cbv zeta.
    assert (heap w `prefix_of` heap w2) as Hpre2
      by (etrans; [apply (prefix_snoc (heap w) t) | done]).
    destruct (score_ltb value (f t alpha beta));
      (destruct (score_leb beta _);
       [ by exists w2
       | edestruct IH as (w' & Hloop & Hpre');
         [ by eapply prefix_lookup_Some | done
         | exists w'; split; [done | by etrans] ] ]).
Qed.

Lemma min_loop_run rec f (l : loc) (b : Board) :
  wf_board b → computes rec f →
  ∀ order value best alpha beta w,
    heap w !! l = Some b →
    Forall (λ c, is_Some (dropped b c PLAYER)) order →
    ∃ w', min_loop rec l order value best alpha beta w
          = Ok (min_scan f b order value best alpha beta) w'
          ∧ heap w `prefix_of` heap w'.
Proof.
  intros Hwf Hrec.
  induction order as [|c order IH]; intros value best alpha beta w Hb Hall.
  - by exists w.
  - inversion Hall as [|? ? [[t r] Hdrop] Hall']; subst.
    cbn [min_loop min_scan].
    rewrite bind_run, (simulate_drop_run w l b c PLAYER Hb Hwf), Hdrop.
    set (w1 := {| heap := heap w ++ [t]; draws := draws w |}).
    destruct (Hrec t (length (heap w)) alpha beta w1) as (col & w2 & Hrun & Hpre).
    { by apply (dropped_Some b t c r PLAYER). }
    { by apply list_lookup_middle. }
    rewrite bind_run, Hrun. cbv zeta.
    assert (heap w `prefix_of` heap w2) as Hpre2
      by (etrans; [apply (prefix_snoc (heap w) t) | done]).
    destruct (score_ltb (f t alpha beta) value);
      (destruct (score_leb _ alpha);
       [ by exists w2
       | edestruct IH as (w' & Hloop & Hpre');
         [ by eapply prefix_lookup_Some | done
         | exists w'; split; [done | by etrans] ] ]).
Qed.

Lemma or_random_run (b : Board) (kept : option nat) (w : world) :
  valid_locations b ≠ [] →
  (∀ c, kept = Some c → c ∈ valid_locations b) →
  ∃ c w', or_random entropy (valid_locations b) kept w = Ok c w'
          ∧ heap w' = heap w ∧ c ∈ valid_locations b
          ∧ (kept = Some c ∨ kept = None).
Proof.
  intros Hne Hkept. destruct kept as [c|]; simpl.
  - exists c, w. repeat split; try done; [by apply Hkept | by left].
  - destruct (random_choice_run (valid_locations b) w Hne) as (c & Hrun & Hc).
    exists c. eexists. split; [exact Hrun|]. repeat split; try done. by right.
Qed.

Lemma minimax_run (d : nat) :
  ∀ (l : loc) (b : Board) (alpha beta : Score) (m : bool) (w : world),
    heap w !! l = Some b → wf_board b →
    ∃ col w',
      minimax entropy d l alpha beta m w
      = Ok ((search d b alpha beta m).1, col) w'
      ∧ heap w `prefix_of` heap w'
      ∧ column_spec d b (search d b alpha beta m).2 col.
Proof.
  induction d as [|d IH]; intros l b alpha beta m w Hb Hwf.
  - exists None, w. cbn [minimax]. by rewrite bind_run, (deref_run l b w Hb).
  - cbn [minimax search]. rewrite bind_run, (deref_run l b w Hb).
    unfold column_spec, is_leaf. cbn [Nat.eqb orb].
    destruct (is_terminal b).1 eqn:Hrun; [by exists None, w|].
    pose proof (non_terminal_valid b Hwf Hrun) as Hvalid.
    change (filter (λ c, c ∈ valid_locations b) ordered_columns)
      with (search_order b).
    assert (∀ m', computes (λ tmp a b', minimax entropy d tmp a b' m')
                           (λ t a b', (search d t a b' m').1)) as Hrec.
    { intros m' t tmp a b' w0 Hwft Ht.
      destruct (IH tmp t a b' m' w0 Ht Hwft) as (col & w' & Hrun' & Hpre & _).
      by exists col, w'. }
    destruct m.
    + destruct (immediate_win_run l b COMPUTER Hwf (search_order b) w Hb)
        as (w1 & Hshort & Hpre1 & _).
      rewrite bind_run, Hshort.
      destruct (find _ _) as [c|] eqn:Hfind.
      * exists (Some c), w1. repeat split; try done.
        exists c. repeat split; try done; [|by left].
        by apply find_wins_at in Hfind as [? _].
      * destruct (max_loop_run _ _ l b Hwf (Hrec false) (search_order b)
                    NegInf None alpha beta w1) as (w2 & Hloop & Hpre2).
        { by eapply prefix_lookup_Some. }
        { by apply search_order_dropped. }
        rewrite bind_run, Hloop.
        pose proof (max_scan_best_elem
          (λ t a b', (search d t a b' false).1) b (search_order b)) as Helem.
        destruct (max_scan (λ t a b', (search d t a b' false).1) b
                    (search_order b) NegInf None alpha beta)
          as [value kept] eqn:Hscan.
        destruct (or_random_run b kept w2 Hvalid) as (c & w3 & Hor & Hheap & Hc & Hk).
        { intros c Hc. destruct (Helem c NegInf None alpha beta) as [?|?];
            [by rewrite Hscan | by apply elem_of_search_order | done]. }
        rewrite bind_run, Hor. exists (Some c), w3. repeat split.
        -- rewrite Hheap. by etrans.
        -- by exists c.
    + destruct (immediate_win_run l b PLAYER Hwf (search_order b) w Hb)
        as (w1 & Hshort & Hpre1 & _).
      rewrite bind_run, Hshort.
      destruct (find _ _) as [c|] eqn:Hfind.
      * exists (Some c), w1. repeat split; try done.
        exists c. repeat split; try done; [|by left].
        by apply find_wins_at in Hfind as [? _].
      * destruct (min_loop_run _ _ l b Hwf (Hrec true) (search_order b)
                    PosInf None alpha beta w1) as (w2 & Hloop & Hpre2).
        { by eapply prefix_lookup_Some. }
        { by apply search_order_dropped. }
        rewrite bind_run, Hloop.
        pose proof (min_scan_best_elem
          (λ t a b', (search d t a b' true).1) b (search_order b)) as Helem.
        destruct (min_scan (λ t a b', (search d t a b' true).1) b
                    (search_order b) PosInf None alpha beta)
          as [value kept] eqn:Hscan.
        destruct (or_random_run b kept w2 Hvalid) as (c & w3 & Hor & Hheap & Hc & Hk).
        { intros c Hc. destruct (Helem c PosInf None alpha beta) as [?|?];
            [by rewrite Hscan | by apply elem_of_search_order | done]. }
        rewrite bind_run, Hor. exists (Some c), w3. repeat split.
        -- rewrite Hheap. by etrans.
        -- by exists c.
Qed.

End SearchRuns.

(** ** Immediate wins *)

Lemma terminal_win_has_four (t : Board) (side : Z) :
  wf_board t → side = PLAYER ∨ side = COMPUTER →
  is_terminal t = (true, Some side) → has_four t side = true.
Proof.
  intros Hwf Hside. rewrite (is_terminal_cases t Hwf).
  destruct (has_four t PLAYER) eqn:HP, (has_four t COMPUTER) eqn:HC,
    (grid_full t), Hside as [-> | ->]; try done.
Qed.

(** On a board where the game goes on, the test of the shortcuts
    ([check_win] on the simulated drop) finds exactly the winning drops. *)
Lemma wins_at_wins_immediately (b : Board) (side : Z) (c : nat) :
  wf_board b → (is_terminal b).1 = false →
  side = PLAYER ∨ side = COMPUTER →
  wins_at b side c = true ↔ wins_immediately b side c.
Proof.
  intros Hwf Hrun Hside. unfold wins_at, wins_immediately. split.
  - destruct (dropped b c side) as [[t r]|] eqn:Hdrop; [|done].
    intros Hwin. exists t, r. split; [done|].
    by eapply winning_drop_terminal.
  - intros (t & r & Hdrop & Hterm). rewrite Hdrop.
    destruct (dropped_Some b t c r side Hwf Hdrop) as (Hwft & Hc & Hlow & Hcells).
    assert (cell t r c = side) as Hcell by (rewrite Hcells, decide_True; done).
    apply terminal_win_has_four, has_four_true in Hterm as (w & Hfit & Hfill);
      [|done..].
    apply check_win_true; [apply Hlow | done |].
    exists w. rewrite Hcell. split; [done|]. split; [|done].
    destruct (decide (Exists (λ i, window_cell w i = (r, c)) (seq 0 4)))
      as [Hex|Hnone].
    + apply Exists_exists in Hex as (i & _ & Hi).
      destruct w as [[] [r0 c0]]; simpl in *; try done; inversion Hi; lia.
    + exfalso. destruct (non_terminal_cases b Hwf Hrun) as (HnoP & HnoC & _).
      assert (has_four b side = true) as Hfour.
      { apply has_four_true. exists w. split; [done|].
        rewrite filled_with_true in *. intros i Hi.
        specialize (Hfill i Hi). rewrite Hcells in Hfill.
        destruct (decide _) as [[Hr Hc']|]; [|done].
        exfalso. apply Hnone, Exists_exists. exists i.
        split; [apply elem_of_seq; lia|].
        destruct (window_cell w i); simpl in *; by subst. }
      destruct Hside as [-> | ->]; congruence.
Qed.

Lemma filter_wins_at_head (b : Board) (side : Z) (c : nat) (rest : list nat) :
  List.filter (wins_at b side) (valid_locations b) = c :: rest →
  c ∈ valid_locations b ∧ wins_at b side c = true.
Proof.
  intros Heq.
  assert (In c (List.filter (wins_at b side) (valid_locations b))) as Hin
    by (rewrite Heq; by left).
  apply filter_In in Hin as [Hin Hwin]. split; [by apply list_elem_of_In | done].
Qed.

Lemma filter_wins_at_nil (b : Board) (side : Z) (c : nat) :
  List.filter (wins_at b side) (valid_locations b) = [] →
  wins_at b side c = true → c ∉ valid_locations b.
Proof.
  intros Heq Hwin Hin.
  assert (In c (List.filter (wins_at b side) (valid_locations b))) as Hin'
    by (apply filter_In; split; [by apply list_elem_of_In | done]).
  by rewrite Heq in Hin'.
Qed.

Lemma wins_at_valid (b : Board) (side : Z) (c : nat) :
  wins_at b side c = true → c ∈ valid_locations b.
Proof.
  unfold wins_at. destruct (dropped b c side) as [[t r]|] eqn:Hdrop; [|done].
  intros _. by eapply dropped_valid.
Qed.

Section SearchClaims.

Variable entropy : nat → nat.

(** The three tiers of [ai_best_move], run on a board with a legal column. *)
Lemma ai_best_move_run (l : loc) (b : Board) (w : world) :
  heap w !! l = Some b → wf_board b → valid_locations b ≠ [] →
  ∃ w1 w2,
    winning_moves l COMPUTER w
      = Ok (List.filter (wins_at b COMPUTER) (valid_locations b)) w1 ∧
    winning_moves l PLAYER w1
      = Ok (List.filter (wins_at b PLAYER) (valid_locations b)) w2 ∧
    heap w `prefix_of` heap w1 ∧ draws w1 = draws w ∧
    heap w1 `prefix_of` heap w2 ∧ draws w2 = draws w ∧
    match List.filter (wins_at b COMPUTER) (valid_locations b) with
    | c :: _ => ai_best_move entropy l w = Ok c w1
    | [] =>
        match List.filter (wins_at b PLAYER) (valid_locations b) with
        | c :: _ => ai_best_move entropy l w = Ok c w2
        | [] =>
            ∃ s col w3 c w',
              minimax entropy AI_DEPTH l NegInf PosInf true w2 = Ok (s, col) w3 ∧
              heap w2 `prefix_of` heap w3 ∧ heap w' = heap w3 ∧
              ai_best_move entropy l w = Ok c w' ∧
              c ∈ valid_locations b ∧
              (if is_leaf AI_DEPTH b then col = None else col = Some c ∧ w' = w3)
        end
    end.
Proof.
  intros Hb Hwf Hvalid.
  destruct (winning_moves_run l b COMPUTER w Hwf Hb) as (w1 & Hwins & Hpre1 & Hd1).
  assert (heap w1 !! l = Some b) as Hb1 by by eapply prefix_lookup_Some.
  destruct (winning_moves_run l b PLAYER w1 Hwf Hb1) as (w2 & Hopp & Hpre2 & Hd2).
  assert (heap w2 !! l = Some b) as Hb2 by by eapply prefix_lookup_Some.
  exists w1, w2. repeat split; try done; [congruence|].
  unfold ai_best_move. rewrite bind_run, Hwins.
  destruct (List.filter (wins_at b COMPUTER) _) as [|c rest]; [|done].
  rewrite bind_run, Hopp.
  destruct (List.filter (wins_at b PLAYER) _) as [|c rest]; [|done].
  destruct (minimax_run entropy AI_DEPTH l b NegInf PosInf true w2 Hb2 Hwf)
    as (col & w3 & Hrun & Hpre3 & Hcol).
  rewrite bind_run, Hrun. unfold column_spec in Hcol.
  destruct (is_leaf AI_DEPTH b).
  - subst col.
    assert (heap w3 !! l = Some b) as Hb3 by by eapply prefix_lookup_Some.
    rewrite bind_run, (deref_run l b w3 Hb3).
    destruct (random_choice_run entropy (valid_locations b) w3 Hvalid)
      as (c & Hchoice & Hc).
    exists (search AI_DEPTH b NegInf PosInf true).1, None, w3, c,
      {| heap := heap w3; draws := S (draws w3) |}.
    rewrite Hchoice. by repeat split.
  - destruct Hcol as (c & -> & Hc & _).
    exists (search AI_DEPTH b NegInf PosInf true).1, (Some c), w3, c, w3.
    by repeat split.
Qed.

End SearchClaims.

Section SearchTheorems.

Variable entropy : nat → nat.

Lemma is_leaf_running (d : nat) (b : Board) :
  (is_terminal b).1 = false → is_leaf (S d) b = false.
Proof. intros H. unfold is_leaf. by rewrite H. Qed.

(** C8: on a board where the game goes on there is a legal column, and
    [minimax] at any depth of at least 1, like [ai_best_move], returns a
    column of [valid_locations]. *)
Theorem search_returns_legal_column (d : nat) (l : loc) (b : Board)
    (alpha beta : Score) (m : bool) (w : world) :
  heap w !! l = Some b → wf_board b → (is_terminal b).1 = false →
  valid_locations b ≠ [] ∧
  (∃ s c w', minimax entropy (S d) l alpha beta m w = Ok (s, Some c) w'
             ∧ c ∈ valid_locations b) ∧
  (∃ c w', ai_best_move entropy l w = Ok c w' ∧ c ∈ valid_locations b).
Proof.
  intros Hb Hwf Hrun.
  pose proof (non_terminal_valid b Hwf Hrun) as Hvalid.
  split; [done|]. split.
  - destruct (minimax_run entropy (S d) l b alpha beta m w Hb Hwf)
      as (col & w' & Hmm & _ & Hcol).
    unfold column_spec in Hcol. rewrite (is_leaf_running d b Hrun) in Hcol.
    destruct Hcol as (c & -> & Hc & _). by eexists _, c, w'.
  - destruct (ai_best_move_run entropy l b w Hb Hwf Hvalid)
      as (w1 & w2 & _ & _ & _ & _ & _ & _ & Hai).
    destruct (List.filter (wins_at b COMPUTER) _) as [|c rest] eqn:Hwins.
    + destruct (List.filter (wins_at b PLAYER) _) as [|c rest] eqn:Hopp.
      * destruct Hai as (s & col & w3 & c & w' & _ & _ & _ & Hrun' & Hc & _).
        by exists c, w'.
      * exists c, w2. split; [done|]. by eapply filter_wins_at_head.
    + exists c, w1. split; [done|]. by eapply filter_wins_at_head.
Qed.

(** C10: [minimax], and [ai_best_move] on a board with a legal column,
    return with every board the store held before the call unchanged, the
    caller's board among them: the store only grows by the copies the
    simulated drops made. *)
Theorem search_leaves_boards_unchanged (d : nat) (l : loc) (b : Board)
    (alpha beta : Score) (m : bool) (w : world) :
  heap w !! l = Some b → wf_board b →
  (∃ res w', minimax entropy d l alpha beta m w = Ok res w'
             ∧ heap w `prefix_of` heap w' ∧ heap w' !! l = Some b) ∧
  (valid_locations b ≠ [] →
   ∃ c w', ai_best_move entropy l w = Ok c w'
           ∧ heap w `prefix_of` heap w' ∧ heap w' !! l = Some b).
Proof.
  intros Hb Hwf. split.
  - destruct (minimax_run entropy d l b alpha beta m w Hb Hwf)
      as (col & w' & Hmm & Hpre & _).
    eexists _, w'. split; [done|]. split; [done|]. by eapply prefix_lookup_Some.
  - intros Hvalid.
    destruct (ai_best_move_run entropy l b w Hb Hwf Hvalid)
      as (w1 & w2 & _ & _ & Hpre1 & _ & Hpre2 & _ & Hai).
    assert (heap w `prefix_of` heap w2) as Hpre12 by by etrans.
    destruct (List.filter (wins_at b COMPUTER) _) as [|c rest].
    + destruct (List.filter (wins_at b PLAYER) _) as [|c rest].
      * destruct Hai as (s & col & w3 & c & w' & _ & Hpre3 & Hheap & Hrun' & _).
        assert (heap w `prefix_of` heap w') as Hpre by (rewrite Hheap; by etrans).
        exists c, w'. split; [done|]. split; [done|]. by eapply prefix_lookup_Some.
      * exists c, w2. split; [done|]. split; [done|]. by eapply prefix_lookup_Some.
    + exists c, w1. split; [done|]. split; [done|]. by eapply prefix_lookup_Some.
Qed.

(** C4: at any ply with depth left on a board where the game goes on, if
    some column wins at once for the side to move, [minimax] returns right
    after its shortcut loop, with plus infinity (COMPUTER to move) or minus
    infinity (PLAYER to move) and such a column; no recursive call is
    made. *)
Theorem minimax_takes_immediate_win (d : nat) (l : loc) (b : Board)
    (alpha beta : Score) (m : bool) (w : world) (c0 : nat) :
  heap w !! l = Some b → wf_board b → (is_terminal b).1 = false →
  wins_immediately b (side_to_move m) c0 →
  ∃ c w',
    immediate_win l (side_to_move m) (search_order b) w = Ok (Some c) w' ∧
    minimax entropy (S d) l alpha beta m w
      = Ok (if m then PosInf else NegInf, Some c) w' ∧
    c ∈ search_order b ∧ wins_immediately b (side_to_move m) c.
Proof.
  intros Hb Hwf Hrun Hwin.
  assert (side_to_move m = PLAYER ∨ side_to_move m = COMPUTER) as Hside
    by (destruct m; [by right | by left]).
  apply (wins_at_wins_immediately b _ c0 Hwf Hrun Hside) in Hwin.
  destruct (find (wins_at b (side_to_move m)) (search_order b)) as [c|] eqn:Hfind.
  2:{ pose proof (find_none _ _ Hfind c0) as Hnone.
      rewrite Hnone in Hwin; [done|].
      by apply list_elem_of_In, elem_of_search_order, (wins_at_valid b (side_to_move m)). }
  destruct (immediate_win_run l b (side_to_move m) Hwf (search_order b) w Hb)
    as (w1 & Hshort & _ & _).
  rewrite Hfind in Hshort. exists c, w1. split; [done|].
  pose proof Hfind as [Hin Hc]%find_some.
  split; [|split; [by apply list_elem_of_In
                  | by apply (wins_at_wins_immediately b _ c Hwf Hrun Hside)]].
  cbn [minimax]. rewrite bind_run, (deref_run l b w Hb), Hrun.
  change (filter (λ c, c ∈ valid_locations b) ordered_columns)
    with (search_order b).
  destruct m; cbn [side_to_move] in *; by rewrite bind_run, Hshort.
Qed.

(** C5: called with the full window, [minimax] returns the plain minimax
    value of the board, and the column it returns leads to a board whose
    plain minimax value, one ply deeper, is that value. *)
Theorem alpha_beta_is_plain_minimax (d : nat) (l : loc) (b : Board)
    (m : bool) (w : world) :
  heap w !! l = Some b → wf_board b →
  ∃ col w',
    minimax entropy d l NegInf PosInf m w = Ok (plain_minimax d b m, col) w' ∧
    ∀ c, col = Some c →
      ∃ t r, dropped b c (side_to_move m) = Some (t, r) ∧
             plain_minimax (d - 1) t (negb m) = plain_minimax d b m.
Proof.
  intros Hb Hwf.
  destruct (minimax_run entropy d l b NegInf PosInf m w Hb Hwf)
    as (col & w' & Hmm & _ & Hcol).
  rewrite (search_full_window d b m Hwf) in Hmm.
  exists col, w'. split; [done|]. intros c ->.
  unfold column_spec, is_leaf in Hcol.
  destruct d as [|d]; [done|]. cbn [Nat.eqb orb] in Hcol.
  destruct (is_terminal b).1 eqn:Hrun; [done|].
  destruct Hcol as (c' & [= <-] & Hc & Hkept).
  replace (S d - 1) with d by lia.
  destruct (search_full_column d b m Hwf Hrun) as [Hsome Hnone].
  rewrite (search_full_window (S d) b m Hwf) in Hsome, Hnone.
  destruct Hkept as [Hk|Hk]; [by apply Hsome | by apply Hnone].
Qed.

(** C3: on a board where the game goes on, [ai_best_move] returns a column
    that wins at once for COMPUTER if there is one, without searching;
    otherwise a column that would win at once for PLAYER if there is one,
    without searching; otherwise the column [minimax] returns at depth
    [AI_DEPTH] with the full window. *)
Theorem ai_best_move_policy (l : loc) (b : Board) (w : world) :
  heap w !! l = Some b → wf_board b → (is_terminal b).1 = false →
  ((∃ c, wins_immediately b COMPUTER c) →
   ∃ c rest w',
     winning_moves l COMPUTER w = Ok (c :: rest) w' ∧
     ai_best_move entropy l w = Ok c w' ∧
     wins_immediately b COMPUTER c) ∧
  ((∀ c, ¬ wins_immediately b COMPUTER c) →
   (∃ c, wins_immediately b PLAYER c) →
   ∃ c rest w1 w',
     winning_moves l COMPUTER w = Ok [] w1 ∧
     winning_moves l PLAYER w1 = Ok (c :: rest) w' ∧
     ai_best_move entropy l w = Ok c w' ∧
     wins_immediately b PLAYER c) ∧
  ((∀ c, ¬ wins_immediately b COMPUTER c) →
   (∀ c, ¬ wins_immediately b PLAYER c) →
   ∃ w0 s c w',
     heap w `prefix_of` heap w0 ∧ draws w0 = draws w ∧
     minimax entropy AI_DEPTH l NegInf PosInf true w0 = Ok (s, Some c) w' ∧
     ai_best_move entropy l w = Ok c w').
Proof.
  intros Hb Hwf Hrun.
  pose proof (non_terminal_valid b Hwf Hrun) as Hvalid.
  destruct (ai_best_move_run entropy l b w Hb Hwf Hvalid)
    as (w1 & w2 & Hwins & Hopp & Hpre1 & Hd1 & Hpre2 & Hd2 & Hai).
  assert (∀ side, side = PLAYER ∨ side = COMPUTER →
            (∃ c, wins_immediately b side c) →
            ∃ c rest, List.filter (wins_at b side) (valid_locations b) = c :: rest)
    as Hsome.
  { intros side Hside [c Hc].
    apply (wins_at_wins_immediately b side c Hwf Hrun Hside) in Hc.
    destruct (List.filter (wins_at b side) _) as [|c' rest] eqn:Hf; [|by eauto].
    destruct (filter_wins_at_nil b side c Hf Hc). by eapply wins_at_valid. }
  assert (∀ side, side = PLAYER ∨ side = COMPUTER →
            (∀ c, ¬ wins_immediately b side c) →
            List.filter (wins_at b side) (valid_locations b) = []) as Hnone.
  { intros side Hside Hno.
    destruct (List.filter (wins_at b side) _) as [|c rest] eqn:Hf; [done|].
    destruct (filter_wins_at_head b side c rest Hf) as [_ Hc].
    destruct (Hno c). by apply (wins_at_wins_immediately b side c Hwf Hrun Hside). }
  split; [|split].
  - intros Hex. destruct (Hsome COMPUTER (or_intror eq_refl) Hex) as (c & rest & Hf).
    rewrite Hf in Hwins, Hai. exists c, rest, w1. repeat split; try done.
    apply (wins_at_wins_immediately b COMPUTER c Hwf Hrun (or_intror eq_refl)).
    by eapply filter_wins_at_head.
  - intros Hno Hex. rewrite (Hnone COMPUTER (or_intror eq_refl) Hno) in Hwins, Hai.
    destruct (Hsome PLAYER (or_introl eq_refl) Hex) as (c & rest & Hf).
    rewrite Hf in Hopp, Hai. exists c, rest, w1, w2. repeat split; try done.
    apply (wins_at_wins_immediately b PLAYER c Hwf Hrun (or_introl eq_refl)).
    by eapply filter_wins_at_head.
  - intros HnoC HnoP.
    rewrite (Hnone COMPUTER (or_intror eq_refl) HnoC),
            (Hnone PLAYER (or_introl eq_refl) HnoP) in Hai.
    destruct Hai as (s & col & w3 & c & w' & Hmm & Hpre3 & Hheap & Hmove & Hc & Hcol).
    unfold AI_DEPTH in Hcol at 1. rewrite (is_leaf_running 4 b Hrun) in Hcol.
    destruct Hcol as [-> ->]. exists w2, s, c, w3.
    split; [by etrans|]. by repeat split.
Qed.

End SearchTheorems.

(** ** The theorems of the search at concrete inputs *)

Lemma search_returns_legal_column_witness :
  valid_locations create_board ≠ [] ∧
  (∃ s c w', minimax (λ _, 0) 1 0 NegInf PosInf true (World [create_board] 0)
             = Ok (s, Some c) w' ∧ c ∈ valid_locations create_board) ∧
  (∃ c w', ai_best_move (λ _, 0) 0 (World [create_board] 0) = Ok c w'
           ∧ c ∈ valid_locations create_board).
Proof.
  apply (search_returns_legal_column (λ _, 0) 0 0 create_board NegInf PosInf
           true (World [create_board] 0)).
  - reflexivity.
  - reflexivity.
  - vm_compute. reflexivity.
Defined.

Lemma search_leaves_boards_unchanged_witness :
  ∃ res w',
    minimax (λ _, 0) 2 0 NegInf PosInf true (World [threat_board] 0) = Ok res w'
    ∧ [threat_board] `prefix_of` heap w' ∧ heap w' !! 0 = Some threat_board.
Proof.
  apply (search_leaves_boards_unchanged (λ _, 0) 2 0 threat_board NegInf PosInf
           true (World [threat_board] 0)).
  - reflexivity.
  - reflexivity.
Defined.

Lemma minimax_takes_immediate_win_witness :
  ∃ c w',
    immediate_win 0 COMPUTER (search_order threat_board) (World [threat_board] 0)
      = Ok (Some c) w' ∧
    minimax (λ _, 0) 3 0 (Fin 0) (Fin 1) true (World [threat_board] 0)
      = Ok (PosInf, Some c) w' ∧
    c ∈ search_order threat_board ∧ wins_immediately threat_board COMPUTER c.
Proof.
  apply (minimax_takes_immediate_win (λ _, 0) 2 0 threat_board (Fin 0) (Fin 1)
           true (World [threat_board] 0) 3).
  - reflexivity.
  - reflexivity.
  - vm_compute. reflexivity.
  - exists threat_board_won, 0. split; vm_compute; reflexivity.
Defined.

Lemma alpha_beta_is_plain_minimax_witness :
  ∃ col w',
    minimax (λ _, 0) 1 0 NegInf PosInf false (World [threat_board] 0)
      = Ok (plain_minimax 1 threat_board false, col) w' ∧
    ∀ c, col = Some c →
      ∃ t r, dropped threat_board c PLAYER = Some (t, r) ∧
             plain_minimax 0 t true = plain_minimax 1 threat_board false.
Proof.
  apply (alpha_beta_is_plain_minimax (λ _, 0) 1 0 threat_board false
           (World [threat_board] 0)).
  - reflexivity.
  - reflexivity.
Defined.

Lemma ai_best_move_policy_witness :
  ∃ c rest w',
    winning_moves 0 COMPUTER (World [threat_board] 0) = Ok (c :: rest) w' ∧
    ai_best_move (λ _, 0) 0 (World [threat_board] 0) = Ok c w' ∧
    wins_immediately threat_board COMPUTER c.
Proof.
  refine (proj1 (ai_best_move_policy (λ _, 0) 0 threat_board
                   (World [threat_board] 0) _ _ _) _).
  - reflexivity.
  - reflexivity.
  - vm_compute. reflexivity.
  - exists 3, threat_board_won, 0. split; vm_compute; reflexivity.
Defined.

(** ** The model runs *)

Example ai_best_move_wins_now :
  ∃ w', ai_best_move (λ _, 0) 0 (World [threat_board] 0) = Ok 3 w'.
Proof. eexists. vm_compute. reflexivity. Qed.

Example minimax_first_move :
  ∃ w', minimax (λ _, 0) 2 0 NegInf PosInf true (World [create_board] 0)
        = Ok (Fin 10, Some 3) w'.
Proof. eexists. vm_compute. reflexivity. Qed.

Example three_in_a_column_is_no_win :
  let b := [ [0; 0; 0; 1; 0; 0; 0]; [0; 0; 0; 1; 0; 0; 0]; [0; 0; 0; 1; 0; 0; 0];
             [0; 0; 0; 0; 0; 0; 0]; [0; 0; 0; 0; 0; 0; 0]; [0; 0; 0; 0; 0; 0; 0] ]%Z in
  is_terminal b = (false, None) ∧
  ∃ t r, dropped b 3 PLAYER = Some (t, r) ∧ is_terminal t = (true, Some PLAYER).
Proof. split; [reflexivity|]. eexists _, _. split; reflexivity. Qed.

(** * Properties of the game around the engine *)

(** ** Legal columns *)

Lemma StronglySorted_filter {A} (R : A → A → Prop) (P : A → Prop)
    `{∀ x, Decision (P x)} (l : list A) :
  StronglySorted R l → StronglySorted R (filter P l).
Proof.
  induction 1 as [|x l Hsorted IH Hall]; [constructor|].
  rewrite filter_cons. destruct (decide (P x)); [|done].
  constructor; [done|]. apply Forall_forall. intros y Hy.
  apply list_elem_of_filter in Hy as [_ Hy].
  by apply (proj1 (Forall_forall _ _) Hall).
Qed.

Lemma StronglySorted_List_filter {A} (R : A → A → Prop) (p : A → bool)
    (l : list A) :
  StronglySorted R l → StronglySorted R (List.filter p l).
Proof.
  induction 1 as [|x l Hsorted IH Hall]; [constructor|].
  simpl. destruct (p x); [|done].
  constructor; [done|]. apply Forall_forall. intros y Hy.
  apply list_elem_of_In, filter_In in Hy as [Hy _].
  apply (proj1 (Forall_forall _ _) Hall). by apply list_elem_of_In.
Qed.

Lemma StronglySorted_seq (j n : nat) : StronglySorted lt (seq j n).
Proof.
  revert j. induction n as [|n IH]; intros j; simpl; constructor; [apply IH|].
  apply Forall_forall. intros y Hy%elem_of_seq. lia.
Qed.

Lemma column_has_empty_cell (b : Board) (c : nat) :
  is_Some (check_available_row b (Z.of_nat c)) ↔
  c < COLUMN_COUNT ∧ ∃ r, r < ROW_COUNT ∧ cell b r c = EMPTY.
Proof.
  split.
  - intros [r Hr]. apply check_available_row_Some in Hr as [Hc (Hr & Hempty & _)].
    rewrite Nat2Z.id in Hempty. split; [unfold COLUMN_COUNT in *; lia|].
    by exists r.
  - intros (Hc & r & Hr & Hempty).
    destruct (check_available_row b (Z.of_nat c)) as [r0|] eqn:Hrow; [by eexists|].
    apply check_available_row_None in Hrow as [?|[?|Hfull]];
      [lia | unfold COLUMN_COUNT in *; lia |].
    rewrite Nat2Z.id in Hfull. by destruct (Hfull r Hr).
Qed.

(** X1: [valid_locations] lists, from left to right and each once, exactly the
    columns of the grid that still have an empty cell. *)
Theorem valid_locations_legal (b : Board) :
  (∀ c, c ∈ valid_locations b ↔
        c < COLUMN_COUNT ∧ ∃ r, r < ROW_COUNT ∧ cell b r c = EMPTY) ∧
  NoDup (valid_locations b) ∧
  StronglySorted lt (valid_locations b).
Proof.
  split; [|split].
  - intros c. rewrite elem_of_valid_locations. apply column_has_empty_cell.
  - apply NoDup_filter, NoDup_seq.
  - apply StronglySorted_filter, StronglySorted_seq.
Qed.

Lemma grid_full_valid_locations (b : Board) :
  grid_full b = true ↔ valid_locations b = [].
Proof.
  unfold grid_full. rewrite forallb_forall. split.
  - intros Hfull. apply elem_of_nil_inv. intros c Hc.
    apply elem_of_valid_locations, column_has_empty_cell in Hc
      as (Hc & r & Hr & Hempty).
    assert (In (r, c) grid_cells) as Hin
      by by apply list_elem_of_In, elem_of_grid_cells.
    specialize (Hfull (r, c) Hin). simpl in Hfull.
    rewrite Hempty in Hfull. discriminate Hfull.
  - intros Hnone [r c] Hin. simpl.
    apply list_elem_of_In, elem_of_grid_cells in Hin as [Hr Hc].
    apply negb_true_iff, Z.eqb_neq. intros Hempty.
    assert (c ∈ valid_locations b) as Hv.
    { apply elem_of_valid_locations, column_has_empty_cell. eauto. }
    rewrite Hnone in Hv. by apply not_elem_of_nil in Hv.
Qed.

(** X2: on a board of the right shape, [board_full] holds exactly when no column
    is legal. *)
Theorem board_full_no_legal_column (b : Board) :
  wf_board b → board_full b = true ↔ valid_locations b = [].
Proof.
  intros Hwf. rewrite (board_full_grid b Hwf). apply grid_full_valid_locations.
Qed.

Lemma board_full_no_legal_column_witness :
  board_full full_column_board = true ↔ valid_locations full_column_board = [].
Proof. apply (board_full_no_legal_column full_column_board). reflexivity. Defined.

(** ** The order of the search *)

Lemma ordered_columns_centre_out :
  StronglySorted (λ c c', centre_distance c ≤ centre_distance c') ordered_columns.
Proof.
  rewrite ordered_columns_eq.
  repeat (constructor; [|repeat (constructor; [vm_compute; lia|]); constructor]).
  constructor.
Qed.

(** X3: the columns [minimax] tries are exactly the legal columns, each once,
    the nearest to the centre column first. *)
Theorem search_order_centre_out (b : Board) :
  search_order b ≡ₚ valid_locations b ∧
  NoDup (search_order b) ∧
  StronglySorted (λ c c', centre_distance c ≤ centre_distance c') (search_order b).
Proof.
  split; [apply search_order_Permutation|]. split.
  - rewrite search_order_Permutation. apply NoDup_filter, NoDup_seq.
  - apply StronglySorted_filter, ordered_columns_centre_out.
Qed.

(** ** Winning moves *)

(** X4: [winning_moves] returns, from left to right, exactly the legal columns
    whose simulated drop [check_win] accepts; on a board where the game goes
    on these are the columns that win at once.  It draws no random number
    and changes no board of the store. *)
Theorem winning_moves_exact (l : loc) (b : Board) (side : Z) (w : world) :
  heap w !! l = Some b → wf_board b →
  ∃ wins w',
    winning_moves l side w = Ok wins w' ∧
    heap w `prefix_of` heap w' ∧ draws w' = draws w ∧
    StronglySorted lt wins ∧
    (∀ c, c ∈ wins ↔ wins_at b side c = true) ∧
    ((is_terminal b).1 = false → side = PLAYER ∨ side = COMPUTER →
     ∀ c, c ∈ wins ↔ wins_immediately b side c).
Proof.
  intros Hb Hwf.
  destruct (winning_moves_run l b side w Hwf Hb) as (w' & Hrun & Hpre & Hdraws).
  exists (List.filter (wins_at b side) (valid_locations b)), w'.
  assert (∀ c, c ∈ List.filter (wins_at b side) (valid_locations b)
               ↔ wins_at b side c = true) as Hmem.
  { intros c. rewrite list_elem_of_In, filter_In, <- list_elem_of_In.
    split; [tauto|]. intros Hc. split; [by eapply wins_at_valid | done]. }
  repeat split; try done.
  - apply StronglySorted_List_filter, StronglySorted_filter, StronglySorted_seq.
  - by apply Hmem.
  - by apply Hmem.
  - intros Hc. by apply wins_at_wins_immediately, Hmem.
  - intros Hc. by apply Hmem, wins_at_wins_immediately.
Qed.

Lemma winning_moves_exact_witness :
  ∃ wins w',
    winning_moves 0 COMPUTER (World [threat_board] 0) = Ok wins w' ∧
    heap (World [threat_board] 0) `prefix_of` heap w' ∧
    draws w' = draws (World [threat_board] 0) ∧
    StronglySorted lt wins ∧
    (∀ c, c ∈ wins ↔ wins_at threat_board COMPUTER c = true) ∧
    ((is_terminal threat_board).1 = false → COMPUTER = PLAYER ∨ COMPUTER = COMPUTER →
     ∀ c, c ∈ wins ↔ wins_immediately threat_board COMPUTER c).
Proof.
  apply (winning_moves_exact 0 threat_board COMPUTER (World [threat_board] 0));
    reflexivity.
Defined.

(** ** Mouse positions and discs *)

Lemma col_from_mouse_span (x : Z) :
  (100 * col_from_mouse x ≤ x < 100 * (col_from_mouse x + 1))%Z.
Proof.
  unfold col_from_mouse, SQUARESIZE.
  pose proof (Z.div_mod x 100 ltac:(lia)).
  pose proof (Z.mod_pos_bound x 100 ltac:(lia)). lia.
Qed.

(** X5: a mouse position selects a column of the grid exactly when it lies
    inside the window's width, and then it lies in the pixel span of that
    column. *)
Theorem col_from_mouse_column (x : Z) :
  ((0 ≤ col_from_mouse x < Z.of_nat COLUMN_COUNT)%Z ↔ (0 ≤ x < WIDTH)%Z) ∧
  (SQUARESIZE * col_from_mouse x ≤ x < SQUARESIZE * (col_from_mouse x + 1))%Z.
Proof.
  pose proof (col_from_mouse_span x).
  unfold WIDTH, SQUARESIZE, COLUMN_COUNT. lia.
Qed.

Lemma disc_geometry (r c : nat) (x : Z) :
  r < ROW_COUNT → c < COLUMN_COUNT →
  let cx := (Z.of_nat c * SQUARESIZE + SQUARESIZE / 2)%Z in
  let cy := ((Z.of_nat ROW_COUNT - 1 - Z.of_nat r + 1) * SQUARESIZE + SQUARESIZE / 2)%Z in
  let radius := (SQUARESIZE / 2 - 5)%Z in
  ((cx - radius ≤ x ≤ cx + radius)%Z → col_from_mouse x = Z.of_nat c) ∧
  (SQUARESIZE ≤ cy - radius)%Z ∧ (cy + radius ≤ HEIGHT - SQUARESIZE)%Z ∧
  cy = (HEIGHT - SQUARESIZE - SQUARESIZE * Z.of_nat r - SQUARESIZE / 2)%Z.
Proof.
  unfold HEIGHT, ROW_COUNT, COLUMN_COUNT, SQUARESIZE, col_from_mouse.
  intros Hr Hc. cbv zeta.
  change (100 / 2)%Z with 50%Z. change (Z.of_nat 6) with 6%Z.
  split; [|lia].
  intros Hx. symmetry. apply (Z.div_unique x 100 _ (x - Z.of_nat c * 100)); lia.
Qed.

(** X6: [draw_board] draws one disc for every piece of the grid, red for PLAYER
    and yellow for COMPUTER, and no other red or yellow disc.  Every pixel
    column a disc covers belongs to the grid column of its piece, so a click
    on a disc selects that column; every disc lies between the top bar and
    the bottom bar; and row 0 is drawn lowest. *)
Theorem draw_board_discs (b : Board) :
  (∀ r c, r < ROW_COUNT → c < COLUMN_COUNT →
     cell b r c = PLAYER ∨ cell b r c = COMPUTER →
     DrawCircle (if (cell b r c =? PLAYER)%Z then RED else YELLOW)
       (Z.of_nat c * SQUARESIZE + SQUARESIZE / 2,
        HEIGHT - SQUARESIZE - SQUARESIZE * Z.of_nat r - SQUARESIZE / 2)%Z
       (SQUARESIZE / 2 - 5)%Z ∈ draw_board b) ∧
  (∀ color centre radius,
     DrawCircle color centre radius ∈ draw_board b →
     color = RED ∨ color = YELLOW →
     ∃ r c, r < ROW_COUNT ∧ c < COLUMN_COUNT ∧
       cell b r c = (if decide (color = RED) then PLAYER else COMPUTER) ∧
       (∀ x, (centre.1 - radius ≤ x ≤ centre.1 + radius)%Z →
             col_from_mouse x = Z.of_nat c) ∧
       (SQUARESIZE ≤ centre.2 - radius)%Z ∧
       (centre.2 + radius ≤ HEIGHT - SQUARESIZE)%Z ∧
       centre.2 = (HEIGHT - SQUARESIZE - SQUARESIZE * Z.of_nat r
                   - SQUARESIZE / 2)%Z).
Proof.
  split.
  - intros r c Hr Hc Hpiece. unfold draw_board. apply elem_of_app. right.
    apply list_elem_of_bind. exists c. split; [|apply elem_of_seq; lia].
    apply list_elem_of_bind. exists r. split; [|apply elem_of_seq; lia].
    destruct (disc_geometry r c 0 Hr Hc) as (_ & _ & _ & <-). cbv zeta.
    destruct Hpiece as [-> | ->]; simpl; apply list_elem_of_singleton; done.
  - intros color centre radius Hin Hcolor. unfold draw_board in Hin.
    apply elem_of_app in Hin as [Hin|Hin].
    + apply list_elem_of_bind in Hin as (c & Hin & _).
      apply list_elem_of_bind in Hin as (r & Hin & _).
      apply elem_of_cons in Hin as [Hin|Hin]; [done|].
      apply list_elem_of_singleton in Hin. injection Hin as -> _ _.
      by destruct Hcolor.
    + apply list_elem_of_bind in Hin as (c & Hin & Hc%elem_of_seq).
      apply list_elem_of_bind in Hin as (r & Hin & Hr%elem_of_seq).
      cbv zeta in Hin. exists r, c.
      assert (r < ROW_COUNT) as Hr' by lia.
      assert (c < COLUMN_COUNT) as Hc' by lia.
      split; [done|]. split; [done|].
      destruct (Z.eqb_spec (cell b r c) PLAYER) as [HP|HP].
      * apply list_elem_of_singleton in Hin. injection Hin as -> -> ->.
        rewrite decide_True by done. split; [done|].
        destruct (disc_geometry r c 0 Hr' Hc') as (_ & ? & ? & ?).
        repeat split; try done. intros x.
        by apply (disc_geometry r c x Hr' Hc').
      * destruct (Z.eqb_spec (cell b r c) COMPUTER) as [HC|HC];
          [|by apply not_elem_of_nil in Hin].
        apply list_elem_of_singleton in Hin. injection Hin as -> -> ->.
        rewrite decide_False by done. split; [done|].
        destruct (disc_geometry r c 0 Hr' Hc') as (_ & ? & ? & ?).
        repeat split; try done. intros x.
        by apply (disc_geometry r c x Hr' Hc').
Qed.

(** ** The row the game loops check *)

Lemma find_rev_seq (p : nat → bool) (n r : nat) :
  r < n → p r = true → (∀ r', r < r' < n → p r' = false) →
  find p (rev (seq 0 n)) = Some r.
Proof.
  induction n as [|n IH]; intros Hr Hp Habove; [lia|].
  rewrite seq_S, rev_app_distr. simpl.
  destruct (decide (r = n)) as [->|Hne]; [by rewrite Hp|].
  rewrite Habove by lia. apply IH; [lia | done |]. intros r' Hr'. apply Habove. lia.
Qed.

Lemma above_lowest_empty (b : Board) (c r r' : nat) :
  no_floating b → c < COLUMN_COUNT → cell b r c = EMPTY →
  r ≤ r' → r' < ROW_COUNT → cell b r' c = EMPTY.
Proof.
  intros Hgrav Hc Hempty Hle. induction Hle as [|r' Hle IH]; [done|].
  intros Hr'. destruct (decide (cell b (S r') c = EMPTY)) as [|Hne]; [done|].
  exfalso. apply (Hgrav r' c); [lia | done | by rewrite Nat.add_1_r |].
  apply IH. lia.
Qed.

(** On a board without floating pieces the row the loops pass to
    [check_win] is the row the piece landed in. *)
Lemma check_row_landing (b t : Board) (c r : nat) (player : Z) :
  wf_board b → no_floating b → player ≠ EMPTY →
  dropped b c player = Some (t, r) → check_row t c player = r.
Proof.
  intros Hwf Hgrav Hplayer Hdrop.
  destruct (dropped_Some b t c r player Hwf Hdrop) as (_ & Hc & (Hr & Hempty & _) & Hcells).
  unfold check_row. rewrite (find_rev_seq _ ROW_COUNT r); [done..| |].
  - rewrite Hcells, decide_True by done. apply Z.eqb_refl.
  - intros r' Hr'. rewrite Hcells, decide_False by lia.
    rewrite (above_lowest_empty b c r r' Hgrav Hc Hempty) by lia.
    by apply Z.eqb_neq.
Qed.

(** ** Fours before and after a drop *)

Lemma has_four_after_drop (b t : Board) (c r : nat) (v side : Z) :
  wf_board b → v ≠ EMPTY → dropped b c side = Some (t, r) →
  has_four b v = true → has_four t v = true.
Proof.
  intros Hwf Hv Hdrop.
  destruct (dropped_Some b t c r side Hwf Hdrop) as (_ & _ & (_ & Hempty & _) & Hcells).
  rewrite !has_four_true. intros (w & Hfit & Hfill). exists w. split; [done|].
  rewrite filled_with_true in *. intros i Hi. specialize (Hfill i Hi).
  rewrite Hcells. destruct (decide _) as [[Hr Hc]|]; [|done].
  rewrite Hr, Hc in Hfill. congruence.
Qed.

Lemma new_four_is_seen (b t : Board) (c r : nat) (side : Z) :
  wf_board b → has_four b side = false → dropped b c side = Some (t, r) →
  has_four t side = true → check_win t r c = true.
Proof.
  intros Hwf Hno Hdrop Hfour.
  destruct (dropped_Some b t c r side Hwf Hdrop) as (Hwft & Hc & Hlow & Hcells).
  assert (cell t r c = side) as Hcell by (rewrite Hcells, decide_True; done).
  apply has_four_true in Hfour as (w & Hfit & Hfill).
  apply check_win_true; [apply Hlow | done |].
  exists w. rewrite Hcell. split; [done|]. split; [|done].
  destruct (decide (Exists (λ i, window_cell w i = (r, c)) (seq 0 4)))
    as [Hex|Hnone].
  - apply Exists_exists in Hex as (i & _ & Hi).
    destruct w as [[] [r0 c0]]; simpl in *; try done; inversion Hi; lia.
  - exfalso. apply not_true_iff_false in Hno. apply Hno.
    apply has_four_true. exists w. split; [done|].
    rewrite filled_with_true in *. intros i Hi.
    specialize (Hfill i Hi). rewrite Hcells in Hfill.
    destruct (decide _) as [[Hr Hc']|]; [|done].
    exfalso. apply Hnone, Exists_exists. exists i.
    split; [apply elem_of_seq; lia|].
    destruct (window_cell w i); simpl in *; by subst.
Qed.

Lemma full_board_dropped (b : Board) (c : nat) (side : Z) :
  grid_full b = true → dropped b c side = None.
Proof.
  intros Hfull%grid_full_valid_locations.
  destruct (dropped b c side) as [[t r]|] eqn:Hdrop; [|done].
  apply dropped_valid in Hdrop. rewrite Hfull in Hdrop.
  by apply not_elem_of_nil in Hdrop.
Qed.

(** The board after a drop on a board where the game goes on: won by the
    side that dropped if [check_win] accepts the piece, and otherwise over
    exactly when it is full. *)
Lemma is_terminal_after_drop (b t : Board) (c r : nat) (side : Z) :
  wf_board b → is_terminal b = (false, None) →
  side = PLAYER ∨ side = COMPUTER →
  dropped b c side = Some (t, r) →
  is_terminal t =
    if check_win t r c then (true, Some side) else (grid_full t, None).
Proof.
  intros Hwf Hrun Hside Hdrop.
  assert ((is_terminal b).1 = false) as Hrun' by by rewrite Hrun.
  destruct (check_win t r c) eqn:Hwin; [by eapply winning_drop_terminal|].
  destruct (dropped_Some b t c r side Hwf Hdrop) as (Hwft & _ & _ & Hcells).
  destruct (non_terminal_cases b Hwf Hrun') as (HnoP & HnoC & _).
  rewrite (is_terminal_cases t Hwft).
  assert (has_four t side = false) as Hside_no.
  { apply not_true_iff_false. intros Hfour.
    rewrite (new_four_is_seen b t c r side Hwf) in Hwin; try done.
    by destruct Hside as [-> | ->]. }
  assert (∀ v, v ≠ side → has_four b v = false → has_four t v = false) as Hother.
  { intros v Hv Hno. apply not_true_iff_false. intros Hfour.
    apply (has_four_before_drop b t c r v side Hcells Hv) in Hfour. congruence. }
  destruct Hside as [-> | ->].
  - rewrite Hside_no, (Hother COMPUTER) by done. by destruct (grid_full t).
  - rewrite (Hother PLAYER), Hside_no by done. by destruct (grid_full t).
Qed.

(** ** Running the handlers *)

Lemma after_drop_run (l : loc) (t : Board) (col : nat) (player : Z) (g : game)
    (w : world) :
  heap w !! l = Some t →
  after_drop l col player g w = Ok (after_state t col player g) w.
Proof.
  intros Ht. unfold after_drop, after_state.
  rewrite bind_run, (deref_run l t w Ht).
  destruct (check_win t _ col); [done|]. by destruct (is_terminal t).
Qed.

(** Placing a piece on the live board: the board behind [l] is overwritten
    in place. *)
Lemma live_drop_run (l : loc) (b : Board) (c : nat) (player : Z) (g : game)
    (w : world) :
  heap w !! l = Some b → wf_board b →
  (deref l ≫= λ b0,
     place_piece l (Z.of_nat c) (check_available_row b0 (Z.of_nat c)) player
     ≫= λ placed : bool,
       if placed then after_drop l c player g else mret g) w =
  match dropped b c player with
  | Some (t, r) =>
      Ok (after_state t c player g)
         {| heap := <[l := t]> (heap w); draws := draws w |}
  | None => Ok g w
  end.
Proof.
  intros Hb Hwf. rewrite bind_run, (deref_run l b w Hb). unfold dropped.
  destruct (check_available_row b (Z.of_nat c)) as [r|] eqn:Hrow;
    cbn [mbind option_bind]; [|done].
  pose proof Hrow as [Hc Hlow]%check_available_row_Some.
  destruct (setitem_Some b r (Z.of_nat c) player Hwf (proj1 Hlow) Hc)
    as (t & Hset & _).
  rewrite Hset. cbn [mbind option_bind].
  rewrite bind_run, (place_piece_run w l b t r _ player Hb Hset).
  apply after_drop_run. cbn [heap].
  apply list_lookup_insert_eq. by eapply lookup_lt_Some.
Qed.

Lemma handle_click_run (l : loc) (b : Board) (player : Z) (pos : Z * Z)
    (g : game) (w : world) :
  heap w !! l = Some b → wf_board b →
  handle_click l player pos g w =
    if (0 <=? col_from_mouse pos.1)%Z
       && (col_from_mouse pos.1 <? Z.of_nat COLUMN_COUNT)%Z
    then
      match dropped b (Z.to_nat (col_from_mouse pos.1)) player with
      | Some (t, r) =>
          Ok (after_state t (Z.to_nat (col_from_mouse pos.1)) player g)
             {| heap := <[l := t]> (heap w); draws := draws w |}
      | None => Ok g w
      end
    else Ok g w.
Proof.
  intros Hb Hwf. unfold handle_click. cbv zeta.
  destruct ((0 <=? _)%Z && _) eqn:Hrange; [|done].
  apply andb_true_iff in Hrange as [Hlo%Z.leb_le _].
  rewrite <- (live_drop_run l b _ player g w Hb Hwf).
  by rewrite Z2Nat.id.
Qed.

(** ** The invariant of the game loops *)

Lemma loop_inv_create_board (t : nat) :
  loop_inv create_board {| turn := t; winner := None; draw := false |}.
Proof.
  split; [apply wf_create_board|]. split; [apply no_floating_create_board|].
  reflexivity.
Qed.

Lemma only_added_refl (player : Z) (b : Board) : only_added player b b.
Proof. intros r c. by left. Qed.

Lemma only_added_trans (player : Z) (b1 b2 b3 : Board) :
  only_added player b1 b2 → only_added player b2 b3 → only_added player b1 b3.
Proof.
  intros H12 H23 r c. destruct (H12 r c) as [H|[H H']], (H23 r c) as [H0|[H0 H0']].
  - left. congruence.
  - right. split; congruence.
  - right. split; congruence.
  - right. split; congruence.
Qed.

Lemma only_added_drop (b t : Board) (c r : nat) (player : Z) :
  wf_board b → dropped b c player = Some (t, r) → only_added player b t.
Proof.
  intros Hwf Hdrop r' c'.
  destruct (dropped_Some b t c r player Hwf Hdrop) as (_ & _ & (_ & Hempty & _) & Hcells).
  rewrite Hcells. destruct (decide _) as [[-> ->]|]; [by right | by left].
Qed.

(** One drop keeps the invariant of a batch. *)
Lemma batch_inv_drop (b t : Board) (c r : nat) (player : Z) (g : game) :
  player = PLAYER ∨ player = COMPUTER →
  batch_inv player b g → dropped b c player = Some (t, r) →
  batch_inv player t (after_state t c player g).
Proof.
  intros Hplayer [(Hwf & Hgrav & Hstate) Hwinner] Hdrop.
  destruct (dropped_Some b t c r player Hwf Hdrop) as (Hwft & Hc & Hlow & Hcells).
  assert (player ≠ EMPTY) as Hne by by destruct Hplayer as [-> | ->].
  assert (no_floating t) as Hgravt by by eapply drop_keeps_no_floating.
  unfold after_state.
  rewrite (check_row_landing b t c r player Hwf Hgrav Hne Hdrop).
  destruct (winner g) as [p|] eqn:Hw.
  - (* the game is already won by [player] *)
    destruct Hstate as (Hp & Hdraw & Hterm).
    specialize (Hwinner p eq_refl). subst p.
    assert (is_terminal t = (true, Some player)) as Htermt.
    { rewrite (is_terminal_cases b Hwf) in Hterm.
      rewrite (is_terminal_cases t Hwft).
      destruct Hplayer as [-> | ->].
      - destruct (has_four b PLAYER) eqn:HP.
        + by rewrite (has_four_after_drop b t c r PLAYER PLAYER Hwf) by done.
        + by destruct (has_four b COMPUTER), (grid_full b).
      - destruct (has_four b PLAYER) eqn:HP; [done|].
        destruct (has_four b COMPUTER) eqn:HC; [|by destruct (grid_full b)].
        rewrite (has_four_after_drop b t c r COMPUTER COMPUTER Hwf) by done.
        destruct (has_four t PLAYER) eqn:HPt; [|done].
        apply (has_four_before_drop b t c r PLAYER COMPUTER Hcells) in HPt; [|done].
        congruence. }
    destruct (check_win t r c); (split; [|by intros ? [= <-]]);
      (split; [done|]; split; [done|]); cbn [winner draw]; rewrite ?Hw;
      repeat split; try done.
    by rewrite andb_false_r.
  - destruct (draw g) eqn:Hdraw.
    + (* the board is full: no drop *)
      rewrite (is_terminal_cases b Hwf) in Hstate.
      assert (grid_full b = true) as Hfull
        by (by destruct (has_four b PLAYER), (has_four b COMPUTER), (grid_full b)).
      by rewrite (full_board_dropped b c player Hfull) in Hdrop.
    + pose proof (is_terminal_after_drop b t c r player Hwf Hstate Hplayer Hdrop)
        as Htermt.
      destruct (check_win t r c).
      * split; [|by intros ? [= <-]].
        split; [done|]. split; [done|]. cbn [winner draw]. by repeat split.
      * split; [|done].
        split; [done|]. split; [done|]. cbn [winner draw]. rewrite Htermt.
        cbn [fst]. by rewrite andb_true_r.
Qed.

Lemma world_insert_id (l : loc) (b : Board) (w : world) :
  heap w !! l = Some b →
  {| heap := <[l := b]> (heap w); draws := draws w |} = w.
Proof. intros Hb. rewrite list_insert_id by done. by destruct w. Qed.

Lemma player_of_side (t : nat) : player_of t = PLAYER ∨ player_of t = COMPUTER.
Proof. unfold player_of. destruct (_ =? 0); [by left | by right]. Qed.

Lemma batch_inv_loop_inv (player : Z) (b : Board) (g : game) :
  batch_inv player b g → loop_inv b g.
Proof. by intros [? _]. Qed.

Lemma loop_inv_batch_inv (player : Z) (b : Board) (g : game) :
  loop_inv b g → winner g = None → batch_inv player b g.
Proof. intros Hinv Hw. split; [done|]. intros p. by rewrite Hw. Qed.

(** One batch of events, on a board and variables that satisfy the
    invariant. *)
Lemma handle_events_run (l : loc) (player : Z) :
  player = PLAYER ∨ player = COMPUTER →
  ∀ events b g w,
    heap w !! l = Some b → batch_inv player b g →
    ∃ r b',
      handle_events l player events g w
      = Ok r {| heap := <[l := b']> (heap w); draws := draws w |} ∧
      wf_board b' ∧ no_floating b' ∧
      match r with
      | None => True
      | Some g' => batch_inv player b' g'
      end.
Proof.
  intros Hplayer. induction events as [|ev events IH]; intros b g w Hb Hinv;
    pose proof Hinv as [(Hwf & Hgrav & _) _].
  - exists (Some g), b. rewrite (world_insert_id l b w Hb).
    split; [done|]. split; [done|]. by split.
  - destruct ev as [|pos|]; cbn [handle_events].
    + exists None, b. rewrite (world_insert_id l b w Hb).
      split; [done|]. split; [done|]. by split.
    + rewrite bind_run, (handle_click_run l b player pos g w Hb Hwf).
      destruct (_ && _); [|by apply (IH b)].
      destruct (dropped b _ player) as [[t r]|] eqn:Hdrop; [|by apply (IH b)].
      set (w1 := {| heap := <[l := t]> (heap w); draws := draws w |}).
      destruct (IH t (after_state t (Z.to_nat (col_from_mouse pos.1)) player g) w1)
        as (res & b' & Hrun & Hrest).
      { apply list_lookup_insert_eq. by eapply lookup_lt_Some. }
      { by eapply batch_inv_drop. }
      exists res, b'. split; [|done]. rewrite Hrun. subst w1. cbn [heap draws].
      by rewrite list_insert_insert_eq.
    + by apply (IH b).
Qed.

Lemma two_player_loop_run (l : loc) :
  ∀ frames b g w,
    heap w !! l = Some b → loop_inv b g →
    ∃ res b',
      two_player_loop frames l g w
      = Ok res {| heap := <[l := b']> (heap w); draws := draws w |} ∧
      wf_board b' ∧ no_floating b' ∧ result_agrees b' res.
Proof.
  induction frames as [|fr frames IH]; intros b g w Hb Hinv;
    cbn [two_player_loop];
    destruct Hinv as (Hwf & Hgrav & Hstate);
    (destruct (winner g) as [p|] eqn:Hw;
     [ destruct Hstate as (Hp & Hdraw & Hterm);
       eexists (Finished g _), b; rewrite (world_insert_id l b w Hb);
       repeat split; try done; cbn [result_agrees];
       rewrite ?Hw, ?Hdraw; try done; congruence
     | destruct (draw g) eqn:Hdraw;
       [ eexists (Finished g _), b; rewrite (world_insert_id l b w Hb);
         repeat split; try done; cbn [result_agrees];
         rewrite ?Hw, ?Hdraw; try done
       | ]]).
  - exists (Waiting g), b. rewrite (world_insert_id l b w Hb).
    by repeat split.
  - rewrite bool_decide_eq_true_2 by done. cbn [andb negb]. cbv zeta.
    rewrite bind_run.
    destruct (handle_events_run l (player_of (turn g)) (player_of_side _)
                (get fr) b g w Hb) as (r & b1 & Hrun & Hwf1 & Hgrav1 & Hr).
    { apply loop_inv_batch_inv; [|done]. repeat split; try done.
      by rewrite Hw, Hdraw. }
    rewrite Hrun. destruct r as [g1|].
    + set (w1 := {| heap := <[l := b1]> (heap w); draws := draws w |}).
      destruct (IH b1 g1 w1) as (res & b' & Hloop & Hrest).
      { apply list_lookup_insert_eq. by eapply lookup_lt_Some. }
      { by eapply batch_inv_loop_inv. }
      exists res, b'. split; [|done]. rewrite Hloop. subst w1. cbn [heap draws].
      by rewrite list_insert_insert_eq.
    + by exists (Quit frames), b1.
Qed.

(** X7: whatever events arrive, the loop of [two_player] keeps the board free of
    floating pieces and never raises; while it waits for events the game is
    still open, and when it ends the winner it announces, or the draw, is
    what [is_terminal] says of the final board. *)
Theorem two_player_result (frames : list frame) (w : world) :
  ∃ res b',
    two_player_game frames w
    = Ok (length (heap w), res) {| heap := heap w ++ [b']; draws := draws w |} ∧
    wf_board b' ∧ no_floating b' ∧ result_agrees b' res.
Proof.
  unfold two_player_game, alloc. rewrite bind_run.
  set (w0 := {| heap := heap w ++ [create_board]; draws := draws w |}).
  destruct (two_player_loop_run (length (heap w)) frames create_board
              {| turn := 0; winner := None; draw := false |} w0)
    as (res & b' & Hloop & Hrest).
  { by apply list_lookup_middle. }
  { apply loop_inv_create_board. }
  exists res, b'. split; [|done]. rewrite bind_run, Hloop.
  unfold mret, M_ret. subst w0. f_equal. cbn [heap draws]. f_equal.
  rewrite insert_app_r_alt by lia. by rewrite Nat.sub_diag.
Qed.

(** ** One click and one batch *)

Lemma after_state_running (b t : Board) (c r : nat) (player : Z) (g : game) :
  wf_board b → no_floating b → is_terminal b = (false, None) →
  player = PLAYER ∨ player = COMPUTER →
  winner g = None → draw g = false →
  dropped b c player = Some (t, r) →
  (is_terminal t = (true, Some player) ∧
   after_state t c player g
   = {| turn := turn g; winner := Some player; draw := false |}) ∨
  (is_terminal t = (grid_full t, None) ∧
   after_state t c player g
   = {| turn := S (turn g); winner := None; draw := grid_full t |}).
Proof.
  intros Hwf Hgrav Hrun Hplayer Hw Hdraw Hdrop.
  assert (player ≠ EMPTY) as Hne by by destruct Hplayer as [-> | ->].
  pose proof (is_terminal_after_drop b t c r player Hwf Hrun Hplayer Hdrop) as Hterm.
  unfold after_state.
  rewrite (check_row_landing b t c r player Hwf Hgrav Hne Hdrop).
  destruct (check_win t r c).
  - left. by rewrite Hdraw.
  - right. rewrite Hterm, Hw. cbn [fst]. by rewrite andb_true_r.
Qed.

(** X8: a click while the game is open: outside the window's width or on a full
    column nothing changes; otherwise the piece of [player] lands in the
    lowest empty row of the column clicked, and either that board is won by
    [player], who becomes the winner while [turn] stays, or nobody has won,
    [turn] advances and [draw] is set exactly when the board is now full. *)
Theorem handle_click_outcome (l : loc) (b : Board) (player : Z) (pos : Z * Z)
    (g : game) (w : world) :
  heap w !! l = Some b → wf_board b → no_floating b →
  is_terminal b = (false, None) →
  player = PLAYER ∨ player = COMPUTER →
  winner g = None → draw g = false →
  ∃ g' w',
    handle_click l player pos g w = Ok g' w' ∧
    ((((pos.1 < 0)%Z ∨ (WIDTH ≤ pos.1)%Z ∨
       dropped b (Z.to_nat (col_from_mouse pos.1)) player = None)
      ∧ g' = g ∧ w' = w) ∨
     (∃ t r,
        (0 ≤ pos.1 < WIDTH)%Z ∧
        dropped b (Z.to_nat (col_from_mouse pos.1)) player = Some (t, r) ∧
        lowest_empty b (Z.to_nat (col_from_mouse pos.1)) r ∧
        w' = {| heap := <[l := t]> (heap w); draws := draws w |} ∧
        ((is_terminal t = (true, Some player) ∧
          g' = {| turn := turn g; winner := Some player; draw := false |}) ∨
         (is_terminal t = (grid_full t, None) ∧
          g' = {| turn := S (turn g); winner := None; draw := grid_full t |})))).
Proof.
  intros Hb Hwf Hgrav Hrun Hplayer Hw Hdraw.
  rewrite (handle_click_run l b player pos g w Hb Hwf).
  pose proof (col_from_mouse_span pos.1) as Hspan.
  unfold WIDTH, SQUARESIZE, COLUMN_COUNT in *.
  destruct ((0 <=? _)%Z && _) eqn:Hcol.
  - apply andb_true_iff in Hcol as [Hlo%Z.leb_le Hhi%Z.ltb_lt].
    destruct (dropped b _ player) as [[t r]|] eqn:Hdrop.
    + eexists _, _. split; [done|]. right. exists t, r.
      split; [lia|]. split; [done|].
      split; [by apply (dropped_Some b t _ r player Hwf Hdrop)|].
      split; [done|]. by eapply after_state_running.
    + exists g, w. split; [done|]. left. by repeat split; try right; try right.
  - exists g, w. split; [done|]. left. split; [|done].
    apply andb_false_iff in Hcol.
    rewrite Z.leb_gt, Z.ltb_ge in Hcol. lia.
Qed.

Lemma handle_click_outcome_witness :
  ∃ g' w',
    handle_click 0 PLAYER (650, 20)%Z
      {| turn := 0; winner := None; draw := false |} (World [threat_board] 0)
    = Ok g' w' ∧ winner g' = Some PLAYER.
Proof.
  destruct (handle_click_outcome 0 threat_board PLAYER (650, 20)%Z
              {| turn := 0; winner := None; draw := false |}
              (World [threat_board] 0))
    as (g' & w' & Hrun & Hcases).
  - reflexivity.
  - reflexivity.
  - intros r c Hr Hc. unfold ROW_COUNT, COLUMN_COUNT in *.
    destruct r as [|[|[|[|[|r]]]]]; [..|lia];
      (destruct c as [|[|[|[|[|[|[|c]]]]]]]; [..|lia]);
      vm_compute; intros H1 H2; try discriminate H2; by apply H1.
  - vm_compute. reflexivity.
  - by left.
  - reflexivity.
  - reflexivity.
  - exists g', w'. split; [exact Hrun|].
    vm_compute in Hrun. by injection Hrun as <- _.
Defined.

(** X9: a batch of events never raises and changes only the live board, only by
    putting pieces of [player], the side fixed when the batch began, into
    empty cells; it returns [None] exactly when the batch holds a [QUIT]
    event. *)
Theorem handle_events_batch (l : loc) (player : Z) (events : list event)
    (b : Board) (g : game) (w : world) :
  heap w !! l = Some b → wf_board b →
  ∃ r b',
    handle_events l player events g w
    = Ok r {| heap := <[l := b']> (heap w); draws := draws w |} ∧
    wf_board b' ∧ only_added player b b' ∧
    (r = None ↔ QUIT ∈ events).
Proof.
  revert b g w. induction events as [|ev events IH]; intros b g w Hb Hwf.
  - exists (Some g), b. rewrite (world_insert_id l b w Hb).
    split; [done|]. split; [done|]. split; [apply only_added_refl|].
    split; [done|]. by intros ?%not_elem_of_nil.
  - assert (∀ g1, ev ≠ QUIT →
              ∃ r b',
                handle_events l player events g1 w
                = Ok r {| heap := <[l := b']> (heap w); draws := draws w |} ∧
                wf_board b' ∧ only_added player b b' ∧
                (r = None ↔ QUIT ∈ ev :: events)) as Hskip.
    { intros g1 Hev. destruct (IH b g1 w Hb Hwf) as (r & b' & Hrun & ? & ? & Hq).
      exists r, b'. repeat split; try done.
      - intros ?. right. by apply Hq.
      - intros [?|?]%elem_of_cons; [done | by apply Hq]. }
    destruct ev as [|pos|]; cbn [handle_events].
    + exists None, b. rewrite (world_insert_id l b w Hb).
      split; [done|]. split; [done|]. split; [apply only_added_refl|].
      split; [by left | done].
    + rewrite bind_run, (handle_click_run l b player pos g w Hb Hwf).
      destruct (_ && _); [|by apply Hskip].
      destruct (dropped b _ player) as [[t r]|] eqn:Hdrop; [|by apply Hskip].
      destruct (dropped_Some b t _ r player Hwf Hdrop) as (Hwft & _).
      set (w1 := {| heap := <[l := t]> (heap w); draws := draws w |}).
      destruct (IH t (after_state t (Z.to_nat (col_from_mouse pos.1)) player g) w1)
        as (res & b' & Hrun & Hwf' & Hadd & Hq).
      { apply list_lookup_insert_eq. by eapply lookup_lt_Some. }
      { done. }
      exists res, b'. split.
      { rewrite Hrun. subst w1. cbn [heap draws]. by rewrite list_insert_insert_eq. }
      split; [done|]. split.
      { eapply only_added_trans; [by eapply only_added_drop | done]. }
      rewrite Hq. split; [by right|]. by intros [?|?]%elem_of_cons.
    + by apply Hskip.
Qed.

Lemma handle_events_batch_witness :
  ∃ r b',
    handle_events 0 PLAYER [MOUSEBUTTONDOWN (350, 0); MOUSEBUTTONDOWN (350, 0)]%Z
      {| turn := 0; winner := None; draw := false |} (World [create_board] 0)
    = Ok r {| heap := <[0 := b']> [create_board]; draws := 0 |} ∧
    wf_board b' ∧ only_added PLAYER create_board b' ∧
    (r = None ↔ QUIT ∈ [MOUSEBUTTONDOWN (350, 0); MOUSEBUTTONDOWN (350, 0)]%Z).
Proof.
  apply (handle_events_batch 0 PLAYER
           [MOUSEBUTTONDOWN (350, 0); MOUSEBUTTONDOWN (350, 0)]%Z create_board
           {| turn := 0; winner := None; draw := false |} (World [create_board] 0));
    reflexivity.
Defined.

(** ** The computer's turn *)

Lemma store_after_refl (l : loc) (b : Board) (w : world) :
  store_after l b w {| heap := <[l := b]> (heap w); draws := draws w |}.
Proof. by unfold store_after. Qed.

Lemma store_after_trans (l : loc) (b1 b2 : Board) (w w1 w2 : world) :
  l < length (heap w) →
  store_after l b1 w w1 → store_after l b2 w1 w2 → store_after l b2 w w2.
Proof.
  unfold store_after. intros Hl [k1 H1] [k2 H2]. exists (k1 ++ k2).
  rewrite H2, H1, insert_app_l by (by rewrite length_insert).
  by rewrite list_insert_insert_eq, <- app_assoc.
Qed.

Lemma store_after_grow (l : loc) (b' : Board) (w w1 : world) :
  l < length (heap w) → heap w `prefix_of` heap w1 →
  store_after l b' w {| heap := <[l := b']> (heap w1); draws := draws w1 |}.
Proof.
  unfold store_after. intros Hl [k ->]. exists k. cbn [heap].
  by rewrite insert_app_l.
Qed.

Lemma store_after_lookup (l : loc) (b' : Board) (w w' : world) :
  l < length (heap w) → store_after l b' w w' → heap w' !! l = Some b'.
Proof.
  intros Hl Hstore. eapply prefix_lookup_Some; [|exact Hstore].
  by apply list_lookup_insert_eq.
Qed.

(** The sides alternate: after the computer's turn comes the player's. *)
Lemma player_of_next (n : nat) :
  player_of n = COMPUTER → player_of (S n) = PLAYER.
Proof.
  unfold player_of. destruct (n `mod` 2 =? 0) eqn:Hpar; [done|]. intros _.
  apply Nat.eqb_neq in Hpar.
  pose proof (Nat.mod_upper_bound n 2).
  replace (S n) with (n + 1) by lia.
  rewrite Nat.Div0.add_mod by lia.
  replace (n `mod` 2) with 1 by lia. reflexivity.
Qed.

Section ComputerTurn.

Variable entropy : nat → nat.

(** [ai_best_move] on a board where the game goes on: a legal column, a
    winning one if there is one, and no board of the store changed. *)
Lemma ai_best_move_column (l : loc) (b : Board) (w : world) :
  heap w !! l = Some b → wf_board b → is_terminal b = (false, None) →
  ∃ c w1,
    ai_best_move entropy l w = Ok c w1 ∧ c ∈ valid_locations b ∧
    heap w `prefix_of` heap w1 ∧
    ((∃ c0, wins_immediately b COMPUTER c0) → wins_immediately b COMPUTER c).
Proof.
  intros Hb Hwf Hrun.
  assert ((is_terminal b).1 = false) as Hrun' by by rewrite Hrun.
  pose proof (non_terminal_valid b Hwf Hrun') as Hvalid.
  destruct (ai_best_move_run entropy l b w Hb Hwf Hvalid)
    as (w1 & w2 & _ & _ & Hpre1 & _ & Hpre2 & _ & Hai).
  assert (heap w `prefix_of` heap w2) as Hpre12 by by etrans.
  destruct (List.filter (wins_at b COMPUTER) _) as [|c rest] eqn:Hwins.
  - assert (¬ ∃ c0, wins_immediately b COMPUTER c0) as Hno.
    { intros [c0 Hc0].
      apply (wins_at_wins_immediately b COMPUTER c0 Hwf Hrun' (or_intror eq_refl))
        in Hc0.
      destruct (filter_wins_at_nil b COMPUTER c0 Hwins Hc0).
      by eapply wins_at_valid. }
    destruct (List.filter (wins_at b PLAYER) _) as [|c rest] eqn:Hopp.
    + destruct Hai as (s & col & w3 & c & w' & _ & Hpre3 & Hheap & Hmove & Hc & _).
      exists c, w'. repeat split; try done. rewrite Hheap. by etrans.
    + exists c, w2. repeat split; try done. by eapply filter_wins_at_head.
  - exists c, w1. destruct (filter_wins_at_head b COMPUTER c rest Hwins) as [Hc Hwin].
    repeat split; try done. intros _.
    by apply (wins_at_wins_immediately b COMPUTER c Hwf Hrun' (or_intror eq_refl)).
Qed.

Lemma computer_turn_run (l : loc) (b : Board) (g : game) (w : world) :
  heap w !! l = Some b → wf_board b → is_terminal b = (false, None) →
  ∃ c t r w1,
    c ∈ valid_locations b ∧ dropped b c COMPUTER = Some (t, r) ∧
    heap w `prefix_of` heap w1 ∧
    ((∃ c0, wins_immediately b COMPUTER c0) → wins_immediately b COMPUTER c) ∧
    computer_turn entropy l COMPUTER g w
    = Ok (after_state t c COMPUTER g)
         {| heap := <[l := t]> (heap w1); draws := draws w1 |}.
Proof.
  intros Hb Hwf Hrun.
  destruct (ai_best_move_column l b w Hb Hwf Hrun) as (c & w1 & Hai & Hc & Hpre & Hwin).
  destruct (valid_dropped b c COMPUTER Hwf Hc) as [[t r] Hdrop].
  exists c, t, r, w1. repeat split; try done.
  unfold computer_turn. rewrite bind_run, Hai.
  assert (heap w1 !! l = Some b) as Hb1 by by eapply prefix_lookup_Some.
  by rewrite (live_drop_run l b c COMPUTER g w1 Hb1 Hwf), Hdrop.
Qed.

(** X10: the computer's turn while the game is open: the drop is always accepted;
    a COMPUTER piece lands in the lowest empty row of a legal column of the
    live board, the other boards of the store are unchanged, and the
    variables change as after a click.  If some column wins at once, the
    computer wins in this turn. *)
Theorem computer_turn_outcome (l : loc) (b : Board) (g : game) (w : world) :
  heap w !! l = Some b → wf_board b → no_floating b →
  is_terminal b = (false, None) → winner g = None → draw g = false →
  ∃ c t r g' w',
    computer_turn entropy l COMPUTER g w = Ok g' w' ∧
    c ∈ valid_locations b ∧ dropped b c COMPUTER = Some (t, r) ∧
    lowest_empty b c r ∧
    store_after l t w w' ∧ heap w' !! l = Some t ∧
    ((is_terminal t = (true, Some COMPUTER) ∧
      g' = {| turn := turn g; winner := Some COMPUTER; draw := false |}) ∨
     (is_terminal t = (grid_full t, None) ∧
      g' = {| turn := S (turn g); winner := None; draw := grid_full t |})) ∧
    ((∃ c0, wins_immediately b COMPUTER c0) → winner g' = Some COMPUTER).
Proof.
  intros Hb Hwf Hgrav Hrun Hw Hdraw.
  destruct (computer_turn_run l b g w Hb Hwf Hrun)
    as (c & t & r & w1 & Hc & Hdrop & Hpre & Hwin & Hturn).
  pose proof (lookup_lt_Some _ _ _ Hb) as Hl.
  pose proof (store_after_grow l t w w1 Hl Hpre) as Hstore.
  exists c, t, r, (after_state t c COMPUTER g),
    {| heap := <[l := t]> (heap w1); draws := draws w1 |}.
  split; [done|]. split; [done|]. split; [done|].
  split; [by apply (dropped_Some b t c r COMPUTER Hwf Hdrop)|].
  split; [done|]. split; [by eapply store_after_lookup|].
  pose proof (after_state_running b t c r COMPUTER g Hwf Hgrav Hrun
                (or_intror eq_refl) Hw Hdraw Hdrop) as Hcases.
  split; [done|]. intros Hex.
  destruct (Hwin Hex) as (t' & r' & Hdrop' & Hterm).
  rewrite Hdrop in Hdrop'. injection Hdrop' as <- <-.
  destruct Hcases as [[_ ->]|[Hterm' _]]; [done|]. congruence.
Qed.

(** ** The loop of [play_computer] *)

Lemma play_computer_loop_run (l : loc) :
  ∀ fuel frames b g w,
    heap w !! l = Some b → loop_inv b g →
    2 * length frames
    + (if running g && negb (player_of (turn g) =? PLAYER)%Z then 1 else 0) < fuel →
    ∃ res b' w',
      play_computer_loop entropy fuel frames l g w = Ok res w' ∧
      store_after l b' w w' ∧
      wf_board b' ∧ no_floating b' ∧ result_agrees b' res.
Proof.
  induction fuel as [|fuel IH]; intros frames b g w Hb Hinv Hfuel; [lia|].
  pose proof (lookup_lt_Some _ _ _ Hb) as Hl.
  cbn [play_computer_loop]. fold (running g) in *.
  pose proof Hinv as (Hwf & Hgrav & Hstate).
  destruct (running g) eqn:Hrunning.
  2:{ (* the loop has ended *)
      exists (Finished g frames), b, w. split; [done|].
      split; [unfold store_after; by rewrite list_insert_id|].
      split; [done|]. split; [done|]. cbn [result_agrees].
      unfold running in Hrunning.
      destruct (winner g) as [p|] eqn:Hw.
      - destruct Hstate as (Hp & Hdraw & Hterm). rewrite Hdraw.
        split; [done|]. split; [by split|]. by intros p' [= <-].
      - rewrite bool_decide_eq_true_2 in Hrunning by done.
        destruct (draw g); [|done]. split; [done|]. split; [by split|]. done. }
  unfold running in Hrunning.
  apply andb_true_iff in Hrunning as [Hw%bool_decide_eq_true Hdraw%negb_true_iff].
  rewrite Hw, Hdraw in Hstate. cbv zeta.
  destruct (player_of (turn g) =? PLAYER)%Z eqn:Hplayer.
  - (* the player's turn *)
    destruct frames as [|fr frames].
    { exists (Waiting g), b, w. split; [done|].
      split; [unfold store_after; by rewrite list_insert_id|]. by repeat split. }
    rewrite bind_run.
    destruct (handle_events_run l (player_of (turn g)) (player_of_side _)
                (get fr) b g w Hb) as (r & b1 & Hrun & Hwf1 & Hgrav1 & Hr).
    { by apply loop_inv_batch_inv. }
    rewrite Hrun. set (w1 := {| heap := <[l := b1]> (heap w); draws := draws w |}).
    destruct r as [g1|].
    + destruct (IH frames b1 g1 w1) as (res & b' & w' & Hloop & Hstore & Hrest).
      { apply list_lookup_insert_eq. by eapply lookup_lt_Some. }
      { by eapply batch_inv_loop_inv. }
      { cbn [length andb negb] in Hfuel.
        destruct (running g1 && _); lia. }
      exists res, b', w'. split; [done|]. split; [|done].
      eapply store_after_trans; [done | apply store_after_refl | done].
    + exists (Quit frames), b1, w1. split; [done|]. split; [apply store_after_refl|].
      by repeat split.
  - (* the computer's turn *)
    assert (player_of (turn g) = COMPUTER) as Hcomp.
    { destruct (player_of_side (turn g)) as [HP|HC]; [|done].
      rewrite HP in Hplayer. done. }
    pose proof (player_of_next (turn g) Hcomp) as Hnext.
    rewrite Hcomp.
    destruct (computer_turn_run l b g w Hb Hwf Hstate)
      as (c & t & r & w1 & Hc & Hdrop & Hpre & _ & Hturn).
    rewrite bind_run, Hturn.
    set (w2 := {| heap := <[l := t]> (heap w1); draws := draws w1 |}).
    pose proof (store_after_grow l t w w1 Hl Hpre) as Hstore1.
    assert (batch_inv COMPUTER t (after_state t c COMPUTER g)) as Hinv'.
    { eapply batch_inv_drop; [by right | | done].
      apply loop_inv_batch_inv; [|done]. repeat split; try done.
      by rewrite Hw, Hdraw. }
    destruct (IH frames t (after_state t c COMPUTER g) w2)
      as (res & b' & w' & Hloop & Hstore & Hrest).
    { by eapply store_after_lookup. }
    { by eapply batch_inv_loop_inv. }
    { (* after the computer's drop it is the player's turn, or the game is over *)
      destruct (after_state_running b t c r COMPUTER g Hwf Hgrav Hstate
                  (or_intror eq_refl) Hw Hdraw Hdrop) as [[_ ->]|[_ ->]].
      - unfold running. cbn [winner draw].
        rewrite bool_decide_eq_false_2 by done.
        cbn [andb negb] in *. lia.
      - unfold running. cbn [winner draw turn].
        rewrite Hnext, Z.eqb_refl, andb_false_r.
        cbn [andb negb] in Hfuel. lia. }
    exists res, b', w'. split; [done|]. split; [|done].
    eapply store_after_trans; [done | exact Hstore1 | done].
Qed.

(** X11: with enough fuel for the events given, the loop of [play_computer] never
    raises and never stalls on a rejected computer move; it keeps the board
    free of floating pieces and changes no other board of the store; while
    it waits for events the game is still open, and when it ends the winner
    it announces, or the draw, is what [is_terminal] says of the final
    board. *)
Theorem play_computer_result (fuel : nat) (frames : list frame)
    (w : world) :
  2 * length frames + 1 < fuel →
  ∃ res b' w',
    play_computer_game entropy fuel frames w = Ok (length (heap w), res) w' ∧
    heap w ++ [b'] `prefix_of` heap w' ∧
    wf_board b' ∧ no_floating b' ∧ result_agrees b' res.
Proof.
  intros Hfuel. unfold play_computer_game, alloc, random_randint.
  rewrite !bind_run. cbn [heap draws].
  set (t0 := 0 + entropy (draws w) `mod` (1 - 0 + 1)).
  set (w0 := {| heap := heap w ++ [create_board]; draws := S (draws w) |}).
  destruct (play_computer_loop_run (length (heap w)) fuel frames create_board
              {| turn := t0; winner := None; draw := false |} w0)
    as (res & b' & w' & Hloop & Hstore & Hrest).
  { by apply list_lookup_middle. }
  { apply loop_inv_create_board. }
  { destruct (_ && _); lia. }
  exists res, b', w'. rewrite Hloop. split; [done|]. split; [|done].
  unfold store_after in Hstore. subst w0. cbn [heap] in Hstore.
  rewrite insert_app_r_alt, Nat.sub_diag in Hstore by lia. done.
Qed.

End ComputerTurn.

Lemma no_floating_threat_board : no_floating threat_board.
Proof.
  intros r c Hr Hc. unfold ROW_COUNT, COLUMN_COUNT in *.
  destruct r as [|[|[|[|[|r]]]]]; [..|lia];
    (destruct c as [|[|[|[|[|[|[|c]]]]]]]; [..|lia]);
    vm_compute; intros H1 H2; try discriminate H2; by apply H1.
Qed.

Lemma computer_turn_outcome_witness :
  ∃ g' w',
    computer_turn (λ _, 0) 0 COMPUTER
      {| turn := 1; winner := None; draw := false |} (World [threat_board] 0)
    = Ok g' w' ∧ winner g' = Some COMPUTER.
Proof.
  destruct (computer_turn_outcome (λ _, 0) 0 threat_board
              {| turn := 1; winner := None; draw := false |}
              (World [threat_board] 0))
    as (c & t & r & g' & w' & Hrun & _ & _ & _ & _ & _ & _ & Hwin).
  - reflexivity.
  - reflexivity.
  - exact no_floating_threat_board.
  - vm_compute. reflexivity.
  - reflexivity.
  - reflexivity.
  - exists g', w'. split; [exact Hrun|]. apply Hwin.
    exists 3, threat_board_won, 0. split; vm_compute; reflexivity.
Defined.

Lemma play_computer_result_witness :
  ∃ res b' w',
    play_computer_game (λ _, 0) 4
      [Frame (350, 20)%Z [MOUSEBUTTONDOWN (350, 20)%Z]] (World [] 0)
    = Ok (0, res) w' ∧
    [] ++ [b'] `prefix_of` heap w' ∧
    wf_board b' ∧ no_floating b' ∧ result_agrees b' res.
Proof.
  apply (play_computer_result (λ _, 0) 4
           [Frame (350, 20)%Z [MOUSEBUTTONDOWN (350, 20)%Z]] (World [] 0)).
  cbn [length]. lia.
Defined.

(** ** The menu *)

Lemma menu_item_range (mx my c : Z) :
  menu_item mx my = Some c → (c = 0 ∨ c = 1 ∨ c = 2)%Z.
Proof.
  unfold menu_item. repeat case_match; intros [= <-]; auto.
Qed.

Lemma menu_events_Some (mx my : Z) (events : list event) (c : Z) :
  menu_events mx my events = Some c →
  (QUIT ∈ events ∧ c = 2%Z) ∨
  ((∃ pos, MOUSEBUTTONDOWN pos ∈ events) ∧ menu_item mx my = Some c).
Proof.
  induction events as [|ev events IH]; [done|].
  destruct ev as [|pos|]; cbn [menu_events].
  - intros [= <-]. left. split; [apply elem_of_cons; by left | done].
  - destruct (menu_item mx my) as [c'|] eqn:Hitem.
    + intros [= <-]. right. split; [|done]. exists pos. apply elem_of_cons. by left.
    + intros [[Hq ->]|[[pos' Hpos] Hc]]%IH.
      * left. split; [apply elem_of_cons; by right | done].
      * right. split; [|done]. exists pos'. apply elem_of_cons. by right.
  - intros [[Hq ->]|[[pos' Hpos] Hc]]%IH.
    + left. split; [apply elem_of_cons; by right | done].
    + right. split; [|done]. exists pos'. apply elem_of_cons. by right.
Qed.

Lemma main_menu_run (frames : list frame) :
  match main_menu frames with
  | Returned c rest =>
      ∃ pre fr, frames = pre ++ fr :: rest ∧ main_menu pre = Pending ∧
        menu_events (get_pos fr).1 (get_pos fr).2 (get fr) = Some c
  | Pending => True
  | Exhausted => False
  end.
Proof.
  induction frames as [|fr frames IH]; [done|]. cbn [main_menu].
  destruct (get_pos fr) as [mx my] eqn:Hpos.
  destruct (menu_events mx my (get fr)) as [c|] eqn:Hev.
  - exists [], fr. by rewrite Hpos.
  - destruct (main_menu frames) as [c rest| |]; [|done..].
    destruct IH as (pre & fr' & -> & Hpre & Hc). exists (fr :: pre), fr'.
    split; [done|]. split; [|done]. cbn [main_menu]. by rewrite Hpos, Hev.
Qed.

Lemma undecided_cons (mouse : Z * Z) (ev : event) (events : list event) :
  undecided mouse events →
  ev = OTHER_EVENT ∨
  ((∃ pos, ev = MOUSEBUTTONDOWN pos) ∧ menu_item mouse.1 mouse.2 = None) →
  undecided mouse (ev :: events).
Proof.
  intros [Hquit Hclick] Hev. split.
  - intros [<-|?]%elem_of_cons; [|done].
    by destruct Hev as [?|[[pos ?] _]].
  - destruct Hev as [->|[_ Hitem]]; [|by right].
    destruct Hclick as [Hclick|Hitem]; [|by right].
    left. intros pos [?|?]%elem_of_cons; [done|]. by eapply Hclick.
Qed.

Lemma menu_events_None (mx my : Z) (events : list event) :
  menu_events mx my events = None → undecided (mx, my) events.
Proof.
  induction events as [|ev events IH].
  - intros _. split; [apply not_elem_of_nil|]. left. intros pos.
    apply not_elem_of_nil.
  - destruct ev as [|pos|]; cbn [menu_events]; [done|..].
    + destruct (menu_item mx my) as [c|] eqn:Hitem; [done|].
      intros Hrest%IH. apply undecided_cons; [done|]. right.
      split; [by exists pos | done].
    + intros Hrest%IH. apply undecided_cons; [done | by left].
Qed.

Lemma menu_events_first (mx my : Z) (events : list event) (c : Z) :
  menu_events mx my events = Some c →
  ∃ before ev after,
    events = before ++ ev :: after ∧ undecided (mx, my) before ∧
    ((ev = QUIT ∧ c = 2%Z) ∨
     ((∃ pos, ev = MOUSEBUTTONDOWN pos) ∧ menu_item mx my = Some c)).
Proof.
  induction events as [|ev events IH]; [done|].
  assert (undecided (mx, my) []) as Hnil.
  { split; [apply not_elem_of_nil|]. left. intros pos. apply not_elem_of_nil. }
  destruct ev as [|pos|]; cbn [menu_events].
  - intros [= <-]. exists [], QUIT, events. split; [done|]. split; [done|].
    by left.
  - destruct (menu_item mx my) as [c'|] eqn:Hitem.
    + intros [= <-]. exists [], (MOUSEBUTTONDOWN pos), events.
      split; [done|]. split; [done|]. right. split; [by exists pos | done].
    + intros (before & ev & after & -> & Hbefore & Hev)%IH.
      exists (MOUSEBUTTONDOWN pos :: before), ev, after.
      split; [done|]. split; [|done]. apply undecided_cons; [done|]. right.
      split; [by exists pos | done].
  - intros (before & ev & after & -> & Hbefore & Hev)%IH.
    exists (OTHER_EVENT :: before), ev, after.
    split; [done|]. split; [|done]. apply undecided_cons; [done | by left].
Qed.

(** ** The rematch prompt *)

Section Rematch.

Variables prompt_size yes_size no_size : Z * Z.

Lemma rematch_events_Some (tag : string) (events : list event) (res : string) :
  rematch_events prompt_size yes_size no_size tag events = Some res →
  (res = tag ∨ res = "menu"%string) ∧
  ∃ pos, MOUSEBUTTONDOWN pos ∈ events ∧
    (collidepoint (yes_rect prompt_size yes_size) pos.1 pos.2 = true ∨
     collidepoint (no_rect prompt_size yes_size no_size) pos.1 pos.2 = true).
Proof.
  induction events as [|ev events IH]; [done|].
  destruct ev as [|[ex ey]|]; cbn [rematch_events]; [done|..].
  - destruct (collidepoint (yes_rect prompt_size yes_size) ex ey) eqn:Hyes.
    { intros [= <-]. split; [by left|]. exists (ex, ey).
      split; [apply elem_of_cons; by left | by left]. }
    destruct (collidepoint (no_rect prompt_size yes_size no_size) ex ey)
      eqn:Hno.
    { intros [= <-]. split; [by right|]. exists (ex, ey).
      split; [apply elem_of_cons; by left | by right]. }
    intros (Hres & pos & Hpos & Hhit)%IH. split; [done|]. exists pos.
    split; [apply elem_of_cons; by right | done].
  - intros (Hres & pos & Hpos & Hhit)%IH. split; [done|]. exists pos.
    split; [apply elem_of_cons; by right | done].
Qed.

Lemma rematch_events_None (tag : string) (events : list event) :
  (∀ pos, MOUSEBUTTONDOWN pos ∈ events →
     collidepoint (yes_rect prompt_size yes_size) pos.1 pos.2 = false ∧
     collidepoint (no_rect prompt_size yes_size no_size) pos.1 pos.2 = false) →
  rematch_events prompt_size yes_size no_size tag events = None.
Proof.
  induction events as [|ev events IH]; intros Hmiss; [done|].
  destruct ev as [|[ex ey]|]; cbn [rematch_events]; [done|..].
  - destruct (Hmiss (ex, ey)) as [Hyes Hno]; [apply elem_of_cons; by left|].
    cbn [fst snd] in Hyes, Hno. rewrite Hyes, Hno.
    apply IH. intros pos Hpos. apply Hmiss, elem_of_cons. by right.
  - apply IH. intros pos Hpos. apply Hmiss, elem_of_cons. by right.
Qed.

Lemma rematch_loop_run (tag : string) (frames : list frame) :
  match rematch_loop prompt_size yes_size no_size tag frames with
  | Returned res rest =>
      (res = Some tag ∨ res = Some "menu"%string) ∧
      ∃ pre fr, frames = pre ++ fr :: rest ∧
        answers prompt_size yes_size no_size fr
  | Pending => True
  | Exhausted => False
  end.
Proof.
  induction frames as [|fr frames IH]; [done|]. cbn [rematch_loop].
  assert (match rematch_loop prompt_size yes_size no_size tag frames with
          | Returned res rest =>
              (res = Some tag ∨ res = Some "menu"%string) ∧
              ∃ pre fr', fr :: frames = pre ++ fr' :: rest ∧
                answers prompt_size yes_size no_size fr'
          | Pending => True
          | Exhausted => False
          end) as Hnext.
  { destruct (rematch_loop prompt_size yes_size no_size tag frames)
      as [res rest| |]; [|done..].
    destruct IH as (Hres & pre & fr' & -> & Hfr). split; [done|].
    by exists (fr :: pre), fr'. }
  destruct (rematch prompt_size yes_size no_size tag fr) as [res|] eqn:Hre;
    [|done].
  apply rematch_events_Some in Hre as (Hres & Hhit).
  destruct (String.eqb res tag) eqn:Htag.
  { split; [by left|]. by exists [], fr. }
  destruct (String.eqb res "menu") eqn:Hmenu; [|done].
  split; [by right|]. by exists [], fr.
Qed.

Lemma rematch_loop_Pending (tag : string) (frames : list frame) :
  (∀ fr, fr ∈ frames → ¬ answers prompt_size yes_size no_size fr) →
  rematch_loop prompt_size yes_size no_size tag frames = Pending.
Proof.
  induction frames as [|fr frames IH]; intros Hmiss; [done|].
  cbn [rematch_loop]. unfold rematch.
  rewrite rematch_events_None.
  - apply IH. intros fr' Hfr'. apply Hmiss, elem_of_cons. by right.
  - intros pos Hpos.
    destruct (collidepoint (yes_rect prompt_size yes_size) pos.1 pos.2)
      eqn:Hyes;
      [|destruct (collidepoint (no_rect prompt_size yes_size no_size)
                    pos.1 pos.2) eqn:Hno; [|done]];
      destruct (Hmiss fr);
      [ apply elem_of_cons; by left | exists pos; auto
      | apply elem_of_cons; by left | exists pos; auto ].
Qed.

End Rematch.

(** ** What the game loops read *)

Lemma handle_events_quit (l : loc) (player : Z) (events : list event) :
  ∀ g w w', handle_events l player events g w = Ok None w' → QUIT ∈ events.
Proof.
  induction events as [|ev events IH]; intros g w w'; [done|].
  destruct ev as [|pos|]; cbn [handle_events].
  - intros _. apply elem_of_cons. by left.
  - rewrite bind_run. destruct (handle_click l player pos g w) as [g1 w1|e]; [|done].
    intros Hrun%IH. apply elem_of_cons. by right.
  - intros Hrun%IH. apply elem_of_cons. by right.
Qed.

Lemma consumed_cons (fr : frame) (frames : list frame) (r : loop_result) :
  consumed frames r → consumed (fr :: frames) r.
Proof.
  destruct r as [rest|g rest|g|]; cbn [consumed]; [| |done..].
  - intros (pre & fr' & -> & Hq). by exists (fr :: pre), fr'.
  - intros Hsuf. by apply suffix_cons_r.
Qed.

Lemma two_player_loop_consumed (l : loc) (frames : list frame) :
  ∀ g w res w',
    two_player_loop frames l g w = Ok res w' → consumed frames res.
Proof.
  induction frames as [|fr frames IH]; intros g w res w'; cbn [two_player_loop];
    (destruct (_ && _); [|unfold mret, M_ret; by intros [= <- _]; cbn [consumed]]).
  - unfold mret, M_ret. by intros [= <- _].
  - cbv zeta. rewrite bind_run.
    destruct (handle_events l _ (get fr) g w) as [[g1|] w1|e] eqn:Hev; [| |done].
    + intros Hrun%IH. by apply consumed_cons.
    + unfold mret, M_ret. intros [= <- _]. exists [], fr. split; [done|].
      by eapply handle_events_quit.
Qed.

Lemma play_computer_loop_consumed (entropy : nat → nat) (l : loc) :
  ∀ fuel frames g w res w',
    play_computer_loop entropy fuel frames l g w = Ok res w' →
    consumed frames res.
Proof.
  induction fuel as [|fuel IH]; intros frames g w res w';
    cbn [play_computer_loop]; [unfold mret, M_ret; by intros [= <- _]|].
  destruct (_ && _); [|unfold mret, M_ret; by intros [= <- _]; cbn [consumed]].
  cbv zeta.
  destruct (_ =? _)%Z.
  - destruct frames as [|fr frames]; [unfold mret, M_ret; by intros [= <- _]|].
    rewrite bind_run.
    destruct (handle_events l _ (get fr) g w) as [[g1|] w1|e] eqn:Hev; [| |done].
    + intros Hrun%IH. by apply consumed_cons.
    + unfold mret, M_ret. intros [= <- _]. exists [], fr. split; [done|].
      by eapply handle_events_quit.
  - rewrite bind_run.
    destruct (computer_turn entropy l _ g w) as [g1 w1|e]; [|done].
    apply IH.
Qed.

(** ** The game modes *)

Section Modes.

Variable entropy : nat → nat.
Variables prompt_size yes_size no_size : Z * Z.

Lemma after_loop_returns (m : mode) (frames : list frame) (r : loop_result) :
  consumed frames r → r ≠ OutOfFuel →
  mode_returns m frames
    (after_loop prompt_size yes_size no_size (mode_tag m) r).
Proof.
  destruct r as [rest|g rest|g|]; cbn [consumed after_loop mode_returns];
    [done| |done..].
  intros [pre0 ->] _.
  pose proof (rematch_loop_run prompt_size yes_size no_size (mode_tag m) rest)
    as Hloop.
  destruct (rematch_loop _ _ _ _ rest) as [res rest'| |]; [|done..].
  destruct Hloop as (Hres & pre & fr & -> & _).
  destruct Hres as [-> | ->]; cbn [mode_returns].
  - split; [by left|]. exists (pre0 ++ pre ++ [fr]).
    split; [by rewrite <- !app_assoc | by destruct pre0, pre].
  - split; [by right|]. exists (pre0 ++ pre ++ [fr]).
    split; [by rewrite <- !app_assoc | by destruct pre0, pre].
Qed.

Lemma two_player_run (frames : list frame) (w : world) :
  ∃ res w',
    two_player prompt_size yes_size no_size frames w = Ok res w' ∧
    mode_returns TwoPlayer frames res.
Proof.
  unfold two_player, two_player_game, alloc. rewrite !bind_run.
  set (w0 := {| heap := heap w ++ [create_board]; draws := draws w |}).
  destruct (two_player_loop_run (length (heap w)) frames create_board
              {| turn := 0; winner := None; draw := false |} w0)
    as (res & b' & Hloop & _ & _ & Hres).
  { by apply list_lookup_middle. }
  { apply loop_inv_create_board. }
  rewrite Hloop. eexists _, _. split; [reflexivity|].
  apply (after_loop_returns TwoPlayer).
  - by eapply two_player_loop_consumed.
  - by intros ->.
Qed.

Lemma play_computer_run (fuel : nat) (frames : list frame) (w : world) :
  2 * length frames + 1 < fuel →
  ∃ res w',
    play_computer entropy prompt_size yes_size no_size fuel frames w
    = Ok res w' ∧
    mode_returns PlayComputer frames res.
Proof.
  intros Hfuel.
  unfold play_computer, play_computer_game, alloc, random_randint.
  rewrite !bind_run. cbn [heap draws].
  set (t0 := 0 + entropy (draws w) `mod` (1 - 0 + 1)).
  set (w0 := {| heap := heap w ++ [create_board]; draws := S (draws w) |}).
  destruct (play_computer_loop_run entropy (length (heap w)) fuel frames
              create_board {| turn := t0; winner := None; draw := false |} w0)
    as (res & b' & w' & Hloop & _ & _ & _ & Hres).
  { by apply list_lookup_middle. }
  { apply loop_inv_create_board. }
  { destruct (_ && _); lia. }
  rewrite Hloop. eexists _, _. split; [reflexivity|].
  apply (after_loop_returns PlayComputer).
  - by eapply play_computer_loop_consumed.
  - by intros ->.
Qed.

Lemma run_mode_run (fuel : nat) (m : mode) (frames : list frame) (w : world) :
  2 * length frames + 1 < fuel →
  ∃ res w',
    run_mode entropy prompt_size yes_size no_size fuel m frames w = Ok res w' ∧
    mode_returns m frames res.
Proof.
  intros Hfuel. destruct m; cbn [run_mode].
  - apply two_player_run.
  - by apply play_computer_run.
Qed.

End Modes.

(** ** The application loop *)

Lemma after_visits_run (log log' : list visit) (e : app_end)
    (m : M (list visit * app_end)) (w w' : world) :
  m w = Ok (log', e) w' → after_visits log m w = Ok (log ++ log', e) w'.
Proof. intros Hm. unfold after_visits. by rewrite bind_run, Hm. Qed.

Lemma menu_choice_range (fr : frame) (c : Z) :
  menu_events (get_pos fr).1 (get_pos fr).2 (get fr) = Some c →
  (c = 0 ∨ c = 1 ∨ c = 2)%Z.
Proof.
  intros [[_ ->]|[_ Hitem]]%menu_events_Some; [auto|].
  by eapply menu_item_range.
Qed.

Section Application.

Variable entropy : nat → nat.
Variables prompt_size yes_size no_size : Z * Z.

Lemma play_game_run :
  ∀ fuel frames w,
    2 * length frames + 2 ≤ fuel →
    ∃ log e w',
      play_game entropy prompt_size yes_size no_size fuel frames w
      = Ok (log, e) w' ∧
      flow log e.
Proof.
  induction fuel as [|fuel IH]; intros frames w Hfuel; [lia|].
  cbn [play_game]. pose proof (main_menu_run frames) as Hmenu.
  destruct (main_menu frames) as [c f1| |]; [| |done].
  2:{ eexists _, _, _. split; [reflexivity|]. constructor. }
  destruct Hmenu as (pre0 & fr0 & -> & _ & Hc%menu_choice_range).
  rewrite length_app in Hfuel. cbn [length] in Hfuel.
  assert (c = 2 ∨ (c = 0 ∨ c = 1))%Z as [-> | Hc01] by tauto.
  { eexists _, _, _. split; [reflexivity|]. constructor. }
  assert ((c =? 2)%Z = false) as -> by (destruct Hc01 as [-> | ->]; done).
  cbv zeta. rewrite bind_run.
  destruct (run_mode_run entropy prompt_size yes_size no_size fuel
              (chosen_mode c) f1 w) as (r1 & w1 & -> & Hr1); [lia|].
  destruct r1 as [[s|] f2| |]; cbn [mode_returns] in Hr1; [| | |done].
  3:{ eexists _, _, _. split; [reflexivity|]. by constructor. }
  2:{ eexists _, _, _. split; [reflexivity|]. by constructor. }
  destruct Hr1 as (Hs & pre1 & -> & Hpre1).
  assert (1 ≤ length pre1) by (destruct pre1; [done | cbn; lia]).
  rewrite length_app in Hfuel.
  destruct Hs as [-> | ->].
  - (* rematch: the same mode once more *)
    assert (String.eqb (mode_tag (chosen_mode c)) "menu" = false) as ->
      by (destruct Hc01 as [-> | ->]; done).
    assert (String.eqb (mode_tag (chosen_mode c)) "2p"
            || String.eqb (mode_tag (chosen_mode c)) "ai" = true) as ->
      by (destruct Hc01 as [-> | ->]; done).
    assert ((if String.eqb (mode_tag (chosen_mode c)) "2p"
             then TwoPlayer else PlayComputer) = chosen_mode c) as ->
      by (destruct Hc01 as [-> | ->]; done).
    rewrite bind_run.
    destruct (run_mode_run entropy prompt_size yes_size no_size fuel
                (chosen_mode c) f2 w1) as (r2 & w2 & -> & Hr2); [lia|].
    destruct r2 as [ns f3| |]; [| |done].
    2:{ eexists _, _, _. split; [reflexivity|]. by constructor. }
    assert (length f3 < length f2 ∧
            (ns = None ∨ ns = Some (mode_tag (chosen_mode c)) ∨
             ns = Some "menu"%string)) as [Hlen Hns].
    { destruct ns as [s|]; cbn [mode_returns] in Hr2.
      - destruct Hr2 as (Hs & pre2 & -> & Hpre2). rewrite length_app.
        split; [destruct pre2; [done | cbn; lia]|].
        destruct Hs as [-> | ->]; auto.
      - destruct Hr2 as (pre2 & fr2 & -> & _). rewrite length_app. cbn [length].
        split; [lia | auto]. }
    destruct (IH f3 w2) as (log & e & w' & Hrun & Hflow); [lia|].
    eexists _, _, _. split; [by apply after_visits_run|].
    cbn [app]. by constructor.
  - (* back to the menu *)
    cbn [String.eqb Ascii.eqb Bool.eqb].
    destruct (IH f2 w1) as (log & e & w' & Hrun & Hflow); [lia|].
    eexists _, _, _. split; [by apply after_visits_run|].
    cbn [app]. by constructor.
Qed.

End Application.

Lemma main_menu_first (frames : list frame) :
  match main_menu frames with
  | Returned c rest =>
      (c = 0 ∨ c = 1 ∨ c = 2)%Z ∧
      ∃ pre fr before ev after,
        frames = pre ++ fr :: rest ∧ get fr = before ++ ev :: after ∧
        (∀ f, f ∈ pre → undecided (get_pos f) (get f)) ∧
        undecided (get_pos fr) before ∧
        ((ev = QUIT ∧ c = 2%Z) ∨
         ((∃ pos, ev = MOUSEBUTTONDOWN pos) ∧
          menu_item (get_pos fr).1 (get_pos fr).2 = Some c))
  | Pending => ∀ f, f ∈ frames → undecided (get_pos f) (get f)
  | Exhausted => False
  end.
Proof.
  induction frames as [|fr frames IH]; cbn [main_menu].
  { intros f. by intros ?%not_elem_of_nil. }
  destruct (get_pos fr) as [mx my] eqn:Hpos.
  destruct (menu_events mx my (get fr)) as [c|] eqn:Hev.
  - split.
    { apply (menu_choice_range fr). by rewrite Hpos. }
    destruct (menu_events_first mx my (get fr) c Hev)
      as (before & ev & after & Hget & Hbefore & Hdecides).
    exists [], fr, before, ev, after. rewrite Hpos.
    split; [done|]. split; [done|]. split; [|done].
    intros f. by intros ?%not_elem_of_nil.
  - apply menu_events_None in Hev.
    destruct (main_menu frames) as [c rest| |]; [| |done].
    + destruct IH as (Hc & pre & fr' & before & ev & after & -> & Hget & Hpre
                      & Hrest).
      split; [done|]. exists (fr :: pre), fr', before, ev, after.
      split; [done|]. split; [done|]. split; [|done].
      intros f [->|Hf]%elem_of_cons; [by rewrite Hpos | by apply Hpre].
    + intros f [->|Hf]%elem_of_cons; [by rewrite Hpos | by apply IH].
Qed.

(** X12: [main_menu] returns 0, 1 or 2, decided by the first event that is a
    [QUIT], which gives 2, or a click while the mouse position read at the
    start of its frame is over a menu item, which gives that item: where the
    click itself was does not count.  Every frame before, and every event
    before in the same frame, is neither; and [main_menu] goes on polling
    exactly when no frame holds such an event. *)
Theorem main_menu_choice (frames : list frame) :
  match main_menu frames with
  | Returned c rest =>
      (c = 0 ∨ c = 1 ∨ c = 2)%Z ∧
      ∃ pre fr before ev after,
        frames = pre ++ fr :: rest ∧ get fr = before ++ ev :: after ∧
        (∀ f, f ∈ pre → undecided (get_pos f) (get f)) ∧
        undecided (get_pos fr) before ∧
        ((ev = QUIT ∧ c = 2%Z) ∨
         ((∃ pos, ev = MOUSEBUTTONDOWN pos) ∧
          menu_item (get_pos fr).1 (get_pos fr).2 = Some c))
  | Pending => ∀ f, f ∈ frames → undecided (get_pos f) (get f)
  | Exhausted => False
  end ∧
  ((∀ f, f ∈ frames → undecided (get_pos f) (get f)) →
   main_menu frames = Pending).
Proof.
  pose proof (main_menu_first frames) as Hfirst. split; [done|].
  intros Hidle. destruct (main_menu frames) as [c rest| |]; [|done..].
  destruct Hfirst as (_ & pre & fr & before & ev & after & -> & Hget & _ & _
                      & Hev).
  destruct (Hidle fr) as [Hquit Hclick].
  { apply elem_of_app. right. apply elem_of_cons. by left. }
  assert (ev ∈ get fr) as Hin.
  { rewrite Hget. apply elem_of_app. right. apply elem_of_cons. by left. }
  destruct Hev as [[-> _]|[[pos ->] Hitem]]; [done|].
  destruct Hclick as [Hclick|Hnone]; [by destruct (Hclick pos) | congruence].
Qed.

Lemma main_menu_choice_witness :
  main_menu [Frame (50, 50)%Z [MOUSEBUTTONDOWN (300, 250)%Z];
             Frame (300, 450)%Z [OTHER_EVENT; MOUSEBUTTONDOWN (0, 0)%Z; QUIT]]
  = Returned 1%Z [] ∧
  main_menu [Frame (50, 50)%Z [MOUSEBUTTONDOWN (300, 250)%Z];
             Frame (300, 450)%Z [OTHER_EVENT]]
  = Pending.
Proof.
  split; [reflexivity|].
  apply (main_menu_choice
           [Frame (50, 50)%Z [MOUSEBUTTONDOWN (300, 250)%Z];
            Frame (300, 450)%Z [OTHER_EVENT]]).
  intros f [->|[->|[]%not_elem_of_nil]%elem_of_cons]%elem_of_cons.
  - split; [|by right].
    intros [?|[]%not_elem_of_nil]%elem_of_cons. discriminate.
  - split; [|left; intros pos].
    + intros [?|[]%not_elem_of_nil]%elem_of_cons. discriminate.
    + intros [?|[]%not_elem_of_nil]%elem_of_cons. discriminate.
Defined.

Section FlowTheorems.

Variable entropy : nat → nat.
Variables prompt_size yes_size no_size : Z * Z.

(** X13: the rematch prompt is left only by a click on "Yes", with the mode's
    tag, or on "No", with "menu": the loop around [rematch] never returns
    [None], and frames without such a click, [QUIT] events included, leave it
    polling. *)
Theorem rematch_loop_answer (tag : string) (frames : list frame) :
  match rematch_loop prompt_size yes_size no_size tag frames with
  | Returned res rest =>
      (res = Some tag ∨ res = Some "menu"%string) ∧
      ∃ pre fr, frames = pre ++ fr :: rest ∧
        answers prompt_size yes_size no_size fr
  | Pending => True
  | Exhausted => False
  end ∧
  ((∀ fr, fr ∈ frames → ¬ answers prompt_size yes_size no_size fr) →
   rematch_loop prompt_size yes_size no_size tag frames = Pending).
Proof.
  split; [apply rematch_loop_run | apply rematch_loop_Pending].
Qed.

(** X14: [two_player] never raises.  It returns [None] only after a [QUIT] event,
    and otherwise "2p" or "menu", after it has read at least one frame. *)
Theorem two_player_returns (frames : list frame) (w : world) :
  ∃ res w',
    two_player prompt_size yes_size no_size frames w = Ok res w' ∧
    mode_returns TwoPlayer frames res.
Proof. apply two_player_run. Qed.

(** X15: [play_computer], with enough fuel for the frames given, never raises.
    It returns [None] only after a [QUIT] event, and otherwise "ai" or
    "menu", after it has read at least one frame. *)
Theorem play_computer_returns (fuel : nat) (frames : list frame) (w : world) :
  2 * length frames + 1 < fuel →
  ∃ res w',
    play_computer entropy prompt_size yes_size no_size fuel frames w
    = Ok res w' ∧
    mode_returns PlayComputer frames res.
Proof. apply play_computer_run. Qed.

(** X16: every run of [play_game] follows [flow]: the loop is left only from the
    menu's "Exit" or when a game started from the menu returns [None]; a
    game that returns its own tag is followed by exactly one more game of
    the same mode, after which the menu is shown whatever that game
    returned, [None] included. *)
Theorem play_game_flow (fuel : nat) (frames : list frame) (w : world) :
  2 * length frames + 2 ≤ fuel →
  ∃ log e w',
    play_game entropy prompt_size yes_size no_size fuel frames w
    = Ok (log, e) w' ∧
    flow log e.
Proof. apply play_game_run. Qed.

End FlowTheorems.

Lemma play_computer_returns_witness :
  ∃ res w',
    play_computer (λ _, 0) (60, 20)%Z (30, 20)%Z (25, 20)%Z 4
      [Frame (0, 0)%Z [MOUSEBUTTONDOWN (350, 150)%Z; QUIT]] (World [] 0)
    = Ok res w' ∧
    mode_returns PlayComputer
      [Frame (0, 0)%Z [MOUSEBUTTONDOWN (350, 150)%Z; QUIT]] res.
Proof.
  apply (play_computer_returns (λ _, 0) (60, 20)%Z (30, 20)%Z (25, 20)%Z 4
           [Frame (0, 0)%Z [MOUSEBUTTONDOWN (350, 150)%Z; QUIT]] (World [] 0)).
  cbn [length]. lia.
Defined.

Lemma play_game_flow_witness :
  ∃ log e w',
    play_game (λ _, 0) (60, 20)%Z (30, 20)%Z (25, 20)%Z 6
      [Frame (300, 250)%Z [MOUSEBUTTONDOWN (300, 250)%Z];
       Frame (0, 0)%Z [QUIT]] (World [] 0)
    = Ok (log, e) w' ∧
    flow log e.
Proof.
  apply (play_game_flow (λ _, 0) (60, 20)%Z (30, 20)%Z (25, 20)%Z 6
           [Frame (300, 250)%Z [MOUSEBUTTONDOWN (300, 250)%Z];
            Frame (0, 0)%Z [QUIT]] (World [] 0)).
  cbn [length]. lia.
Defined.
